(** * cyclicdeadline: a shallow embedding of src/sched_deadline/cyclicdeadline.c

    The development follows the source file top to bottom:
    - machine integers (u32, u64, long, int) as [Z] with explicit wrap-around;
    - the CPU list code ([add_cpus], [count_cpus], [append_cpus],
      [make_new_list], [make_other_cpu_list], [calc_nr_cpus]);
    - the statistics record and the per-cycle step [do_runtime];
    - the two renderers of the average ([print_stat], [write_stats]);
    - the set-up loop of [main] that computes the schedule;
    - the barrier protocol between [main] and [run_deadline] as an
      interleaving transition system.
    - the clock [get_time_us], the trace formatter [my_vsprintf], the
      affinity arguments of [main], the static flag of [setup_hr_tick] and
      the loop of [make_cpuset] that moves the threads;
    - the features file as [fill_sched_features] and [setup_hr_tick] read
      and write it, and the rounds of [destroy_cpuset].

    Definitions come first, theorems afterwards. *)

From Stdlib Require Import ZArith List String Ascii Bool Lia Permutation.
From Stdlib Require Import DecimalString QArith.
From Stdlib Require PrimFloat Uint63 FloatOps SpecFloat.
From Stdlib Require DecimalPos.
Import ListNotations.

Local Open Scope Z_scope.

(* ================================================================= *)
(** ** Machine integers *)

(** [unsigned int], [u64] / [unsigned long], [int] and [long] of an LP64
    Linux target.  Unsigned arithmetic wraps; conversions to a signed type
    reinterpret the bits (what gcc does on this target). *)

Definition UINT_MOD : Z := 2 ^ 32.
Definition U64_MOD : Z := 2 ^ 64.
Definition INT_MAX : Z := 2 ^ 31 - 1.
Definition LONG_MAX : Z := 2 ^ 63 - 1.
Definition LONG_MIN : Z := - 2 ^ 63.

Definition to_uint (z : Z) : Z := z mod UINT_MOD.
Definition to_u64 (z : Z) : Z := z mod U64_MOD.

Definition to_int (z : Z) : Z :=
  let r := z mod UINT_MOD in
  if r <? 2 ^ 31 then r else r - UINT_MOD.

Definition to_long (z : Z) : Z :=
  let r := z mod U64_MOD in
  if r <? 2 ^ 63 then r else r - U64_MOD.

(* ================================================================= *)
(** ** C strings and the libc functions the parser calls *)

(** A [const char *p] is modelled by the text from [p] to the terminating
    NUL: [*p] is the head of the string, [p++] its tail. *)

Definition deref (p : string) : option ascii :=
  match p with
  | EmptyString => None
  | String c _ => Some c
  end.

Definition advance (p : string) : string :=
  match p with
  | EmptyString => EmptyString
  | String _ r => r
  end.

(** [*p == c] for a character [c] other than NUL. *)
Definition is_char (c : ascii) (p : string) : bool :=
  match deref p with
  | Some c' => Ascii.eqb c' c
  | None => false
  end.

Definition isdigit (c : ascii) : bool :=
  let n := nat_of_ascii c in (48 <=? n)%nat && (n <=? 57)%nat.

(** The "C" locale's [isspace]: space, \t, \n, \v, \f, \r. *)
Definition isspace (c : ascii) : bool :=
  let n := nat_of_ascii c in (n =? 32)%nat || ((9 <=? n)%nat && (n <=? 13)%nat).

Definition digit_val (c : ascii) : Z := Z.of_nat (nat_of_ascii c) - 48.

(** [while (isdigit( *p )) p++;] *)
Fixpoint skip_digits (p : string) : string :=
  match p with
  | String c r => if isdigit c then skip_digits r else p
  | EmptyString => p
  end.

Fixpoint skip_space (p : string) : string :=
  match p with
  | String c r => if isspace c then skip_space r else p
  | EmptyString => p
  end.

(** The value of the longest prefix of decimal digits, most significant
    digit first. *)
Fixpoint digits_value (acc : Z) (p : string) : Z :=
  match p with
  | String c r => if isdigit c then digits_value (10 * acc + digit_val c) r else acc
  | EmptyString => acc
  end.

Definition clamp_long (z : Z) : Z :=
  if z <? LONG_MIN then LONG_MIN else if LONG_MAX <? z then LONG_MAX else z.

(** glibc's [strtol (p, NULL, 10)]: leading white space, an optional sign,
    then digits; the result saturates at the ends of [long]. *)
Definition strtol (p : string) : Z :=
  match skip_space p with
  | String "-"%char r => clamp_long (- digits_value 0 r)
  | String "+"%char r => clamp_long (digits_value 0 r)
  | q => clamp_long (digits_value 0 q)
  end.

(** glibc's [atoi]: [(int) strtol (p, NULL, 10)]. *)
Definition atoi (p : string) : Z := to_int (strtol p).

(** [printf]'s "%d". *)
Definition fmt_d (z : Z) : string := NilZero.string_of_int (Z.to_int z).

(* ================================================================= *)
(** ** The CPU list *)

(** One node of [struct cpu_list]; the [next] pointers are the spine of a
    Rocq list.  [int] arithmetic on CPU numbers is left in [Z]: signed
    overflow is undefined in C.  The sums [end_cpu + 1] of [add_cpus] and
    [cpu + 1] of [make_other_cpu_list] are therefore those of the code for
    CPU numbers below [INT_MAX] only; a statement that depends on what
    happens at [INT_MAX] itself is outside this model. *)
Record cpu_list : Type := mk_cpu { start_cpu : Z; end_cpu : Z }.

(** The inner loop of the concatenation case of [add_cpus]:
    [[
      list = ( *cpu_list )->next;
      while (list && list->start_cpu <= end_cpu + 1) {
              ( *cpu_list )->end_cpu = list->end_cpu;
              ( *cpu_list )->next = list->next;
              free(list);
              list = ( *cpu_list )->next;
      }
    ]]
    It returns the head's new [end_cpu] and the nodes that remain. *)
Fixpoint add_cpus_absorb (head_end : Z) (rest : list cpu_list) (e : Z)
  : Z * list cpu_list :=
  match rest with
  | n :: rest' =>
      if start_cpu n <=? e + 1 then add_cpus_absorb (end_cpu n) rest' e
      else (head_end, rest)
  | [] => (head_end, [])
  end.

Fixpoint add_cpus (l : list cpu_list) (s e : Z) : list cpu_list :=
  match l with
  | [] => [mk_cpu s e]
  | c :: rest =>
      if end_cpu c + 1 <? s then c :: add_cpus rest s e
      else if (start_cpu c <? e) && (s <=? end_cpu c + 1) then
        (* Look to concatinate: end_cpu > start_cpu of the node, and
           start_cpu <= its end_cpu + 1 *)
        let st := if s <? start_cpu c then s else start_cpu c in
        let '(en, rest') := add_cpus_absorb (end_cpu c) rest e in
        mk_cpu st (if en <? e then e else en) :: rest'
      else if start_cpu c - 1 <=? e then
        (* Check for overlaps *)
        mk_cpu s (end_cpu c) :: rest
      else
        (* the new node is linked in behind the node the walk stopped at *)
        c :: mk_cpu s e :: rest
  end.

Section WithCpuCount.

(** The global [cpu_count] ([sysconf(_SC_NPROCESSORS_CONF)]). *)
Variable cpu_count : Z.

Fixpoint count_cpus_loop (l : list cpu_list) (cpus : Z) (fail : bool) : Z * bool :=
  match l with
  | [] => (cpus, fail)
  | n :: rest =>
      count_cpus_loop rest (cpus + (end_cpu n - start_cpu n) + 1)
                      (fail || (cpu_count <=? end_cpu n))
  end.

Definition count_cpus (l : list cpu_list) : Z :=
  let '(cpus, fail) := count_cpus_loop l 0 false in
  if fail then -1 else cpus.

(** [append_cpus]: the buffer grows by "%s%d" or "%s%d-%d"; [*total] is
    the length of the text written so far. *)
Definition append_cpus (buf : string) (s e : Z) (comma : string) : string :=
  if s =? e then buf ++ comma ++ fmt_d s
  else buf ++ comma ++ fmt_d s ++ "-" ++ fmt_d e.

Definition buf_text (buf : option string) : string :=
  match buf with None => EmptyString | Some b => b end.

(** [make_new_list]: [*buf] starts as [NULL] ([None]) and stays so when the
    list is empty. *)
Fixpoint make_new_list_loop (l : list cpu_list) (buf : option string)
         (comma : string) : option string :=
  match l with
  | [] => buf
  | n :: rest =>
      make_new_list_loop rest
        (Some (append_cpus (buf_text buf) (start_cpu n) (end_cpu n) comma)) ","
  end.

Definition make_new_list (l : list cpu_list) : option string :=
  make_new_list_loop l None "".

(** The [while] loop of [make_other_cpu_list].  Every iteration consumes at
    least one character, so [fuel] is the length of the text. *)
Fixpoint make_other_cpu_list_loop (fuel : nat) (p : string) (curr_cpu : Z)
         (comma : string) (cpus : option string)
  : option (Z * string * option string) :=
  match deref p with
  | None => Some (curr_cpu, comma, cpus)
  | Some _ =>
      if negb (curr_cpu <? cpu_count) then Some (curr_cpu, comma, cpus)
      else
        match fuel with
        | O => None
        | S fuel' =>
            let cpu := atoi p in
            let '(cpus1, comma1) :=
              if curr_cpu <? cpu
              then (Some (append_cpus (buf_text cpus) curr_cpu (cpu - 1) comma), ","%string)
              else (cpus, comma) in
            let p1 := skip_digits p in
            let '(cpu1, p2) :=
              if is_char "-" p1
              then (atoi (advance p1), skip_digits (advance p1))
              else (cpu, p1) in
            make_other_cpu_list_loop fuel' (advance p2) (cpu1 + 1) comma1 cpus1
        end
  end.

Definition make_other_cpu_list (setcpu : string) : option (option string) :=
  match make_other_cpu_list_loop (String.length setcpu) setcpu 0 "" None with
  | None => None
  | Some (curr_cpu, comma, cpus) =>
      Some (if curr_cpu <? cpu_count
            then Some (append_cpus (buf_text cpus) curr_cpu (cpu_count - 1) comma)
            else cpus)
  end.

(** How the [for] loop of [calc_nr_cpus] ends: at the NUL with the list
    built so far, or at [goto err]. *)
Inductive parse_end : Type :=
| ParseDone (l : list cpu_list)
| ParseErr (l : list cpu_list).

(** [for (p = setcpu; *p; ) { ... }].  The loop has no increment of its
    own: [p] moves only over digits, one '-' and one ','.  [None] means the
    loop is still running after [fuel] iterations. *)
Fixpoint calc_nr_cpus_loop (fuel : nat) (p : string) (l : list cpu_list)
  : option parse_end :=
  match deref p with
  | None => Some (ParseDone l)
  | Some _ =>
      match fuel with
      | O => None
      | S fuel' =>
          let cpu := atoi p in
          if (cpu <? 0) || ((cpu =? 0) && negb (is_char "0" p))
          then Some (ParseErr l)
          else
            let p1 := skip_digits p in
            if is_char "-" p1 then
              let q := advance p1 in
              let e := atoi q in
              if (e <? cpu) || ((e =? 0) && negb (is_char "0" q))
              then Some (ParseErr l)
              else
                let p2 := skip_digits q in
                calc_nr_cpus_loop fuel'
                  (if is_char "," p2 then advance p2 else p2)
                  (add_cpus l cpu e)
            else
              calc_nr_cpus_loop fuel'
                (if is_char "," p1 then advance p1 else p1)
                (add_cpus l cpu cpu)
      end
  end.

(** [calc_nr_cpus]: the return value and what [*buf] holds afterwards. *)
Definition calc_nr_cpus (fuel : nat) (setcpu : string) : option (Z * option string) :=
  match calc_nr_cpus_loop fuel setcpu [] with
  | None => None
  | Some (ParseDone l) => Some (count_cpus l, make_new_list l)
  | Some (ParseErr l) => Some (-1, None)
  end.

End WithCpuCount.

(* ================================================================= *)
(** ** Doubles *)

(** [double] is IEEE 754 binary64, which is what Rocq's primitive floats
    are.  The conversions below are the ones the compiler emits on x86-64. *)

Definition double : Set := PrimFloat.float.

Definition double_of_uint63 (z : Z) : double :=
  PrimFloat.of_uint63 (Uint63.of_Z z).

(** [(double) x] for an unsigned 64-bit [x], rounded to nearest.  From 2^63
    on the value is halved with a sticky low bit, converted and doubled,
    which rounds the same way. *)
Definition double_of_u64 (z : Z) : double :=
  if z <? 2 ^ 63 then double_of_uint63 z
  else
    let h := double_of_uint63 (Z.lor (Z.shiftr z 1) (Z.land z 1)) in
    PrimFloat.add h h.

(** [(long) x]: truncation toward zero; for a NaN, an infinity or a value
    outside [long] the x86-64 conversion yields [LONG_MIN]. *)
Definition long_of_double (x : double) : Z :=
  match FloatOps.Prim2SF x with
  | SpecFloat.S754_zero _ => 0
  | SpecFloat.S754_finite s m e =>
      let mag := if 0 <=? e then Z.pos m * 2 ^ e else Z.pos m / 2 ^ (- e) in
      let v := if s then - mag else mag in
      if (LONG_MIN <=? v) && (v <=? LONG_MAX) then v else LONG_MIN
  | _ => LONG_MIN
  end.

(** Nearest integer to [num / 2^k], ties to even. *)
Definition round_half_even (num : Z) (k : Z) : Z :=
  let q := num / 2 ^ k in
  let r := num mod 2 ^ k in
  if 2 * r <? 2 ^ k then q
  else if 2 ^ k <? 2 * r then q + 1
  else if Z.even q then q else q + 1.

Definition two_digits (z : Z) : string :=
  if z <? 10 then "0" ++ fmt_d z else fmt_d z.

(** [printf]'s "%.2f".  The one NaN that reaches it is the quotient 0.0/0
    of [write_stats]: the x86-64 division gives it with the sign bit set,
    and glibc prints such a NaN as "-nan". *)
Definition fmt_2f (x : double) : string :=
  match FloatOps.Prim2SF x with
  | SpecFloat.S754_nan => "-nan"
  | SpecFloat.S754_infinity s => if s then "-inf" else "inf"
  | SpecFloat.S754_zero s => if s then "-0.00" else "0.00"
  | SpecFloat.S754_finite s m e =>
      let n := if 0 <=? e then 100 * Z.pos m * 2 ^ e
               else round_half_even (100 * Z.pos m) (- e) in
      (if s then "-" else "") ++ fmt_d (n / 100) ++ "." ++ two_digits (n mod 100)
  end.

(** Right-justified field of width [w] ("%5ld" and the like). *)
Definition pad_left (w : nat) (s : string) : string :=
  string_of_list_ascii (repeat " "%char (w - String.length s)) ++ s.

(* ================================================================= *)
(** ** Statistics and the per-cycle step *)

(** The fields of [struct thread_stat] that this file's code paths read or
    write ([values], [hist_array], [outliers] and their counters stay zero:
    nothing allocates them here). *)
Record thread_stat : Type := mk_stat {
  cycles : Z;        (* unsigned long *)
  min : Z;           (* long *)
  max : Z;           (* long *)
  act : Z;           (* long *)
  avg : double;      (* the running sum, despite its name *)
  tid : Z            (* int *)
}.

Record sched_data : Type := mk_sd {
  runtime_us : Z;    (* u64 *)
  deadline_us : Z;   (* u64 *)
  stat : thread_stat
}.

(** A slot as [calloc] leaves it. *)
Definition stat_zero : thread_stat := mk_stat 0 0 0 0 PrimFloat.zero 0.
Definition sd_zero : sched_data := mk_sd 0 0 stat_zero.

(** Lines 741-749 of [do_runtime]: [diff] is a [u64]; the comparisons with
    the [long] fields are unsigned, the assignments reinterpret the bits. *)
Definition record_latency (st : thread_stat) (diff : Z) : thread_stat :=
  let max1 := if to_u64 (max st) <? diff then to_long diff else max st in
  let min1 := if (min st =? 0) || (diff <? to_u64 (min st))
              then to_long diff else min st in
  mk_stat (to_u64 (cycles st + 1)) min1 max1 (to_long diff)
          (PrimFloat.add (avg st) (double_of_u64 diff)) (tid st).

(** The period [do_runtime] measures against: the one passed in, or [now]
    when the clock has not reached it yet. *)
Definition adjust_period (now period : Z) : Z :=
  if now <? period then now else period.

(** What [do_runtime] writes to the trace marker. *)
Inductive trace_msg : Type :=
| AdjustingPeriod (now period delta : Z) (huge : bool)
| StartAt (now off period next : Z).

Record runtime_result : Type := mk_rr {
  rr_sd : sched_data;
  rr_next_period : Z;
  rr_trace : list trace_msg
}.

(** [do_runtime]; [now] is the value [get_time_us()] returns inside it. *)
Definition do_runtime (now : Z) (sd : sched_data) (period : Z) : runtime_result :=
  let adjusted := now <? period in
  let msg1 :=
    if adjusted
    then [AdjustingPeriod now period (to_u64 (period - now))
            (deadline_us sd / 2 <? to_u64 (period - now))]
    else [] in
  let period' := adjust_period now period in
  let next_period := to_u64 (period' + deadline_us sd) in
  let diff := to_u64 (now - period') in
  mk_rr (mk_sd (runtime_us sd) (deadline_us sd) (record_latency (stat sd) diff))
        next_period
        (msg1 ++ [StartAt now diff period' next_period]).

(** The steady-state loop of [run_deadline],
    [while (!shutdown) { period = do_runtime(tid, sd, period); sched_yield(); }],
    for the clock readings of the cycles it gets to run. *)
Fixpoint worker_cycles (nows : list Z) (sd : sched_data) (period : Z) : sched_data :=
  match nows with
  | [] => sd
  | now :: rest =>
      let r := do_runtime now sd period in
      worker_cycles rest (rr_sd r) (rr_next_period r)
  end.

(* ================================================================= *)
(** ** Reports *)

Definition nl : string := String (ascii_of_nat 10) EmptyString.
Definition tab : string := String (ascii_of_nat 9) EmptyString.
Definition dq : string := String (ascii_of_nat 34) EmptyString.

(** The value [print_stat] passes for "Avg:". *)
Definition print_stat_avg (st : thread_stat) : Z :=
  if cycles st =? 0 then 0
  else long_of_double (PrimFloat.div (avg st) (double_of_u64 (cycles st))).

(** [print_stat] with [verbose = 0], as both call sites in [loop] have it.
    [None]: nothing is printed. *)
Definition print_stat (use_nsecs : bool) (sd : sched_data) (index : Z) (quiet : Z)
  : option string :=
  if quiet =? 1 then None
  else
    let st := stat sd in
    let w := if use_nsecs then 8%nat else 5%nat in
    Some ("T:" ++ pad_left 2 (fmt_d index)
          ++ " (" ++ pad_left 5 (fmt_d (tid st)) ++ ")"
          ++ " I:" ++ fmt_d (to_long (deadline_us sd))
          ++ " C:" ++ pad_left 7 (fmt_d (cycles st))
          ++ " Min:" ++ pad_left 7 (fmt_d (min st))
          ++ " Act:" ++ pad_left w (fmt_d (act st))
          ++ " Avg:" ++ pad_left w (fmt_d (print_stat_avg st))
          ++ " Max:" ++ pad_left 8 (fmt_d (max st)) ++ nl)%string.

(** The value [write_stats] passes for "avg": no test of [cycles] here. *)
Definition write_stats_avg (st : thread_stat) : double :=
  PrimFloat.div (avg st) (double_of_u64 (cycles st)).

(** The body of the [for] loop of [write_stats] for thread [i]. *)
Definition write_stats_thread (nr_threads : Z) (i : Z) (s : thread_stat) : string :=
  ("    " ++ dq ++ fmt_d i ++ dq ++ ": {" ++ nl
   ++ tab ++ " " ++ dq ++ "cycles" ++ dq ++ ": " ++ fmt_d (to_long (cycles s)) ++ "," ++ nl
   ++ tab ++ " " ++ dq ++ "min" ++ dq ++ ": " ++ fmt_d (min s) ++ "," ++ nl
   ++ tab ++ " " ++ dq ++ "max" ++ dq ++ ": " ++ fmt_d (max s) ++ "," ++ nl
   ++ tab ++ " " ++ dq ++ "avg" ++ dq ++ ": " ++ fmt_2f (write_stats_avg s) ++ nl
   ++ "    }" ++ (if (i =? nr_threads - 1)%Z then "" else ",") ++ nl).

Fixpoint write_stats_loop (nr_threads : Z) (i : Z) (sds : list sched_data) : string :=
  match sds with
  | [] => EmptyString
  | sd :: rest =>
      (write_stats_thread nr_threads i (stat sd)
       ++ write_stats_loop nr_threads (i + 1) rest)
  end.

(** [write_stats]; [sds] is the array of [nr_threads] slots. *)
Definition write_stats (nr_threads : Z) (use_nsecs : Z) (sds : list sched_data) : string :=
  ("  " ++ dq ++ "num_threads" ++ dq ++ ": " ++ fmt_d nr_threads ++ "," ++ nl
   ++ "  " ++ dq ++ "resolution_in_ns" ++ dq ++ ": " ++ fmt_d use_nsecs ++ "," ++ nl
   ++ "  " ++ dq ++ "thread" ++ dq ++ ": {" ++ nl
   ++ write_stats_loop nr_threads 0 sds
   ++ "  }" ++ nl).

(* ================================================================= *)
(** ** The schedule set-up of [main] (lines 1170-1213) *)

(** Why [main] calls [fatal]. *)
Inductive fatal_reason : Type :=
| NeedHrtick                 (* "For less than 2ms run times, you need to have HRTICK ..." *)
| MissedRuntime (by_us : Z)  (* "Failed to perform task within runtime: Missed by %lld us" *)
| SetupStep1                 (* "failed to setup child threads at step 1" *)
| SetupStep2                 (* "failed to setup child threads at step 2" *)
| CpusetSetup.               (* a fatal() of make_cpuset, or "Allocating pids" *)

Inductive outcome (A : Type) : Type :=
| Ok (a : A)
| Fatal (why : fatal_reason).
Arguments Ok {A} a.
Arguments Fatal {A} why.

(** [int percent = 60; if (nr_threads > nr_cpus) percent = nr_cpus * 80 / nr_threads;]
    ([int] division truncates: [Z.quot]; the [int] product is left in [Z],
    [nr_cpus] being at most the number of CPUs of the machine). *)
Definition duty_percent (nr_threads nr_cpus : Z) : Z :=
  if nr_cpus <? nr_threads then Z.quot (nr_cpus * 80) nr_threads else 60.

(** [runtime = interval * percent / 100;] with [unsigned int interval] and
    [int percent]: the product is taken in [unsigned int]. *)
Definition runtime_of (interval percent : Z) : Z :=
  to_uint (interval * to_uint percent) / 100.

Section Setup.

(** What the environment answers: [setup_hr_tick()] and the successive
    readings of [get_time_us()]. *)
Variable hr_tick : bool.
Variable clock : nat -> Z.

(** The [for] loop over the [n] slots still to fill; [t] counts the clock
    readings taken so far, [interval] is the [unsigned int] variable. *)
Fixpoint main_setup_loop (n : nat) (t : nat) (interval step percent : Z)
  : outcome (list sched_data) :=
  match n with
  | O => Ok []
  | S n' =>
      let runtime := runtime_of interval percent in
      if (runtime <? 2000) && negb hr_tick then Fatal NeedHrtick
      else
        let sd := mk_sd runtime interval stat_zero in
        let start_period := clock t in
        let r := do_runtime (clock (S t)) sd start_period in
        let end_period := clock (S (S t)) in
        let spent := to_u64 (end_period - start_period) in
        if runtime <? spent then Fatal (MissedRuntime (to_u64 (spent - runtime)))
        else
          match main_setup_loop n' (S (S (S t))) (to_uint (interval + step)) step percent with
          | Ok sds => Ok (rr_sd r :: sds)
          | Fatal why => Fatal why
          end
  end.

Definition main_setup (nr_threads nr_cpus interval step : Z)
  : outcome (list sched_data) :=
  main_setup_loop (Z.to_nat nr_threads) 0 interval step
                  (duty_percent nr_threads nr_cpus).

End Setup.

(** The sum over the workers of [runtime_us / deadline_us], as a rational. *)
Definition utilization (sds : list sched_data) : Q :=
  fold_right Qplus 0%Q
    (map (fun sd => (inject_Z (runtime_us sd) / inject_Z (deadline_us sd))%Q) sds).

(* ================================================================= *)
(** ** The start-up protocol of [main] and [run_deadline] *)

(** Threads interleave at the granularity of the statements between two
    synchronisation points; [shutdown] is read and written atomically. *)
Module Startup.

(** The five [pthread_barrier_wait] calls of [run_deadline]
    (lines 771, 776, 785, 791, 796). *)
Inductive wsite : Type :=
| WB_getattr_failed | WB_baseline | WB_prepared | WB_setattr_failed | WB_applied.

Inductive wpc : Type :=
| W_getattr                     (* line 767 *)
| W_at (b : wsite)              (* about to call pthread_barrier_wait *)
| W_in (b : wsite)              (* blocked inside it *)
| W_prepare                     (* lines 778-783 *)
| W_setattr                     (* line 787 *)
| W_first_period                (* lines 798-799 *)
| W_loop                        (* line 801 *)
| W_getattr2                    (* line 805 *)
| W_exit (res : option string). (* pthread_exit(msg) / return NULL *)

Definition after_wsite (b : wsite) : wpc :=
  match b with
  | WB_getattr_failed => W_exit (Some "Failed sched_getattr"%string)
  | WB_baseline => W_prepare
  | WB_prepared => W_setattr
  | WB_setattr_failed => W_exit (Some "Failed sched_setattr"%string)
  | WB_applied => W_first_period
  end.

(** One worker: where it is, what the kernel will answer to its three
    system calls, and how many steady-state cycles it has run. *)
Record worker : Type := mk_worker {
  w_pc : wpc;
  getattr_ok : bool;
  setattr_ok : bool;
  getattr2_ok : bool;
  w_cycles : nat
}.

Definition set_pc (w : worker) (pc : wpc) : worker :=
  mk_worker pc (getattr_ok w) (setattr_ok w) (getattr2_ok w) (w_cycles w).

(** The three [pthread_barrier_wait] calls of [main]
    (lines 1225, 1256, 1261). *)
Inductive msite : Type := MB1 | MB2 | MB3.

Inductive mpc : Type :=
| M_at (b : msite)
| M_in (b : msite)
| M_check1                      (* line 1227 *)
| M_cpuset                      (* lines 1230-1254 *)
| M_check2                      (* line 1258 *)
| M_signals                     (* lines 1263-1268 *)
| M_loop                        (* loop(), line 1270 *)
| M_join (i : nat)              (* lines 1272-1281 *)
| M_return                      (* lines 1283-1291: return 0 *)
| M_fatal (why : fatal_reason). (* fatal(): the process exits *)

Definition after_msite (b : msite) : mpc :=
  match b with
  | MB1 => M_check1
  | MB2 => M_check2
  | MB3 => M_signals
  end.

Record config : Type := mk_config {
  shutdown : bool;
  handlers : bool;          (* sighand installed *)
  m_pc : mpc;
  ws : list worker;
  warned : list nat         (* "Thread %d failed: %s" *)
}.

Inductive actor : Type :=
| Main
| Worker (i : nat)
| Signal                        (* SIGINT, SIGTERM or SIGALRM arrives *)
| Cpuset_fails.                 (* a call of lines 1230-1252 fails *)

Definition blocked_w (w : worker) : bool :=
  match w_pc w with W_in _ => true | _ => false end.

Definition blocked_m (m : mpc) : bool :=
  match m with M_in _ => true | _ => false end.

(** Threads inside [pthread_barrier_wait]. *)
Definition arrived (c : config) : nat :=
  (List.length (filter blocked_w (ws c)) + (if blocked_m (m_pc c) then 1 else 0))%nat.

(** [pthread_barrier_init(&barrier, NULL, nr_threads + 1)]. *)
Definition parties (c : config) : nat := S (List.length (ws c)).

Definition release_w (w : worker) : worker :=
  match w_pc w with
  | W_in b => set_pc w (after_wsite b)
  | _ => w
  end.

Definition release_m (m : mpc) : mpc :=
  match m with
  | M_in b => after_msite b
  | _ => m
  end.

Fixpoint set_nth (i : nat) (w : worker) (l : list worker) : list worker :=
  match l, i with
  | [], _ => []
  | _ :: r, O => w :: r
  | x :: r, S i' => x :: set_nth i' w r
  end.

Definition process_over (m : mpc) : bool :=
  match m with M_return | M_fatal _ => true | _ => false end.

(** Worker [i] calls [pthread_barrier_wait] at site [b]: the last of the
    [parties] to arrive releases everybody, anyone else blocks. *)
Definition worker_wait (c : config) (i : nat) (w : worker) (b : wsite) : config :=
  if (S (arrived c) =? parties c)%nat
  then mk_config (shutdown c) (handlers c) (release_m (m_pc c))
         (map release_w (set_nth i (set_pc w (after_wsite b)) (ws c))) (warned c)
  else mk_config (shutdown c) (handlers c) (m_pc c)
         (set_nth i (set_pc w (W_in b)) (ws c)) (warned c).

Definition main_wait (c : config) (b : msite) : config :=
  if (S (arrived c) =? parties c)%nat
  then mk_config (shutdown c) (handlers c) (after_msite b)
         (map release_w (ws c)) (warned c)
  else mk_config (shutdown c) (handlers c) (M_in b) (ws c) (warned c).

Definition with_worker (c : config) (sd : bool) (i : nat) (w : worker) : config :=
  mk_config sd (handlers c) (m_pc c) (set_nth i w (ws c)) (warned c).

Definition with_main (c : config) (m : mpc) : config :=
  mk_config (shutdown c) (handlers c) m (ws c) (warned c).

(** One step of [run_deadline] in worker [i]. *)
Definition worker_step (c : config) (i : nat) (w : worker) : option config :=
  match w_pc w with
  | W_getattr =>
      if getattr_ok w
      then Some (with_worker c (shutdown c) i (set_pc w (W_at WB_baseline)))
      else Some (with_worker c true i (set_pc w (W_at WB_getattr_failed)))
  | W_at b => Some (worker_wait c i w b)
  | W_in _ => None
  | W_prepare => Some (with_worker c (shutdown c) i (set_pc w (W_at WB_prepared)))
  | W_setattr =>
      if setattr_ok w
      then Some (with_worker c (shutdown c) i (set_pc w (W_at WB_applied)))
      else Some (with_worker c true i (set_pc w (W_at WB_setattr_failed)))
  | W_first_period => Some (with_worker c (shutdown c) i (set_pc w W_loop))
  | W_loop =>
      if shutdown c
      then Some (with_worker c (shutdown c) i (set_pc w W_getattr2))
      else Some (with_worker c (shutdown c) i
                   (mk_worker W_loop (getattr_ok w) (setattr_ok w) (getattr2_ok w)
                              (S (w_cycles w))))
  | W_getattr2 =>
      Some (with_worker c (shutdown c) i
              (set_pc w (W_exit (if getattr2_ok w then None
                                 else Some "Failed second sched_getattr"%string))))
  | W_exit _ => None
  end.

(** One step of [main] from line 1225 on.  At [M_cpuset] this is the way
    through lines 1230-1254 on which every call succeeds (or which
    [all_cpus] skips); the other way out of these lines is the step of
    [Cpuset_fails] below. *)
Definition main_step (c : config) : option config :=
  match m_pc c with
  | M_at b => Some (main_wait c b)
  | M_in _ => None
  | M_check1 => Some (with_main c (if shutdown c then M_fatal SetupStep1 else M_cpuset))
  | M_cpuset => Some (with_main c (M_at MB2))
  | M_check2 => Some (with_main c (if shutdown c then M_fatal SetupStep2 else M_at MB3))
  | M_signals => Some (mk_config (shutdown c) true M_loop (ws c) (warned c))
  | M_loop => Some (with_main c (if shutdown c then M_join 0 else M_loop))
  | M_join i =>
      match nth_error (ws c) i with
      | None => Some (with_main c M_return)
      | Some w =>
          match w_pc w with
          | W_exit None => Some (with_main c (M_join (S i)))
          | W_exit (Some _) =>
              Some (mk_config (shutdown c) (handlers c) (M_join (S i)) (ws c)
                              (warned c ++ [i]))
          | _ => None        (* pthread_join blocks *)
          end
      end
  | M_return => None
  | M_fatal _ => None
  end.

(** One step of the system.  The cpusets are made by [main] alone, between
    its first two barriers: when [make_cpuset] or the [calloc] of [pids]
    fails there, [main] calls [fatal] and the process is over.  A signal
    is a step once [sighand] is installed; one that arrives before ends
    the process by its default action and is no step here. *)
Definition step (a : actor) (c : config) : option config :=
  if process_over (m_pc c) then None
  else
    match a with
    | Main => main_step c
    | Worker i =>
        match nth_error (ws c) i with
        | Some w => worker_step c i w
        | None => None
        end
    | Signal =>
        if handlers c
        then Some (mk_config true true (m_pc c) (ws c) (warned c))
        else None
    | Cpuset_fails =>
        match m_pc c with
        | M_cpuset => Some (with_main c (M_fatal CpusetSetup))
        | _ => None
        end
    end.

(** A schedule is the order in which the threads move and the events of
    the environment occur. *)
Fixpoint run (sched : list actor) (c : config) : option config :=
  match sched with
  | [] => Some c
  | a :: rest =>
      match step a c with
      | Some c' => run rest c'
      | None => None
      end
  end.

(** Right after the [pthread_create] loop: every worker at the top of
    [run_deadline], [main] before its first barrier.  A worker is given
    by the answers to its [sched_getattr], [sched_setattr] and second
    [sched_getattr]. *)
Definition new_worker (k : bool * bool * bool) : worker :=
  let '(g, s, g2) := k in mk_worker W_getattr g s g2 0.

Definition init (kernel : list (bool * bool * bool)) : config :=
  mk_config false false (M_at MB1) (map new_worker kernel) [].

Inductive reachable (c0 : config) : config -> Prop :=
| reach_refl : reachable c0 c0
| reach_step : forall c a c', reachable c0 c -> step a c = Some c' -> reachable c0 c'.

(** *** The invariant of the protocol *)

(** The number of barriers a thread has been released from. *)
Definition wsite_phase (b : wsite) : nat :=
  match b with
  | WB_getattr_failed | WB_baseline => 0
  | WB_prepared => 1
  | WB_setattr_failed | WB_applied => 2
  end.

Definition wphase (pc : wpc) : option nat :=
  match pc with
  | W_getattr => Some 0%nat
  | W_at b | W_in b => Some (wsite_phase b)
  | W_prepare => Some 1%nat
  | W_setattr => Some 2%nat
  | W_first_period | W_loop | W_getattr2 => Some 3%nat
  | W_exit _ => None
  end.

Definition msite_phase (b : msite) : nat :=
  match b with MB1 => 0 | MB2 => 1 | MB3 => 2 end.

Definition mphase (m : mpc) : option nat :=
  match m with
  | M_at b | M_in b => Some (msite_phase b)
  | M_check1 | M_cpuset => Some 1%nat
  | M_check2 => Some 2%nat
  | M_signals | M_loop | M_join _ => Some 3%nat
  | M_return | M_fatal _ => None
  end.

Definition in_phase (g : nat) (o : option nat) : Prop :=
  match o with
  | Some k => k = g
  | None => True
  end.

(** A worker one of whose first two system calls fails. *)
Definition fails (w : worker) : bool := negb (getattr_ok w && setattr_ok w).

(** What a worker's position says about the kernel's answers and about
    [shutdown]. *)
Definition consistent (sd : bool) (w : worker) : bool :=
  match w_pc w with
  | W_getattr | W_exit _ => true
  | W_at WB_getattr_failed | W_in WB_getattr_failed => true
  | W_at WB_setattr_failed | W_in WB_setattr_failed => getattr_ok w && sd
  | W_at WB_applied | W_in WB_applied => getattr_ok w && setattr_ok w
  | _ => getattr_ok w
  end.

Record Inv (c : config) : Prop := mk_Inv {
  inv_phase :
    exists g,
      in_phase g (mphase (m_pc c))
      /\ Forall (fun w => in_phase g (wphase (w_pc w))) (ws c)
      /\ (g = 3%nat -> existsb fails (ws c) = true -> shutdown c = true);
  inv_consistent : Forall (fun w => consistent (shutdown c) w = true) (ws c);
  inv_cycles : Forall (fun w => w_cycles w = 0%nat) (ws c)
}.

(** What keeps the protocol going when every [sched_getattr] succeeds:
    the barrier is never full, no worker is on the path of a failed
    [sched_getattr], and a worker has exited only once [main] is past the
    third barrier. *)
Definition exited (w : worker) : bool :=
  match w_pc w with W_exit _ => true | _ => false end.

Definition on_getattr_path (w : worker) : bool :=
  match w_pc w with
  | W_at WB_getattr_failed | W_in WB_getattr_failed => false
  | _ => getattr_ok w
  end.

Record Live (c : config) : Prop := mk_Live {
  live_count : (arrived c <= List.length (ws c))%nat;
  live_exit : Forall (fun w => exited w = true -> in_phase 3 (mphase (m_pc c))) (ws c);
  live_getattr : Forall (fun w => on_getattr_path w = true) (ws c)
}.

(** Some thread can move. *)
Definition can_step (c : config) : Prop :=
  step Main c <> None \/ exists i, step (Worker i) c <> None.

End Startup.

(* ================================================================= *)
(** ** Vocabulary of the statements *)

(** The invariant of the CPU list: every interval is non-empty, starts
    above [lo], and leaves at least one CPU out between itself and the
    next ([lo] is the end of the interval before, plus one). *)
Fixpoint ascending (lo : Z) (l : list cpu_list) : Prop :=
  match l with
  | [] => True
  | c :: r => lo < start_cpu c /\ start_cpu c <= end_cpu c /\ ascending (end_cpu c + 1) r
  end.

(** CPU [x] lies in one of the intervals. *)
Definition covered (l : list cpu_list) (x : Z) : Prop :=
  exists c, In c l /\ start_cpu c <= x <= end_cpu c.

(** Whether [add_cpus l s e] ends in its last branch, where the new node
    is linked in behind the node the walk stopped at. *)
Fixpoint links_behind (l : list cpu_list) (s e : Z) : bool :=
  match l with
  | [] => false
  | c :: rest =>
      if end_cpu c + 1 <? s then links_behind rest s e
      else negb ((start_cpu c <? e) && (s <=? end_cpu c + 1))
           && negb (start_cpu c - 1 <=? e)
  end.

(** The list after the intervals [ivs] have been inserted, in order. *)
Definition add_all (l : list cpu_list) (ivs : list (Z * Z)) : list cpu_list :=
  fold_left (fun acc iv => add_cpus acc (fst iv) (snd iv)) ivs l.

(** No insertion of the sequence ends in the last branch of [add_cpus]. *)
Fixpoint never_links_behind (l : list cpu_list) (ivs : list (Z * Z)) : Prop :=
  match ivs with
  | [] => True
  | iv :: r =>
      links_behind l (fst iv) (snd iv) = false
      /\ never_links_behind (add_cpus l (fst iv) (snd iv)) r
  end.

(** An interval as the parser passes it to [add_cpus]. *)
Definition valid_interval (iv : Z * Z) : Prop := 0 <= fst iv <= snd iv.

(** An interval that ends below [INT_MAX].  On such intervals the sums
    [end_cpu + 1] of [add_cpus] stay within [int], where they are those of
    the mathematical integers. *)
Definition below_int_max (iv : Z * Z) : Prop := snd iv < INT_MAX.

(** The statistics after the latencies [diffs] have been recorded, in
    order, into a zeroed slot. *)
Definition run_latencies (diffs : list Z) : thread_stat :=
  fold_left record_latency diffs stat_zero.

(** The sum the code keeps in [avg]: the latencies added to 0.0 one by
    one, each converted to [double]. *)
Definition latency_sum (diffs : list Z) : double :=
  fold_left (fun s d => PrimFloat.add s (double_of_u64 d)) diffs PrimFloat.zero.


(** The minimum of [d :: l]. *)
Fixpoint list_minimum (d : Z) (l : list Z) : Z :=
  match l with
  | [] => d
  | x :: r => list_minimum (Z.min d x) r
  end.

(** The least element of a list, 0 for the empty list. *)
Definition true_min (l : list Z) : Z :=
  match l with
  | [] => 0
  | x :: r => list_minimum x r
  end.

(** The greatest element of a list of non-negative numbers, 0 for the
    empty list. *)
Definition true_max (l : list Z) : Z := fold_left Z.max l 0.

(** The latencies recorded after the most recent 0. *)
Definition since_last_zero (l : list Z) : list Z :=
  fold_left (fun acc d => if d =? 0 then [] else acc ++ [d]) l [].

Definition smallest_positive (l : list Z) : Z :=
  true_min (filter (fun d => 0 <? d) l).

(** The two halves of the description of the running minimum that the
    theorems below measure the code against: after a 0 and a later
    positive latency the reported minimum is the smallest positive latency
    seen; and the reported minimum is the true one only when the latencies
    are all positive or all zero. *)
Definition min_is_smallest_positive (diffs : list Z) : Prop :=
  (exists l1 l2 l3 d, diffs = l1 ++ 0 :: l2 ++ d :: l3 /\ 0 < d) ->
  min (run_latencies diffs) = smallest_positive diffs.

Definition min_true_only_when_uniform (diffs : list Z) : Prop :=
  min (run_latencies diffs) = true_min diffs ->
  Forall (fun d => 0 < d) diffs \/ Forall (fun d => d = 0) diffs.

(** The latencies the steady-state loop records for the clock readings
    [nows], starting from the period boundary [period]. *)
Fixpoint worker_latencies (nows : list Z) (deadline period : Z) : list Z :=
  match nows with
  | [] => []
  | now :: rest =>
      let p := adjust_period now period in
      to_u64 (now - p) :: worker_latencies rest deadline (to_u64 (p + deadline))
  end.

(** The latency of the calibration call of [main] whose first clock
    reading is number [t]. *)
Definition calibration_latency (clock : nat -> Z) (t : nat) : Z :=
  to_u64 (clock (S t) - adjust_period (clock (S t)) (clock t)).

(** The value of [interval] at the top of iteration [i] of the set-up
    loop. *)
Fixpoint interval_at (i : nat) (interval step : Z) : Z :=
  match i with
  | O => interval
  | S i' => interval_at i' (to_uint (interval + step)) step
  end.

(* ================================================================= *)
(** ** The clock *)

(** [get_time_us] for the [struct timespec] that [clock_gettime] fills in:
    [time = ts.tv_sec * 1000000; time += ts.tv_nsec / 1000;] in [u64]. *)
Definition get_time_us (tv_sec tv_nsec : Z) : Z :=
  to_u64 (to_u64 (tv_sec * 1000000) + Z.quot tv_nsec 1000).

(* ================================================================= *)
(** ** The trace marker: [my_vsprintf] and [ftrace_write] *)

(** One argument of the [va_list]. *)
Inductive va_arg : Type :=
| VaStr (s : string)
| VaInt (z : Z)
| VaLongLong (z : Z).

Inductive vs_fatal : Type :=
| LWithS                                (* "Illegal print format l used with %s" *)
| TooManyL (l : Z)                      (* "Illegal print format l=%d" *)
| UnknownConversion (c : option ascii). (* "Illegal print format '%c'" *)

(** How [my_vsprintf] ends. *)
Inductive vs_end : Type :=
| Returned (text : string)   (* [s - buf] is the length of [text], which [buf] holds *)
| VsFatal (why : vs_fatal)
| Overrun                    (* [s] has moved beyond [end] *)
| BadVaArg.                  (* [va_arg] of the wrong type, or of a missing argument *)

(** [while (lng > 0) { tmp[i++] = (lng % 10) + '0'; lng /= 10; }] with
    [char tmp[100]]: [fuel] is the room left in [tmp]. *)
Fixpoint vs_digits_loop (fuel : nat) (lng : Z) (tmp : list ascii) : option (list ascii) :=
  if 0 <? lng then
    match fuel with
    | O => None
    | S fuel' =>
        vs_digits_loop fuel' (Z.quot lng 10)
                       (tmp ++ [ascii_of_nat (Z.to_nat (Z.rem lng 10 + 48))])
    end
  else Some tmp.

(** The characters a "%d" conversion writes: [tmp] backwards, or '0' when
    [tmp] is empty. *)
Definition vs_number (lng : Z) : option string :=
  match vs_digits_loop 99 lng [] with
  | None => None
  | Some [] => Some "0"%string
  | Some tmp => Some (string_of_list_ascii (rev tmp))
  end.

Definition strlen (s : string) : Z := Z.of_nat (String.length s).

(** The [for] loop of [my_vsprintf].  [out] is the text between [buf] and
    [s]; [conv] is [None] at the head of the loop and [Some l] after the
    [p++] at [again:], [l] being the number of 'l's read so far.  The test
    [s < end] is made at the head of the loop only: a conversion writes
    all its characters. *)
Fixpoint my_vsprintf_loop (size : Z) (p : string) (conv : option Z) (out : string)
         (ap : list va_arg) : vs_end :=
  match conv with
  | None =>
      match p with
      | EmptyString => Returned out
      | String c r =>
          if negb (strlen out <? size) then Returned out
          else if Ascii.eqb c "%" then my_vsprintf_loop size r (Some 0) out ap
          else my_vsprintf_loop size r None (out ++ String c EmptyString) ap
      end
  | Some l =>
      match p with
      | EmptyString => VsFatal (UnknownConversion None)
      | String c r =>
          if Ascii.eqb c "s" then
            if negb (l =? 0) then VsFatal LWithS
            else
              match ap with
              | VaStr str :: ap' =>
                  if size <? strlen out + strlen str then Overrun
                  else my_vsprintf_loop size r None (out ++ str) ap'
              | _ => BadVaArg
              end
          else if Ascii.eqb c "l" then my_vsprintf_loop size r (Some (l + 1)) out ap
          else if Ascii.eqb c "d" then
            (* sizeof(long) == 8 *)
            let l1 := if l =? 1 then 2 else l in
            let arg :=
              if l1 =? 2 then
                match ap with
                | VaLongLong z :: ap' => inl (to_long z, ap')
                | _ => inr BadVaArg
                end
              else if 2 <? l1 then inr (VsFatal (TooManyL l1))
              else
                match ap with
                | VaInt z :: ap' => inl (to_int z, ap')
                | _ => inr BadVaArg
                end in
            match arg with
            | inr e => e
            | inl (lng, ap') =>
                match vs_number lng with
                | None => Overrun
                | Some digits =>
                    if size <? strlen out + strlen digits then Overrun
                    else my_vsprintf_loop size r None (out ++ digits) ap'
                end
            end
          else VsFatal (UnknownConversion (Some c))
      end
  end.

Definition my_vsprintf (size : Z) (fmt : string) (ap : list va_arg) : vs_end :=
  my_vsprintf_loop size fmt None EmptyString ap.

(** [ftrace_write]: nothing when the marker file is not open, else what
    [my_vsprintf] leaves in the buffer goes to it.  [size] is [BUFSIZ]. *)
Definition ftrace_write (mark_fd : Z) (size : Z) (fmt : string) (ap : list va_arg)
  : option vs_end :=
  if mark_fd <? 0 then None else Some (my_vsprintf size fmt ap).

(** The two calls of [ftrace_write] in [do_runtime]. *)
Definition trace_text (size : Z) (m : trace_msg) : vs_end :=
  match m with
  | AdjustingPeriod now period delta huge =>
      my_vsprintf size
        ("Adjusting period: now: %lld period: %lld delta:%lld%s" ++ nl)
        [VaLongLong now; VaLongLong period; VaLongLong delta;
         VaStr (if huge then " HUGE ADJUSTMENT" else "")]
  | StartAt now off period next =>
      my_vsprintf size ("start at %lld off=%lld (period=%lld next=%lld)" ++ nl)
        [VaLongLong now; VaLongLong off; VaLongLong period; VaLongLong next]
  end.

(* ================================================================= *)
(** ** The affinity arguments of [main] (lines 1132-1158) *)

Record affinity : Type := mk_affinity {
  af_nr_threads : Z;
  af_nr_cpus : Z;
  af_all_cpus : bool;
  af_setcpu : option string;      (* [setcpu], [NULL] as [None] *)
  af_allcpu : option string       (* [allcpu_buf] *)
}.

Inductive affinity_end : Type :=
| InvalidCpuInput (setcpu : string)   (* fatal("Invalid cpu input '%s'\n", setcpu) *)
| Affinity (a : affinity).

Section Affinity.

Variable cpu_count : Z.

(** From [if (!all_cpus && cpu_count == nr_cpus)] on; [given] tells
    whether [setcpu] was set by an option. *)
Definition main_affinity_rest (nr_threads nr_cpus : Z) (all_cpus given : bool)
           (setcpu_buf : option string) : option affinity_end :=
  let all_cpus1 := all_cpus || (cpu_count =? nr_cpus) in
  let setcpu1 :=
    if negb all_cpus1 && negb given then Some (fmt_d (cpu_count - 1)) else setcpu_buf in
  match setcpu1 with
  | Some s =>
      match make_other_cpu_list cpu_count s with
      | None => None
      | Some allcpu => Some (Affinity (mk_affinity nr_threads nr_cpus all_cpus1 setcpu1 allcpu))
      end
  | None => Some (Affinity (mk_affinity nr_threads nr_cpus all_cpus1 None None))
  end.

(** [nr_threads], [all_cpus] and [setcpu] as the option loop leaves them.
    [None]: [calc_nr_cpus] has not returned within [fuel] iterations. *)
Definition main_affinity (fuel : nat) (nr_threads : Z) (all_cpus : bool)
           (setcpu : option string) : option affinity_end :=
  let nr_threads1 := if nr_threads =? 0 then 1 else nr_threads in
  match setcpu with
  | Some text =>
      match calc_nr_cpus cpu_count fuel text with
      | None => None
      | Some (nr_cpus, setcpu_buf) =>
          if (nr_cpus <? 0) || (cpu_count <? nr_cpus)
          then Some (InvalidCpuInput text)
          else main_affinity_rest nr_threads1 nr_cpus all_cpus true setcpu_buf
      end
  | None => main_affinity_rest nr_threads1 cpu_count all_cpus false None
  end.

End Affinity.

(* ================================================================= *)
(** ** The static flag of [setup_hr_tick] *)

Section SetupHr.

(** What the body of [setup_hr_tick] returns when it runs, and the clock. *)
Variable body : bool.
Variable clock : nat -> Z.

(** [if (set) return 1; set = 1; ...]: the return value and the flag
    afterwards. *)
Definition setup_hr_tick (set : bool) : bool * bool :=
  if set then (true, true) else (body, true).

(** The set-up loop of [main] with the calls of [setup_hr_tick] as they
    are made: one for every slot whose runtime is below 2000. *)
Fixpoint main_setup_loop_hr (n : nat) (t : nat) (set : bool) (interval step percent : Z)
  : outcome (list sched_data) :=
  match n with
  | O => Ok []
  | S n' =>
      let runtime := runtime_of interval percent in
      let '(hr, set1) :=
        if runtime <? 2000 then setup_hr_tick set else (true, set) in
      if negb hr then Fatal NeedHrtick
      else
        let sd := mk_sd runtime interval stat_zero in
        let start_period := clock t in
        let r := do_runtime (clock (S t)) sd start_period in
        let end_period := clock (S (S t)) in
        let spent := to_u64 (end_period - start_period) in
        if runtime <? spent then Fatal (MissedRuntime (to_u64 (spent - runtime)))
        else
          match main_setup_loop_hr n' (S (S (S t))) set1
                                   (to_uint (interval + step)) step percent with
          | Ok sds => Ok (rr_sd r :: sds)
          | Fatal why => Fatal why
          end
  end.

End SetupHr.

(* ================================================================= *)
(** ** Moving the threads into the cpuset ([make_cpuset], lines 511-531) *)

Inductive tasks_end : Type :=
| TasksMoved
| FailedOnTask (pid : Z).      (* fatal("Failed on task %d\n", pids[i]) *)

Section MoveTasks.

(** What the [i]-th [write] to the [tasks] file returns. *)
Variable write : nat -> string -> Z.

(** [for (i = 0; pids[i]; i++) { sprintf(buf, "%d ", pids[i]);
    ret = write(fd, buf, strlen(buf)); }]: [ret], [pids[i]] and the texts
    written when the loop ends; [None] when the array has no 0 in it. *)
Fixpoint move_tasks_loop (pids : list Z) (i : nat) (ret : Z) (written : list string)
  : option (Z * Z * list string) :=
  match pids with
  | [] => None
  | p :: rest =>
      if p =? 0 then Some (ret, p, written)
      else
        let buf := (fmt_d p ++ " ")%string in
        move_tasks_loop rest (S i) (write i buf) (written ++ [buf])
  end.

Definition move_tasks (pids : list Z) : option (tasks_end * list string) :=
  match move_tasks_loop pids 0 0 [] with
  | None => None
  | Some (ret, p, written) =>
      Some (if ret <? 0 then FailedOnTask p else TasksMoved, written)
  end.

End MoveTasks.

(** [pids = calloc(nr_threads + 1, sizeof(int));
    pids[i] = sched_data[i].stat.tid;] *)
Definition main_pids (sds : list sched_data) : list Z :=
  map (fun sd => tid (stat sd)) sds ++ [0].

(* ================================================================= *)
(** ** Vocabulary of the further statements *)

(** *** CPU lists as texts *)

Definition interval_of (c : cpu_list) : Z * Z := (start_cpu c, end_cpu c).

(** One CPU or one range, as [append_cpus] writes it. *)
Definition token (iv : Z * Z) : string :=
  if fst iv =? snd iv then fmt_d (fst iv)
  else fmt_d (fst iv) ++ "-" ++ fmt_d (snd iv).

(** Tokens separated by commas. *)
Fixpoint expression (ivs : list (Z * Z)) : string :=
  match ivs with
  | [] => ""
  | iv :: r => token iv ++ match r with [] => "" | _ => "," ++ expression r end
  end.

(** An interval of CPU numbers that fit [int]. *)
Definition int_interval (iv : Z * Z) : Prop := 0 <= fst iv <= snd iv /\ snd iv <= INT_MAX.

Definition no_digit_ahead (p : string) : Prop :=
  match p with
  | String c _ => isdigit c = false
  | EmptyString => True
  end.

Definition digit_ahead (p : string) : Prop :=
  match p with
  | String c _ => isdigit c = true
  | EmptyString => False
  end.

(** The value of a decimal numeral, most significant digit first. *)
Fixpoint uint_value (d : Decimal.uint) (acc : Z) : Z :=
  match d with
  | Decimal.Nil => acc
  | Decimal.D0 l => uint_value l (10 * acc + 0)
  | Decimal.D1 l => uint_value l (10 * acc + 1)
  | Decimal.D2 l => uint_value l (10 * acc + 2)
  | Decimal.D3 l => uint_value l (10 * acc + 3)
  | Decimal.D4 l => uint_value l (10 * acc + 4)
  | Decimal.D5 l => uint_value l (10 * acc + 5)
  | Decimal.D6 l => uint_value l (10 * acc + 6)
  | Decimal.D7 l => uint_value l (10 * acc + 7)
  | Decimal.D8 l => uint_value l (10 * acc + 8)
  | Decimal.D9 l => uint_value l (10 * acc + 9)
  end.

Definition uint_cons (k : Z) (d : Decimal.uint) : Decimal.uint :=
  match k with
  | 0 => Decimal.D0 d | 1 => Decimal.D1 d | 2 => Decimal.D2 d | 3 => Decimal.D3 d
  | 4 => Decimal.D4 d | 5 => Decimal.D5 d | 6 => Decimal.D6 d | 7 => Decimal.D7 d
  | 8 => Decimal.D8 d | _ => Decimal.D9 d
  end.

(** The CPUs of one interval, and of a list, one by one. *)
Definition cpus_in (c : cpu_list) : list Z :=
  map (fun k => start_cpu c + Z.of_nat k) (seq 0 (Z.to_nat (end_cpu c - start_cpu c + 1))).

Definition cpus_of (l : list cpu_list) : list Z := flat_map cpus_in l.

Definition reaches (cpu_count : Z) (c : cpu_list) : bool := cpu_count <=? end_cpu c.

(** The intervals between those of [l], from CPU [from] up to the last
    CPU of the machine. *)
Fixpoint gaps (cpu_count : Z) (from : Z) (l : list cpu_list) : list cpu_list :=
  match l with
  | [] => if from <? cpu_count then [mk_cpu from (cpu_count - 1)] else []
  | c :: r =>
      (if from <? start_cpu c then [mk_cpu from (start_cpu c - 1)] else [])
      ++ gaps cpu_count (end_cpu c + 1) r
  end.

(** What [make_other_cpu_list] does after its loop. *)
Definition finish_other (cpu_count : Z) (st : Z * string * option string) : option string :=
  let '(curr_cpu, comma, cpus) := st in
  if curr_cpu <? cpu_count
  then Some (append_cpus (buf_text cpus) curr_cpu (cpu_count - 1) comma)
  else cpus.

(** *** Texts of [my_vsprintf] *)

(** What [printf]'s "%d" prints for a positive number, "0" for the
    others. *)
Definition decimal_or_zero (lng : Z) : string :=
  if 0 <? lng then fmt_d lng else "0".

(** No '%' in the text. *)
Fixpoint plain (s : string) : bool :=
  match s with
  | EmptyString => true
  | String c r => negb (Ascii.eqb c "%") && plain r
  end.

(** The first [n] characters. *)
Fixpoint truncate (n : nat) (s : string) : string :=
  match n, s with
  | S n', String c r => String c (truncate n' r)
  | _, _ => EmptyString
  end.

(** *** The set-up loop *)

(** Slot [i] passes both tests of the set-up loop that starts at clock
    reading [t]. *)
Definition slot_ok (hr : bool) (clock : nat -> Z) (t : nat) (interval step percent : Z)
           (i : nat) : Prop :=
  let runtime := runtime_of (interval_at i interval step) percent in
  (2000 <= runtime \/ hr = true)
  /\ to_u64 (clock (t + 3 * i + 2)%nat - clock (t + 3 * i)%nat) <= runtime.

(** *** The start-up protocol, whatever the system calls answer *)

Module StartupFacts.

Import Startup.

Definition past_barrier1 (m : mpc) : bool :=
  match m with M_at MB1 | M_in MB1 => false | _ => true end.

(** [main] has made its "step 1" test and gone on. *)
Definition past_check1 (m : mpc) : bool :=
  match m with M_at MB1 | M_in MB1 | M_check1 | M_fatal _ => false | _ => true end.

(** What the position of a worker says about the answers it got, about
    [shutdown] and about [main]. *)
Definition sound_w (sd : bool) (m : mpc) (w : worker) : Prop :=
  match w_pc w with
  | W_getattr => True
  | W_at WB_getattr_failed | W_in WB_getattr_failed =>
      getattr_ok w = false /\ sd = true
  | W_at WB_setattr_failed | W_in WB_setattr_failed =>
      getattr_ok w = true /\ setattr_ok w = false /\ sd = true
  | W_at WB_applied | W_in WB_applied | W_first_period | W_loop | W_getattr2 =>
      getattr_ok w = true /\ setattr_ok w = true
  | W_exit _ =>
      in_phase 3 (mphase m)
      \/ (getattr_ok w = false /\ sd = true /\ past_barrier1 m = true)
  | _ => getattr_ok w = true
  end.

Record Sound (c : config) : Prop := mk_Sound {
  sound_phase :
    exists g, in_phase g (mphase (m_pc c))
              /\ Forall (fun w => in_phase g (wphase (w_pc w))) (ws c);
  sound_count : (arrived c <= List.length (ws c))%nat;
  sound_workers : Forall (sound_w (shutdown c) (m_pc c)) (ws c);
  sound_checked :
    past_check1 (m_pc c) = true -> Forall (fun w => getattr_ok w = true) (ws c)
}.

(** The handlers are installed and [main] is in [loop] or beyond. *)
Definition after_signals (m : mpc) : bool :=
  match m with M_loop | M_join _ | M_return => true | _ => false end.

(** A worker whose first two system calls succeed is never on a failure
    path, and the only message it can leave is that of the third call. *)
Definition calm_w (w : worker) : Prop :=
  getattr_ok w = true /\ setattr_ok w = true
  /\ match w_pc w with
     | W_at WB_getattr_failed | W_in WB_getattr_failed
     | W_at WB_setattr_failed | W_in WB_setattr_failed => False
     | W_exit (Some msg) =>
         msg = "Failed second sched_getattr"%string /\ getattr2_ok w = false
     | W_exit None => getattr2_ok w = true
     | _ => True
     end.

Record Calm (c : config) : Prop := mk_Calm {
  calm_shutdown : shutdown c = true -> handlers c = true;
  calm_handlers : handlers c = true -> after_signals (m_pc c) = true;
  calm_workers : Forall calm_w (ws c);
  calm_main : forall why, m_pc c = M_fatal why -> why = CpusetSetup
}.

(** The worker is past the barrier that follows [sched_setattr] and has
    not left [run_deadline]. *)
Definition measuring (w : worker) : Prop :=
  w_pc w = W_first_period \/ w_pc w = W_loop \/ w_pc w = W_getattr2.

(** The indices, from [i] on, of the workers that have left a message. *)
Fixpoint failed_from (i : nat) (l : list worker) : list nat :=
  match l with
  | [] => []
  | w :: r =>
      match w_pc w with
      | W_exit (Some _) => i :: failed_from (S i) r
      | _ => failed_from (S i) r
      end
  end.

(** What the join loop of [main] has done so far. *)
Definition joined (c : config) : Prop :=
  match m_pc c with
  | M_join i =>
      (i <= List.length (ws c))%nat
      /\ Forall (fun w => exited w = true) (firstn i (ws c))
      /\ warned c = failed_from 0 (firstn i (ws c))
  | M_return =>
      Forall (fun w => exited w = true) (ws c)
      /\ warned c = failed_from 0 (ws c)
  | M_fatal _ => True
  | _ => warned c = []
  end.

End StartupFacts.

(* ================================================================= *)
(** ** The scheduler features file: [fill_sched_features] and [setup_hr_tick] *)

(** [strncmp (s, needle, strlen (needle)) == 0]. *)
Fixpoint starts_with (needle s : string) : bool :=
  match needle, s with
  | EmptyString, _ => true
  | String a n, String b r => Ascii.eqb a b && starts_with n r
  | String _ _, EmptyString => false
  end.

(** [strstr (s, needle) - s], the offset of the first occurrence. *)
Fixpoint strstr (s needle : string) : option nat :=
  if starts_with needle s then Some 0%nat
  else
    match s with
    | EmptyString => None
    | String _ r => option_map S (strstr r needle)
    end.

(** [p + n]. *)
Fixpoint skip (n : nat) (p : string) : string :=
  match n with
  | O => p
  | S n' => skip n' (advance p)
  end.

(** The C string that starts a buffer: the bytes before the first NUL. *)
Fixpoint c_string (s : string) : string :=
  match s with
  | EmptyString => EmptyString
  | String c r => if Ascii.eqb c Ascii.zero then EmptyString else String c (c_string r)
  end.

(** What the system answers to [setup_hr_tick]. *)
Record features_env : Type := mk_features_env {
  fe_debugfs : string;            (* the result of find_debugfs() *)
  fe_stat_ok : string -> bool;    (* stat(path, &st) == 0 *)
  fe_open_ok : string -> bool;    (* open(path, O_RDWR) >= 0 *)
  fe_read : option string;        (* the bytes read() stored, None when it failed *)
  fe_write : string -> Z          (* the result of write() *)
}.

Definition check_file_exists (e : features_env) (path : string) : Z :=
  if fe_stat_ok e path then 1 else 0.

Section SchedFeatures.

(** [MAX_PATH] of rt-utils.h, the size of [path]. *)
Variable MAX_PATH : nat.

(** [snprintf (path, MAX_PATH, ...)]. *)
Definition snprintf_path (text : string) : string := truncate (MAX_PATH - 1) text.

(** The return value and [path]; [None] is the buffer left as it was. *)
Definition fill_sched_features (e : features_env) : Z * option string :=
  let debugfs := fe_debugfs e in
  if strlen debugfs =? 0 then (-1, None)
  else
    let path := snprintf_path (debugfs ++ "/sched/features")%string in
    let ret := check_file_exists e path in
    if negb (ret =? 0) then (0, Some path)
    else
      let path := snprintf_path (debugfs ++ "/sched_features")%string in
      let ret := check_file_exists e path in
      if negb (ret =? 0) then (0, Some path)
      else (ret, Some EmptyString).

(** [buf] after [read] and [buf[ret] = 0], as a C string. *)
Definition features_text (data : string) : string :=
  let len := 500 in
  let ret := Z.of_nat (String.length data) in
  let ret := if ret >=? len then len - 1 else ret in
  c_string (truncate (Z.to_nat ret) data).

(** One of the two searches: [p = strstr (buf, name); if (p && p - 3 >= buf)
    { p -= 3; if (strncmp (p, no_name, n) == 0) { ret = write (fd, name, n');
    ... } }].  The result tells whether the name was found behind three
    characters, the new [ret] and the text written. *)
Definition enable_feature (e : features_env) (buf name no_name : string) (ret : Z)
  : bool * Z * list string :=
  match strstr buf name with
  | Some k =>
      if (3 <=? k)%nat
      then
        if starts_with no_name (skip (k - 3) buf)
        then
          let ret := fe_write e name in
          (true, if negb (ret =? strlen name) then 0 else 1, [name])
        else (true, ret, [])
      else (false, ret, [])
  | None => (false, ret, [])
  end.

(** The body of [setup_hr_tick] behind [set = 1]: the return value and the
    texts written to the features file. *)
Definition setup_hr_tick_body (e : features_env) : Z * list string :=
  let '(ret, path) := fill_sched_features e in
  if negb (ret =? 0) then (0, [])
  else
    match path with
    | None => (0, [])
    | Some path =>
        if negb (fe_open_ok e path) then (0, [])
        else
          match fe_read e with
          | None => (0, [])
          | Some data =>
              let buf := features_text data in
              let ret := 1 in
              let '(hrtick_dl, ret, written) :=
                enable_feature e buf "HRTICK_DL"%string "NO_HRTICK_DL"%string ret in
              if negb hrtick_dl
              then
                let '(_, ret, written') :=
                  enable_feature e buf "HRTICK"%string "NO_HRTICK"%string ret in
                (ret, written ++ written')
              else (ret, written)
          end
    end.

End SchedFeatures.

(** [needle] occurs in [s]. *)
Definition occurs (needle s : string) : Prop :=
  exists pre post, s = (pre ++ needle ++ post)%string.

(* ================================================================= *)
(** ** Removing a cpuset: [destroy_cpuset] *)

(** What the system answers in the [n]-th round of [destroy_cpuset]. *)
Record destroy_env : Type := mk_destroy_env {
  de_stat_ok : bool;             (* stat(path, &st) >= 0, before the rounds *)
  de_fopen_ok : nat -> bool;     (* fopen of the tasks file of the set *)
  de_open_ok : nat -> bool;      (* open of the tasks file of the root *)
  de_tasks : nat -> list Z;      (* the numbers fscanf reads *)
  de_rmdir_ok : nat -> bool      (* rmdir(path) >= 0 *)
}.

Inductive destroy_event : Type :=
| DWrite (text : string)         (* write(fd, buf, strlen(buf)) *)
| DSleep                         (* sleep(1) *)
| DRmdir.                        (* rmdir(path) *)

Inductive destroy_end : Type :=
| DNoSuchSet                     (* stat failed *)
| DFopenFailed
| DOpenFailed
| DRemoved
| DGaveUp.                       (* err_msg_n(errno, "Failed to remove %s\n", path) *)

(** The code from [again:] on.  [n] counts the rounds, [retry] is the
    variable of the source. *)
Fixpoint destroy_cpuset_loop (fuel : nat) (e : destroy_env) (n : nat) (retry : Z)
         (trace : list destroy_event) : option (destroy_end * list destroy_event) :=
  match fuel with
  | O => None
  | S fuel' =>
      if negb (de_fopen_ok e n) then Some (DFopenFailed, trace)
      else if negb (de_open_ok e n) then Some (DOpenFailed, trace)
      else
        let trace :=
          trace ++ map (fun pid => DWrite (fmt_d pid)) (de_tasks e n) ++ [DSleep; DRmdir] in
        if de_rmdir_ok e n then Some (DRemoved, trace)
        else if retry <? 5
             then destroy_cpuset_loop fuel' e (S n) (to_int (retry + 1)) trace
             else Some (DGaveUp, trace)
  end.

Definition destroy_cpuset (fuel : nat) (e : destroy_env)
  : option (destroy_end * list destroy_event) :=
  if negb (de_stat_ok e) then Some (DNoSuchSet, [])
  else destroy_cpuset_loop fuel e 0 0 [].

(** The number of calls of [rmdir] in a trace. *)
Definition rmdirs (trace : list destroy_event) : nat :=
  List.length (filter (fun ev => match ev with DRmdir => true | _ => false end) trace).

Definition sleeps (trace : list destroy_event) : nat :=
  List.length (filter (fun ev => match ev with DSleep => true | _ => false end) trace).

(* ================================================================= *)
(** * Theorems *)

(* ================================================================= *)
(** ** The CPU list *)

Import Startup.

(** The unfolding of one iteration of the [for] loop of [calc_nr_cpus],
    at a position that is not the end of the text. *)
Lemma calc_nr_cpus_loop_unfold :
  forall fuel p l,
    p <> EmptyString ->
    calc_nr_cpus_loop (S fuel) p l =
    let cpu := atoi p in
    if (cpu <? 0) || ((cpu =? 0) && negb (is_char "0" p))
    then Some (ParseErr l)
    else
      let p1 := skip_digits p in
      if is_char "-" p1 then
        let q := advance p1 in
        let e := atoi q in
        if (e <? cpu) || ((e =? 0) && negb (is_char "0" q))
        then Some (ParseErr l)
        else
          let p2 := skip_digits q in
          calc_nr_cpus_loop fuel (if is_char "," p2 then advance p2 else p2)
                            (add_cpus l cpu e)
      else
        calc_nr_cpus_loop fuel (if is_char "," p1 then advance p1 else p1)
                          (add_cpus l cpu cpu).
Proof.
  intros fuel p l Hne. destruct p as [|c r]; [congruence | reflexivity].
Qed.

(** A position where [atoi] reads a positive number although the text
    does not start with a digit (white space or a '+' in front of it) is a
    fixed point of the loop body: [p] never moves again. *)
Lemma calc_nr_cpus_loop_stuck :
  forall fuel p l,
    p <> EmptyString ->
    skip_digits p = p ->
    is_char "-" p = false ->
    is_char "," p = false ->
    0 < atoi p ->
    calc_nr_cpus_loop fuel p l = None.
Proof.
  induction fuel as [|fuel IH]; intros p l Hne Hsk Hminus Hcomma Hpos.
  - destruct p; [congruence | reflexivity].
  - rewrite calc_nr_cpus_loop_unfold by assumption.
    cbv zeta.
    replace (atoi p <? 0) with false by (symmetry; apply Z.ltb_ge; lia).
    replace (atoi p =? 0) with false by (symmetry; apply Z.eqb_neq; lia).
    cbn [orb andb]. rewrite Hsk, Hminus, Hcomma.
    apply IH; assumption.
Qed.

(** C5.  For "0,2-4,5" on a machine with 8 CPUs the loop of [calc_nr_cpus]
    ends after three iterations with the list [0,0], [2,5] (CPU 5 is
    adjacent to 2-4 and is absorbed); [calc_nr_cpus] returns 5 CPUs and the
    text "0,2-5"; [make_other_cpu_list] turns that text into "1,6-7". *)
Theorem calc_nr_cpus_example :
  forall fuel : nat,
    calc_nr_cpus_loop (3 + fuel) "0,2-4,5" [] =
      Some (ParseDone [mk_cpu 0 0; mk_cpu 2 5])
    /\ calc_nr_cpus 8 (3 + fuel) "0,2-4,5" = Some (5, Some "0,2-5"%string)
    /\ make_new_list [mk_cpu 0 0; mk_cpu 2 5] = Some "0,2-5"%string
    /\ make_other_cpu_list 8 "0,2-5" = Some (Some "1,6-7"%string).
Proof.
  intro fuel. destruct fuel; repeat split; reflexivity.
Qed.

(** Overlapping ranges merge as well: "1-3,3-5" is the single range 1-5. *)
Example calc_nr_cpus_overlap :
  forall fuel : nat,
    calc_nr_cpus_loop (2 + fuel) "1-3,3-5" [] = Some (ParseDone [mk_cpu 1 5]).
Proof. intro fuel. destruct fuel; reflexivity. Qed.

(** *** What [add_cpus] does to an ascending list *)

Lemma ascending_weaken :
  forall l lo lo', lo' <= lo -> ascending lo l -> ascending lo' l.
Proof.
  intros [|c r] lo lo' Hle H; [exact I|].
  cbn in *. destruct H as [H1 [H2 H3]]. repeat split; [lia | exact H2 | exact H3].
Qed.

Lemma covered_cons :
  forall c l x,
    covered (c :: l) x <-> (start_cpu c <= x <= end_cpu c) \/ covered l x.
Proof.
  intros c l x. unfold covered. split.
  - intros [c' [[<- | Hin] Hx]]; [left; exact Hx | right; exists c'; auto].
  - intros [Hx | [c' [Hin Hx]]]; [exists c | exists c']; cbn; auto.
Qed.

Lemma covered_above :
  forall l lo x, ascending lo l -> covered l x -> lo < x.
Proof.
  induction l as [|c r IH]; intros lo x Hasc Hcov.
  - destruct Hcov as [c [[] _]].
  - cbn in Hasc. destruct Hasc as [H1 [H2 H3]].
    apply covered_cons in Hcov. destruct Hcov as [Hx | Hcov]; [lia|].
    specialize (IH _ _ H3 Hcov). lia.
Qed.

(** The absorbing loop: the nodes it removes lie between the old and the
    new end of the head, what is left starts beyond both the new end and
    [e], and every CPU above [e] up to the new end was in a removed
    node. *)
Lemma add_cpus_absorb_spec :
  forall rest he e he' rest',
    ascending (he + 1) rest ->
    add_cpus_absorb he rest e = (he', rest') ->
    he <= he'
    /\ ascending (Z.max he' e + 1) rest'
    /\ (forall x, covered rest x -> covered rest' x \/ he < x <= he')
    /\ (forall x, covered rest' x -> covered rest x)
    /\ (forall x, he < x <= he' -> e < x -> covered rest x).
Proof.
  induction rest as [|n r IH]; intros he e he' rest' Hasc Habs.
  - cbn in Habs. inversion Habs. subst. repeat split; try lia; try exact I; auto.
  - cbn [add_cpus_absorb] in Habs. cbn in Hasc. destruct Hasc as [H1 [H2 H3]].
    destruct (start_cpu n <=? e + 1) eqn:E.
    + apply Z.leb_le in E.
      destruct (IH _ _ _ _ H3 Habs) as [Hle [Hasc' [Hin [Hout Hgap]]]].
      repeat split.
      * lia.
      * exact Hasc'.
      * intros x Hx. apply covered_cons in Hx. destruct Hx as [Hx | Hx]; [right; lia|].
        destruct (Hin x Hx) as [H | H]; [left; exact H | right; lia].
      * intros x Hx. apply covered_cons. right. apply Hout, Hx.
      * intros x Hx Hex. apply covered_cons.
        destruct (Z_le_gt_dec x (end_cpu n)) as [Hxn | Hxn]; [left; lia | right].
        apply Hgap; lia.
    + apply Z.leb_gt in E. inversion Habs. subst.
      split; [|split; [|split; [|split]]].
      * lia.
      * cbn. repeat split; [lia | exact H2 | exact H3].
      * intros x Hx. left. exact Hx.
      * auto.
      * intros x Hx Hex. lia.
Qed.

(** Unless it ends in its last branch, [add_cpus] keeps the list
    ascending and adds exactly the CPUs from [s] to [e] to it. *)
Theorem add_cpus_ascending :
  forall l lo s e,
    ascending lo l -> lo < s -> s <= e ->
    links_behind l s e = false ->
    ascending lo (add_cpus l s e)
    /\ forall x, covered (add_cpus l s e) x <-> covered l x \/ s <= x <= e.
Proof.
  induction l as [|c rest IH]; intros lo s e Hasc Hlo Hse Hlb.
  - cbn. split; [repeat split; [lia | lia]|].
    intro x. rewrite covered_cons. cbn. split.
    + intros [Hx | [c [[] _]]]. right. exact Hx.
    + intros [[c [[] _]] | Hx]. left. exact Hx.
  - cbn in Hasc. destruct Hasc as [H1 [H2 H3]].
    cbn [add_cpus links_behind] in *.
    destruct (end_cpu c + 1 <? s) eqn:Ewalk.
    + apply Z.ltb_lt in Ewalk.
      destruct (IH (end_cpu c + 1) s e H3 Ewalk Hse Hlb) as [Hasc' Hcov'].
      split; [cbn; repeat split; assumption|].
      intro x. rewrite !covered_cons, Hcov'. tauto.
    + apply Z.ltb_ge in Ewalk.
      destruct ((start_cpu c <? e) && (s <=? end_cpu c + 1)) eqn:Econcat.
      * apply andb_true_iff in Econcat. destruct Econcat as [E1 _].
        apply Z.ltb_lt in E1.
        destruct (add_cpus_absorb (end_cpu c) rest e) as [he' rest'] eqn:Habs.
        destruct (add_cpus_absorb_spec _ _ _ _ _ H3 Habs)
          as [Hle [Hasc' [Hin [Hout Hgap]]]].
        assert (Hend : (if he' <? e then e else he') = Z.max he' e).
        { destruct (he' <? e) eqn:E; [apply Z.ltb_lt in E | apply Z.ltb_ge in E]; lia. }
        assert (Hst : (if s <? start_cpu c then s else start_cpu c) = Z.min s (start_cpu c)).
        { destruct (s <? start_cpu c) eqn:E; [apply Z.ltb_lt in E | apply Z.ltb_ge in E]; lia. }
        rewrite Hend, Hst. split.
        -- cbn. repeat split; [lia | lia | exact Hasc'].
        -- intro x. rewrite !covered_cons. cbn [start_cpu end_cpu]. split.
           ++ intros [Hx | Hx]; [|left; right; apply Hout, Hx].
              destruct (Z_le_gt_dec x e) as [Hxe | Hxe].
              ** destruct (Z_le_gt_dec (start_cpu c) x) as [Hcx | Hcx].
                 --- destruct (Z_le_gt_dec x (end_cpu c)); [left; left; lia | right; lia].
                 --- right. lia.
              ** destruct (Z_le_gt_dec x (end_cpu c)) as [Hxc | Hxc]; [left; left; lia|].
                 left. right. apply Hgap; lia.
           ++ intros [[Hx | Hx] | Hx].
              ** left. lia.
              ** destruct (Hin x Hx) as [H | H]; [right; exact H | left; lia].
              ** left. lia.
      * cbn [negb andb] in Hlb.
        destruct (start_cpu c - 1 <=? e) eqn:Eover; [|discriminate Hlb].
        apply Z.leb_le in Eover.
        apply andb_false_iff in Econcat.
        assert (Hec : e <= start_cpu c).
        { destruct Econcat as [E | E]; [apply Z.ltb_ge in E; exact E|].
          apply Z.leb_gt in E. lia. }
        split.
        -- cbn. repeat split; [lia | lia | exact H3].
        -- intro x. rewrite !covered_cons. cbn [start_cpu end_cpu]. split.
           ++ intros [Hx | Hx]; [|left; right; exact Hx].
              destruct (Z_le_gt_dec (start_cpu c) x); [left; left; lia | right; lia].
           ++ intros [[Hx | Hx] | Hx]; [left; lia | right; exact Hx | left; lia].
Qed.

(** X7.  When [add_cpus] does end in its last branch, the list is no
    longer ascending, whatever it was before. *)
Theorem add_cpus_links_behind :
  forall l lo s e,
    links_behind l s e = true ->
    ~ ascending lo (add_cpus l s e).
Proof.
  induction l as [|c rest IH]; intros lo s e Hlb Hasc; [discriminate Hlb|].
  cbn [add_cpus links_behind] in *.
  destruct (end_cpu c + 1 <? s) eqn:Ewalk.
  - cbn in Hasc. destruct Hasc as [_ [_ Hasc]]. apply (IH _ _ _ Hlb Hasc).
  - apply Z.ltb_ge in Ewalk.
    apply andb_true_iff in Hlb. destruct Hlb as [Hc Ho].
    apply negb_true_iff in Hc, Ho. rewrite Hc, Ho in Hasc.
    cbn in Hasc. lia.
Qed.

(** An ascending list is determined by the CPUs it covers. *)
Lemma ascending_unique :
  forall l1 l2 lo,
    ascending lo l1 -> ascending lo l2 ->
    (forall x, covered l1 x <-> covered l2 x) ->
    l1 = l2.
Proof.
  induction l1 as [|c1 r1 IH]; intros [|c2 r2] lo H1 H2 Hcov.
  - reflexivity.
  - exfalso. cbn in H2. destruct H2 as [_ [Hne _]].
    assert (Hc : covered (c2 :: r2) (start_cpu c2)) by (apply covered_cons; left; lia).
    apply Hcov in Hc. destruct Hc as [c [[] _]].
  - exfalso. cbn in H1. destruct H1 as [_ [Hne _]].
    assert (Hc : covered (c1 :: r1) (start_cpu c1)) by (apply covered_cons; left; lia).
    apply Hcov in Hc. destruct Hc as [c [[] _]].
  - cbn in H1, H2. destruct H1 as [Hlo1 [Hne1 Hr1]]. destruct H2 as [Hlo2 [Hne2 Hr2]].
    assert (Hin : forall c r c' r' x,
               start_cpu c <= end_cpu c -> ascending (end_cpu c + 1) r ->
               start_cpu c' <= end_cpu c' -> ascending (end_cpu c' + 1) r' ->
               (forall y, covered (c :: r) y <-> covered (c' :: r') y) ->
               start_cpu c <= x <= end_cpu c -> start_cpu c' <= x).
    { intros c r c' r' x Hc Hr Hc' Hr' Hcv Hx.
      assert (Hs : covered (c :: r) x) by (apply covered_cons; left; exact Hx).
      apply Hcv, covered_cons in Hs. destruct Hs as [Hs | Hs]; [lia|].
      pose proof (covered_above _ _ _ Hr' Hs). lia. }
    assert (Hsym : forall y, covered (c2 :: r2) y <-> covered (c1 :: r1) y)
      by (intro y; symmetry; apply Hcov).
    assert (Hstart : start_cpu c1 = start_cpu c2).
    { pose proof (Hin c1 r1 c2 r2 (start_cpu c1) Hne1 Hr1 Hne2 Hr2 Hcov ltac:(lia)).
      pose proof (Hin c2 r2 c1 r1 (start_cpu c2) Hne2 Hr2 Hne1 Hr1 Hsym ltac:(lia)).
      lia. }
    assert (Hend : forall c r c' r',
               start_cpu c <= end_cpu c -> ascending (end_cpu c + 1) r ->
               start_cpu c' <= end_cpu c' ->
               start_cpu c = start_cpu c' ->
               (forall y, covered (c :: r) y <-> covered (c' :: r') y) ->
               end_cpu c' <= end_cpu c).
    { intros c r c' r' Hc Hr Hc' Hs Hcv.
      destruct (Z_le_gt_dec (end_cpu c') (end_cpu c)) as [H | H]; [exact H | exfalso].
      assert (Hx : covered (c' :: r') (end_cpu c + 1)) by (apply covered_cons; left; lia).
      apply Hcv, covered_cons in Hx. destruct Hx as [Hx | Hx]; [lia|].
      pose proof (covered_above _ _ _ Hr Hx). lia. }
    assert (Hends : end_cpu c1 = end_cpu c2).
    { pose proof (Hend c1 r1 c2 r2 Hne1 Hr1 Hne2 Hstart Hcov).
      pose proof (Hend c2 r2 c1 r1 Hne2 Hr2 Hne1 (eq_sym Hstart) Hsym).
      lia. }
    assert (Hc : c1 = c2) by (destruct c1, c2; cbn in *; congruence).
    subst c2. f_equal. apply (IH r2 (end_cpu c1 + 1) Hr1 Hr2).
    intro x. split; intro Hx.
    + assert (Hx' : covered (c1 :: r1) x) by (apply covered_cons; right; exact Hx).
      apply Hcov, covered_cons in Hx'. destruct Hx' as [Hx' | Hx']; [|exact Hx'].
      pose proof (covered_above _ _ _ Hr1 Hx). lia.
    + assert (Hx' : covered (c1 :: r2) x) by (apply covered_cons; right; exact Hx).
      apply Hcov, covered_cons in Hx'. destruct Hx' as [Hx' | Hx']; [|exact Hx'].
      pose proof (covered_above _ _ _ Hr2 Hx). lia.
Qed.

Lemma add_all_ascending :
  forall ivs l,
    ascending (-1) l ->
    Forall valid_interval ivs ->
    never_links_behind l ivs ->
    ascending (-1) (add_all l ivs)
    /\ forall x, covered (add_all l ivs) x
                 <-> covered l x \/ Exists (fun iv => fst iv <= x <= snd iv) ivs.
Proof.
  induction ivs as [|iv r IH]; intros l Hasc Hvalid Hnever.
  - cbn. split; [exact Hasc|]. intro x. split; [auto|].
    intros [H | H]; [exact H | inversion H].
  - inversion_clear Hvalid as [|? ? Hiv Hr]. cbn in Hnever. destruct Hnever as [Hlb Hn].
    unfold valid_interval in Hiv.
    destruct (add_cpus_ascending l (-1) (fst iv) (snd iv) Hasc ltac:(lia) ltac:(lia) Hlb)
      as [Hasc' Hcov'].
    destruct (IH _ Hasc' Hr Hn) as [Hasc'' Hcov''].
    split; [exact Hasc''|].
    intro x. cbn [add_all fold_left] in *. rewrite Hcov'', Hcov', Exists_cons. tauto.
Qed.

(** X8.  Insertion of intervals that end below [INT_MAX] is independent
    of the order as far as no insertion ends in the last branch of
    [add_cpus]: two orders of the same intervals that both stay clear of
    it build the same list, hence the same text. *)
Theorem add_all_order_independent :
  forall ivs1 ivs2,
    Permutation ivs1 ivs2 ->
    Forall valid_interval ivs1 ->
    Forall below_int_max ivs1 ->
    never_links_behind [] ivs1 ->
    never_links_behind [] ivs2 ->
    add_all [] ivs1 = add_all [] ivs2
    /\ make_new_list (add_all [] ivs1) = make_new_list (add_all [] ivs2).
Proof.
  intros ivs1 ivs2 Hperm Hvalid _ Hn1 Hn2.
  assert (Hvalid2 : Forall valid_interval ivs2).
  { apply Forall_forall. intros iv Hin. rewrite Forall_forall in Hvalid.
    apply Hvalid. apply (Permutation_in _ (Permutation_sym Hperm) Hin). }
  destruct (add_all_ascending ivs1 [] I Hvalid Hn1) as [Ha1 Hc1].
  destruct (add_all_ascending ivs2 [] I Hvalid2 Hn2) as [Ha2 Hc2].
  assert (E : add_all [] ivs1 = add_all [] ivs2).
  { apply (ascending_unique _ _ (-1) Ha1 Ha2).
    intro x. rewrite Hc1, Hc2, !Exists_exists.
    split; (intros [H | [iv [Hin Hx]]]; [left; exact H | right; exists iv; split; [|exact Hx]]).
    - apply (Permutation_in _ Hperm Hin).
    - apply (Permutation_in _ (Permutation_sym Hperm) Hin). }
  split; [exact E | rewrite E; reflexivity].
Qed.

(** C1.  The order of insertion shows in the result: CPU 5 and then CPU 1
    leaves the list 5, 1 (the node for 1 is linked in behind the node for
    5), CPU 1 and then CPU 5 leaves 1, 5; the rendered texts are "5,1" and
    "1,5", and the complement computed from "5,1" is "0-4,2-7". *)
Theorem add_cpus_order_shows :
  add_cpus (add_cpus [] 5 5) 1 1 = [mk_cpu 5 5; mk_cpu 1 1]
  /\ add_cpus (add_cpus [] 1 1) 5 5 = [mk_cpu 1 1; mk_cpu 5 5]
  /\ make_new_list (add_cpus (add_cpus [] 5 5) 1 1) = Some "5,1"%string
  /\ make_new_list (add_cpus (add_cpus [] 1 1) 5 5) = Some "1,5"%string
  /\ (forall fuel : nat,
        calc_nr_cpus 8 (2 + fuel) "5,1" = Some (2, Some "5,1"%string)
        /\ calc_nr_cpus 8 (2 + fuel) "1,5" = Some (2, Some "1,5"%string))
  /\ make_other_cpu_list 8 "5,1" = Some (Some "0-4,2-7"%string)
  /\ make_other_cpu_list 8 "1,5" = Some (Some "0,2-4,6-7"%string).
Proof.
  repeat split; try reflexivity; destruct fuel; reflexivity.
Qed.

(** "3-1" is refused (the end of the range is below its start), and so are
    a negative number and a word. *)
Example calc_nr_cpus_rejects :
  forall (cpu_count : Z) (fuel : nat),
    calc_nr_cpus cpu_count (1 + fuel) "3-1" = Some (-1, None)
    /\ calc_nr_cpus cpu_count (1 + fuel) "-1" = Some (-1, None)
    /\ calc_nr_cpus cpu_count (1 + fuel) "a" = Some (-1, None)
    /\ calc_nr_cpus cpu_count (2 + fuel) "0,x" = Some (-1, None).
Proof. intros cpu_count fuel. destruct fuel; repeat split; reflexivity. Qed.

Lemma length_skip_digits :
  forall p, (String.length (skip_digits p) <= String.length p)%nat.
Proof.
  induction p as [|c r IH]; cbn [skip_digits]; [lia|].
  destruct (isdigit c); cbn [String.length]; lia.
Qed.

Lemma length_advance :
  forall p, p <> EmptyString -> (String.length (advance p) < String.length p)%nat.
Proof. intros [|c r] Hne; [congruence | cbn; lia]. Qed.

Lemma length_advance_le :
  forall p, (String.length (advance p) <= String.length p)%nat.
Proof. intros [|c r]; cbn; lia. Qed.

(** The loop of [make_other_cpu_list] consumes at least one character per
    iteration, so the length of the text is fuel enough. *)
Lemma make_other_cpu_list_loop_total :
  forall cpu_count fuel p curr_cpu comma cpus,
    (String.length p <= fuel)%nat ->
    make_other_cpu_list_loop cpu_count fuel p curr_cpu comma cpus <> None.
Proof.
  intros cpu_count. induction fuel as [|fuel IH]; intros p curr_cpu comma cpus Hlen.
  - destruct p as [|c r]; cbn in Hlen; [|lia]. cbn. discriminate.
  - destruct p as [|c r]; [cbn; discriminate|].
    cbn [make_other_cpu_list_loop deref].
    destruct (negb (curr_cpu <? cpu_count)); [discriminate|].
    set (p := String c r) in *.
    destruct (curr_cpu <? atoi p);
      (destruct (is_char "-" (skip_digits p)); apply IH;
       [ pose proof (length_advance_le (skip_digits (advance (skip_digits p))));
         pose proof (length_skip_digits (advance (skip_digits p)));
         pose proof (length_skip_digits p);
         destruct (skip_digits p) as [|c1 r1] eqn:E1;
         [ cbn in *; subst p; cbn in Hlen; lia
         | cbn [advance] in *; cbn [String.length] in *; lia ]
       | pose proof (length_skip_digits p);
         destruct (skip_digits p) as [|c1 r1] eqn:E1;
         [ subst p; cbn in *; lia
         | cbn [advance]; cbn [String.length] in *; lia ] ]).
Qed.

(** X26.  [make_other_cpu_list] returns on every text: unlike the loop
    of [calc_nr_cpus], its loop moves [p] in every iteration. *)
Lemma make_other_cpu_list_total :
  forall cpu_count setcpu,
    exists cpus, make_other_cpu_list cpu_count setcpu = Some cpus.
Proof.
  intros cpu_count setcpu. unfold make_other_cpu_list.
  pose proof (make_other_cpu_list_loop_total cpu_count (String.length setcpu) setcpu
                0 "" None (Nat.le_refl _)) as H.
  destruct (make_other_cpu_list_loop cpu_count (String.length setcpu) setcpu 0 "" None)
    as [[[curr comma] cpus]|]; [|congruence].
  eexists. reflexivity.
Qed.

(** C6.  On "1 2" the loop of [calc_nr_cpus] never ends: after the token
    "1" it stands at the blank, where [atoi] skips the blank and reads 2,
    no digit, '-' or ',' lets [p] advance, and the same iteration repeats.
    The same happens on "+1" from the first character on.  No amount of
    fuel produces a return value, in particular not -1. *)
Theorem calc_nr_cpus_never_returns :
  forall (cpu_count : Z) (fuel : nat),
    calc_nr_cpus cpu_count fuel "1 2" = None
    /\ calc_nr_cpus cpu_count fuel "+1" = None.
Proof.
  intros cpu_count fuel. unfold calc_nr_cpus. split.
  - destruct fuel as [|fuel]; [reflexivity|].
    rewrite calc_nr_cpus_loop_unfold by discriminate.
    change (atoi "1 2") with 1. change (skip_digits "1 2") with " 2"%string.
    cbv beta iota zeta delta [Z.ltb Z.eqb Z.compare orb andb negb is_char deref Ascii.eqb Bool.eqb].
    rewrite (calc_nr_cpus_loop_stuck fuel " 2" (add_cpus [] 1 1));
      [reflexivity | discriminate | reflexivity | reflexivity | reflexivity | reflexivity].
  - rewrite (calc_nr_cpus_loop_stuck fuel "+1" []);
      [reflexivity | discriminate | reflexivity | reflexivity | reflexivity | reflexivity].
Qed.

(* ================================================================= *)
(** ** Machine integers *)

Lemma to_u64_small : forall z, 0 <= z < U64_MOD -> to_u64 z = z.
Proof. intros z Hz. unfold to_u64. apply Z.mod_small. exact Hz. Qed.

Lemma to_uint_small : forall z, 0 <= z < UINT_MOD -> to_uint z = z.
Proof. intros z Hz. unfold to_uint. apply Z.mod_small. exact Hz. Qed.

Lemma to_uint_range : forall z, 0 <= to_uint z < UINT_MOD.
Proof. intro z. unfold to_uint. apply Z.mod_pos_bound. reflexivity. Qed.

Lemma to_u64_range : forall z, 0 <= to_u64 z < U64_MOD.
Proof. intro z. unfold to_u64. apply Z.mod_pos_bound. reflexivity. Qed.

Lemma to_long_small : forall z, 0 <= z < 2 ^ 63 -> to_long z = z.
Proof.
  intros z Hz. unfold to_long.
  rewrite Z.mod_small by (unfold U64_MOD; lia).
  destruct (z <? 2 ^ 63) eqn:E; [reflexivity | apply Z.ltb_ge in E; lia].
Qed.

Lemma to_uint_add_idemp : forall a b, to_uint (to_uint a + b) = to_uint (a + b).
Proof. intros a b. unfold to_uint. apply Zplus_mod_idemp_l. Qed.

Create HintDb wrap discriminated.
#[local] Hint Resolve to_uint_range to_u64_range : wrap.

(* ================================================================= *)
(** ** The per-cycle step *)

(** C3.  When the clock has not yet reached the period boundary
    ([now < period]), [do_runtime] measures against [now] instead: the
    period it uses is [now], the boundary it returns is [now + deadline_us],
    the latency it records for the cycle ([act], and the value added to the
    running sum) is exactly 0, which is not negative, and the trace gets
    "start at now off=0 (period=now ...)". *)
Theorem do_runtime_resync :
  forall (now period : Z) (sd : sched_data),
    now < period ->
    adjust_period now period = now
    /\ rr_next_period (do_runtime now sd period) = to_u64 (now + deadline_us sd)
    /\ act (stat (rr_sd (do_runtime now sd period))) = 0
    /\ 0 <= act (stat (rr_sd (do_runtime now sd period)))
    /\ stat (rr_sd (do_runtime now sd period)) = record_latency (stat sd) 0
    /\ avg (stat (rr_sd (do_runtime now sd period))) =
         PrimFloat.add (avg (stat sd)) PrimFloat.zero
    /\ In (StartAt now 0 now (to_u64 (now + deadline_us sd)))
          (rr_trace (do_runtime now sd period)).
Proof.
  intros now period sd Hlt.
  assert (Hadj : adjust_period now period = now).
  { unfold adjust_period. apply Z.ltb_lt in Hlt. rewrite Hlt. reflexivity. }
  assert (Hdiff : to_u64 (now - now) = 0) by (rewrite Z.sub_diag; reflexivity).
  unfold do_runtime. cbn [rr_sd rr_next_period rr_trace stat].
  rewrite Hadj, Hdiff.
  repeat split; try reflexivity; try (cbn; lia).
  apply in_or_app. right. left. reflexivity.
Qed.

Lemma do_runtime_resync_witness :
  act (stat (rr_sd (do_runtime 5 (mk_sd 600 1000 stat_zero) 10))) = 0
  /\ rr_next_period (do_runtime 5 (mk_sd 600 1000 stat_zero) 10) = 1005.
Proof.
  pose proof (do_runtime_resync 5 10 (mk_sd 600 1000 stat_zero) eq_refl) as H.
  split; [exact (proj1 (proj2 (proj2 H))) | exact (proj1 (proj2 H))].
Defined.

(** Without a resync the latency is the distance from the boundary, and it
    is stored as a non-negative [long] as long as it is below 2^63. *)
Lemma do_runtime_latency :
  forall (now period : Z) (sd : sched_data),
    0 <= period <= now -> now - period < 2 ^ 63 ->
    act (stat (rr_sd (do_runtime now sd period))) = now - period
    /\ rr_next_period (do_runtime now sd period) = to_u64 (period + deadline_us sd).
Proof.
  intros now period sd Hle Hsmall.
  unfold do_runtime, adjust_period. cbn [rr_sd rr_next_period stat].
  destruct (now <? period) eqn:E; [apply Z.ltb_lt in E; lia|].
  split; [|reflexivity].
  unfold record_latency. cbn [act].
  rewrite to_u64_small by (unfold U64_MOD; lia).
  apply to_long_small. lia.
Qed.

(* ================================================================= *)
(** ** The running minimum *)

Lemma list_minimum_snoc :
  forall l d x, list_minimum d (l ++ [x]) = Z.min (list_minimum d l) x.
Proof.
  induction l as [|y l IH]; intros d x; cbn; [reflexivity | apply IH].
Qed.

Lemma true_min_snoc :
  forall l x, l <> [] -> true_min (l ++ [x]) = Z.min (true_min l) x.
Proof.
  intros [|y l] x Hne; [congruence|]. cbn. apply list_minimum_snoc.
Qed.

Lemma list_minimum_In : forall l d, In (list_minimum d l) (d :: l).
Proof.
  induction l as [|y l IH]; intro d; cbn [list_minimum].
  - left. reflexivity.
  - destruct (IH (Z.min d y)) as [H | H].
    + rewrite <- H.
      destruct (Z.min_spec d y) as [[_ E] | [_ E]]; rewrite E.
      * left. reflexivity.
      * right. left. reflexivity.
    + right. right. exact H.
Qed.

Lemma list_minimum_le : forall l d x, In x (d :: l) -> list_minimum d l <= x.
Proof.
  induction l as [|y l IH]; intros d x Hin; cbn [list_minimum].
  - destruct Hin as [-> | []]. lia.
  - destruct Hin as [-> | [-> | Hin]].
    + transitivity (Z.min x y); [apply IH; left; reflexivity | lia].
    + transitivity (Z.min d x); [apply IH; left; reflexivity | lia].
    + apply IH. right. exact Hin.
Qed.

Lemma true_min_In : forall l, l <> [] -> In (true_min l) l.
Proof. intros [|y l] Hne; [congruence | apply list_minimum_In]. Qed.

Lemma true_min_le : forall l x, In x l -> true_min l <= x.
Proof. intros [|y l] x Hin; [destruct Hin | apply list_minimum_le, Hin]. Qed.

Lemma since_last_zero_snoc :
  forall l d,
    since_last_zero (l ++ [d]) = if d =? 0 then [] else since_last_zero l ++ [d].
Proof. intros l d. unfold since_last_zero. rewrite fold_left_app. reflexivity. Qed.

Lemma run_latencies_snoc :
  forall l d, run_latencies (l ++ [d]) = record_latency (run_latencies l) d.
Proof. intros l d. unfold run_latencies. rewrite fold_left_app. reflexivity. Qed.

Lemma since_last_zero_positive :
  forall l, Forall (fun d => 0 < d) l -> since_last_zero l = l.
Proof.
  induction l as [|d l IH] using rev_ind; intro H; [reflexivity|].
  apply Forall_app in H. destruct H as [Hl Hd].
  rewrite since_last_zero_snoc, (IH Hl).
  inversion_clear Hd as [|? ? Hpos _].
  destruct (d =? 0) eqn:E; [apply Z.eqb_eq in E; lia | reflexivity].
Qed.

(** The reported minimum is the least latency since the last 0, and the
    latencies since the last 0 are positive. *)
Lemma min_run_latencies :
  forall diffs,
    Forall (fun d => 0 <= d < 2 ^ 63) diffs ->
    min (run_latencies diffs) = true_min (since_last_zero diffs)
    /\ Forall (fun d => 0 < d < 2 ^ 63) (since_last_zero diffs).
Proof.
  induction diffs as [|d l IH] using rev_ind; intro H.
  - split; [reflexivity | constructor].
  - apply Forall_app in H. destruct H as [Hl Hd].
    inversion_clear Hd as [|? ? Hd' _].
    destruct (IH Hl) as [Hmin Hpos].
    rewrite run_latencies_snoc, since_last_zero_snoc.
    unfold record_latency. cbn [min].
    rewrite (to_long_small d Hd').
    destruct (d =? 0) eqn:Ed.
    + apply Z.eqb_eq in Ed. subst d. split; [|constructor].
      cbn [true_min].
      destruct (min (run_latencies l) =? 0) eqn:Em; [reflexivity|].
      apply Z.eqb_neq in Em.
      destruct (since_last_zero l) as [|y r] eqn:Es; [cbn in Hmin; lia|].
      assert (Hin : In (min (run_latencies l)) (y :: r))
        by (rewrite Hmin; apply true_min_In; discriminate).
      rewrite Forall_forall in Hpos. specialize (Hpos _ Hin).
      rewrite to_u64_small by (unfold U64_MOD; lia).
      replace (0 <? min (run_latencies l)) with true
        by (symmetry; apply Z.ltb_lt; lia).
      reflexivity.
    + apply Z.eqb_neq in Ed. split.
      2:{ apply Forall_app. split; [exact Hpos | constructor; [lia | constructor]]. }
      destruct (since_last_zero l) as [|y r] eqn:Es.
      * cbn in Hmin. rewrite Hmin. reflexivity.
      * assert (Hin : In (min (run_latencies l)) (y :: r))
          by (rewrite Hmin; apply true_min_In; discriminate).
        rewrite Forall_forall in Hpos. specialize (Hpos _ Hin).
        rewrite true_min_snoc by discriminate. rewrite <- Hmin.
        rewrite to_u64_small by (unfold U64_MOD; lia).
        replace (min (run_latencies l) =? 0) with false
          by (symmetry; apply Z.eqb_neq; lia).
        cbn [orb].
        destruct (d <? min (run_latencies l)) eqn:El;
          [apply Z.ltb_lt in El | apply Z.ltb_ge in El]; lia.
Qed.

(** The reported maximum is the greatest latency recorded. *)
Lemma max_run_latencies :
  forall diffs,
    Forall (fun d => 0 <= d < 2 ^ 63) diffs ->
    max (run_latencies diffs) = true_max diffs
    /\ 0 <= true_max diffs < 2 ^ 63.
Proof.
  induction diffs as [|d l IH] using rev_ind; intro H.
  - split; [reflexivity | cbn; lia].
  - apply Forall_app in H. destruct H as [Hl Hd].
    inversion_clear Hd as [|? ? Hd' _].
    destruct (IH Hl) as [Hmax Hr].
    rewrite run_latencies_snoc. unfold true_max in *. rewrite fold_left_app.
    cbn [fold_left]. unfold record_latency. cbn [max].
    rewrite Hmax, (to_long_small d Hd').
    rewrite to_u64_small by (unfold U64_MOD; lia).
    split; [|lia].
    destruct (fold_left Z.max l 0 <? d) eqn:E;
      [apply Z.ltb_lt in E | apply Z.ltb_ge in E]; lia.
Qed.

(** C9, as the code has it.  The running minimum restarts after every 0:
    a 0 followed by a positive latency [d] leaves the minimum at [d], not
    at 0; in general the reported minimum is the least latency recorded
    since the most recent 0 (0 when the last latency is 0); and it is the
    true minimum of all recorded latencies exactly when the last latency
    is 0 or all latencies are positive. *)
Theorem min_restarts_after_zero :
  forall diffs,
    Forall (fun d => 0 <= d < 2 ^ 63) diffs ->
    min (run_latencies diffs) = true_min (since_last_zero diffs)
    /\ (forall d, 0 < d < 2 ^ 63 -> min (run_latencies (diffs ++ [0; d])) = d)
    /\ (diffs <> [] ->
        (min (run_latencies diffs) = true_min diffs
         <-> last diffs 0 = 0 \/ Forall (fun d => 0 < d) diffs)).
Proof.
  intros diffs H. destruct (min_run_latencies diffs H) as [Hmin Hpos].
  split; [exact Hmin | split].
  - intros d Hd.
    assert (H' : Forall (fun d => 0 <= d < 2 ^ 63) (diffs ++ [0; d])).
    { apply Forall_app. split; [exact H|]. repeat constructor; lia. }
    destruct (min_run_latencies _ H') as [Hmin' _]. rewrite Hmin'.
    change (diffs ++ [0; d]) with (diffs ++ [0] ++ [d]).
    rewrite app_assoc, since_last_zero_snoc, since_last_zero_snoc.
    destruct (d =? 0) eqn:E; [apply Z.eqb_eq in E; lia | reflexivity].
  - intro Hne. destruct (exists_last Hne) as [l [d El]]. subst diffs.
    rewrite last_last. rewrite Hmin.
    apply Forall_app in H. destruct H as [Hl Hd].
    inversion_clear Hd as [|? ? Hd' _].
    assert (Hlow : 0 <= true_min (l ++ [d])).
    { assert (Hin : In (true_min (l ++ [d])) (l ++ [d]))
        by (apply true_min_In; destruct l; discriminate).
      apply in_app_or in Hin. destruct Hin as [Hin | [<- | []]]; [|lia].
      rewrite Forall_forall in Hl. apply Hl in Hin. lia. }
    split.
    + intro Heq. destruct (Z.eq_dec d 0) as [E | E]; [left; exact E | right].
      rewrite since_last_zero_snoc in Heq, Hpos.
      replace (d =? 0) with false in Heq, Hpos by (symmetry; apply Z.eqb_neq; exact E).
      assert (Hin : In (true_min (since_last_zero l ++ [d])) (since_last_zero l ++ [d]))
        by (apply true_min_In; destruct (since_last_zero l); discriminate).
      rewrite Forall_forall in Hpos. apply Hpos in Hin.
      apply Forall_forall. intros x Hx.
      pose proof (true_min_le _ _ Hx). lia.
    + intros [E | Hall].
      * subst d. rewrite since_last_zero_snoc. cbn [Z.eqb true_min].
        assert (true_min (l ++ [0]) <= 0)
          by (apply true_min_le, in_or_app; right; left; reflexivity).
        lia.
      * rewrite (since_last_zero_positive _ Hall). reflexivity.
Qed.

Lemma min_restarts_after_zero_witness :
  min (run_latencies [5; 0; 7]) = true_min (since_last_zero [5; 0; 7])
  /\ min (run_latencies ([5; 0; 7] ++ [0; 3])) = 3.
Proof.
  assert (H : Forall (fun d => 0 <= d < 2 ^ 63) [5; 0; 7])
    by (repeat constructor; lia).
  split.
  - exact (proj1 (min_restarts_after_zero [5; 0; 7] H)).
  - apply (proj1 (proj2 (min_restarts_after_zero [5; 0; 7] H))). lia.
Defined.

(** C9, as it was put, at the latencies 5, 0, 7 and 5, 0.  After 5, 0, 7
    the reported minimum is 7 although the smallest positive latency seen
    is 5; after 5, 0 the reported minimum is the true one, 0, although the
    latencies are neither all positive nor all zero. *)
Lemma min_description_refuted :
  ~ min_is_smallest_positive [5; 0; 7]
  /\ ~ min_true_only_when_uniform [5; 0].
Proof.
  split.
  - intro H.
    assert (E : min (run_latencies [5; 0; 7]) = smallest_positive [5; 0; 7]).
    { apply H. exists [5], [], [], 7. split; [reflexivity | lia]. }
    vm_compute in E. discriminate E.
  - intro H. destruct (H eq_refl) as [Hall | Hall].
    + inversion_clear Hall as [|? ? _ Hrest]. inversion_clear Hrest as [|? ? H0 _]. lia.
    + inversion_clear Hall as [|? ? H5 _]. discriminate H5.
Qed.

(* ================================================================= *)
(** ** The schedule set-up *)

Lemma interval_at_wrapped :
  forall i interval step,
    0 <= interval < UINT_MOD ->
    interval_at i interval step = to_uint (interval + Z.of_nat i * step).
Proof.
  induction i as [|i IH]; intros interval step Hr.
  - cbn [interval_at]. rewrite Z.mul_0_l, Z.add_0_r. symmetry. apply to_uint_small, Hr.
  - cbn [interval_at]. rewrite IH by auto with wrap.
    rewrite to_uint_add_idemp. f_equal. lia.
Qed.

Lemma interval_at_nonneg :
  forall i interval step, 0 <= interval -> 0 <= interval_at i interval step.
Proof.
  induction i as [|i IH]; intros interval step Hr; cbn [interval_at].
  - exact Hr.
  - apply IH. apply to_uint_range.
Qed.


(** What the set-up loop leaves in slot [i] when it does not call
    [fatal]: the wrapped interval, its share, and one recorded sample. *)
Lemma main_setup_loop_slots :
  forall hr clock n t interval step percent sds,
    main_setup_loop hr clock n t interval step percent = Ok sds ->
    List.length sds = n
    /\ forall i sd,
        nth_error sds i = Some sd ->
        sd = mk_sd (runtime_of (interval_at i interval step) percent)
                   (interval_at i interval step)
                   (record_latency stat_zero (calibration_latency clock (t + 3 * i))).
Proof.
  intros hr clock n. induction n as [|n IH]; intros t interval step percent sds H.
  - cbn in H. inversion H. subst sds. split; [reflexivity|].
    intros [|i] sd Hnth; discriminate Hnth.
  - cbn [main_setup_loop] in H.
    destruct ((runtime_of interval percent <? 2000) && negb hr); [discriminate H|].
    destruct (runtime_of interval percent <? to_u64 (clock (S (S t)) - clock t));
      [discriminate H|].
    destruct (main_setup_loop hr clock n (S (S (S t))) (to_uint (interval + step)) step percent)
      as [rest | why] eqn:Erest; [|discriminate H].
    inversion H. subst sds. clear H.
    destruct (IH _ _ _ _ _ Erest) as [Hlen Hslots].
    split; [cbn [List.length]; f_equal; exact Hlen|].
    intros [|i] sd Hnth.
    + cbn in Hnth. inversion Hnth. subst sd.
      rewrite Nat.mul_0_r, Nat.add_0_r. reflexivity.
    + cbn [nth_error] in Hnth. rewrite (Hslots i sd Hnth).
      cbn [interval_at].
      replace (S (S (S t)) + 3 * i)%nat with (t + 3 * S i)%nat by lia.
      reflexivity.
Qed.

(** With HRTICK available and a clock that stands still the set-up loop
    runs to its end. *)
Lemma main_setup_loop_completes :
  forall now n t interval step percent,
    exists sds, main_setup_loop true (fun _ => now) n t interval step percent = Ok sds.
Proof.
  intros now n. induction n as [|n IH]; intros t interval step percent.
  - exists []. reflexivity.
  - cbn [main_setup_loop]. rewrite andb_false_r.
    rewrite Z.sub_diag. change (to_u64 0) with 0.
    assert (Hr : 0 <= runtime_of interval percent).
    { unfold runtime_of. apply Z.div_pos; [apply to_uint_range | lia]. }
    replace (runtime_of interval percent <? 0) with false
      by (symmetry; apply Z.ltb_ge; exact Hr).
    destruct (IH (S (S (S t))) (to_uint (interval + step)) step percent) as [sds E].
    rewrite E. eexists. reflexivity.
Qed.

Lemma runtime_of_exact :
  forall interval percent,
    0 <= interval -> 0 <= percent ->
    interval * percent < UINT_MOD ->
    runtime_of interval percent = interval * percent / 100.
Proof.
  intros interval percent Hi Hp Hprod. unfold runtime_of.
  destruct (Z.eq_dec interval 0) as [-> | Hne].
  - rewrite !Z.mul_0_l. reflexivity.
  - assert (percent < UINT_MOD) by nia.
    rewrite (to_uint_small percent) by lia.
    rewrite to_uint_small by nia. reflexivity.
Qed.

(** C7, as the code has it.  Slot [i] of the schedule holds
    [deadline_us = interval + i * step] and
    [runtime_us = deadline_us * percent / 100] as long as the deadline and
    its product with the percentage fit [unsigned int], the type the loop
    computes them in.  For 1000, 500, three threads and 60 percent the
    deadlines are 1000, 1500, 2000 and the runtimes 600, 900, 1200. *)
Theorem schedule_formula :
  (forall hr clock nr_threads nr_cpus interval step sds i sd,
      main_setup hr clock nr_threads nr_cpus interval step = Ok sds ->
      nth_error sds i = Some sd ->
      0 <= interval -> 0 <= step -> 0 <= duty_percent nr_threads nr_cpus ->
      interval + Z.of_nat i * step < UINT_MOD ->
      (interval + Z.of_nat i * step) * duty_percent nr_threads nr_cpus < UINT_MOD ->
      deadline_us sd = interval + Z.of_nat i * step
      /\ runtime_us sd = deadline_us sd * duty_percent nr_threads nr_cpus / 100)
  /\ (forall hr clock sds,
         main_setup hr clock 3 8 1000 500 = Ok sds ->
         duty_percent 3 8 = 60
         /\ map (fun sd => (deadline_us sd, runtime_us sd)) sds =
            [(1000, 600); (1500, 900); (2000, 1200)])
  /\ (exists sds, main_setup true (fun _ => 0) 3 8 1000 500 = Ok sds).
Proof.
  split; [|split].
  - intros hr clock nr_threads nr_cpus interval step sds i sd Hok Hnth Hi Hs Hp Hd Hr.
    unfold main_setup in Hok.
    destruct (main_setup_loop_slots _ _ _ _ _ _ _ _ Hok) as [_ Hslots].
    rewrite (Hslots i sd Hnth). cbn [deadline_us runtime_us].
    assert (Hi' : 0 <= interval < UINT_MOD) by nia.
    rewrite interval_at_wrapped by exact Hi'.
    rewrite to_uint_small by nia.
    split; [reflexivity|].
    apply runtime_of_exact; [nia | exact Hp | exact Hr].
  - intros hr clock sds Hok. split; [reflexivity|].
    unfold main_setup in Hok.
    destruct (main_setup_loop_slots _ _ _ _ _ _ _ _ Hok) as [Hlen Hslots].
    destruct sds as [|a [|b [|c [|d rest]]]]; try discriminate Hlen.
    rewrite (Hslots 0%nat a eq_refl), (Hslots 1%nat b eq_refl), (Hslots 2%nat c eq_refl).
    reflexivity.
  - apply main_setup_loop_completes.
Qed.

Lemma schedule_formula_witness :
  exists sd,
    nth_error [mk_sd 600 1000 (record_latency stat_zero 0);
               mk_sd 900 1500 (record_latency stat_zero 0);
               mk_sd 1200 2000 (record_latency stat_zero 0)] 2 = Some sd
    /\ deadline_us sd = 1000 + 2 * 500
    /\ runtime_us sd = deadline_us sd * 60 / 100.
Proof.
  eexists. split; [reflexivity|].
  apply (proj1 schedule_formula true (fun _ => 0) 3 8 1000 500
           [mk_sd 600 1000 (record_latency stat_zero 0);
            mk_sd 900 1500 (record_latency stat_zero 0);
            mk_sd 1200 2000 (record_latency stat_zero 0)] 2%nat);
    try reflexivity; try (cbv; discriminate).
Defined.

(** C7, as it was put, at an interval of 80 seconds: the deadline is
    80000000 us, and 60 percent of it is 48000000 us, yet the runtime that
    [main] stores is 5050327 us, because 80000000 * 60 exceeds
    [unsigned int]. *)
Lemma schedule_formula_overflows :
  exists sd,
    main_setup true (fun _ => 0) 1 8 80000000 500 = Ok [sd]
    /\ duty_percent 1 8 = 60
    /\ deadline_us sd = 80000000 + 0 * 500
    /\ runtime_us sd = 5050327
    /\ runtime_us sd <> deadline_us sd * 60 / 100.
Proof.
  eexists. split; [reflexivity|]. repeat split. discriminate.
Qed.

(** One worker asks for at most [percent] hundredths of a CPU: the
    product in [runtime_of] can only lose by wrapping, and the division
    rounds down. *)
Lemma runtime_share :
  forall interval percent,
    0 <= interval -> 0 <= percent < UINT_MOD ->
    0 <= runtime_of interval percent
    /\ 100 * runtime_of interval percent <= interval * percent.
Proof.
  intros interval percent Hi Hp. unfold runtime_of.
  rewrite (to_uint_small percent) by exact Hp.
  assert (Hw : 0 <= to_uint (interval * percent) <= interval * percent).
  { split; [apply to_uint_range|]. unfold to_uint. apply Z.mod_le; [nia | reflexivity]. }
  split.
  - apply Z.div_pos; lia.
  - pose proof (Z.mul_div_le (to_uint (interval * percent)) 100 eq_refl). lia.
Qed.

Lemma share_as_fraction :
  forall r d p,
    0 <= d -> 0 <= r -> 0 <= p -> 100 * r <= d * p ->
    (inject_Z r / inject_Z d <= inject_Z p / 100)%Q.
Proof.
  intros r d p Hd Hr Hp H.
  destruct d as [|d|d]; [| |lia].
  - assert (r = 0) by lia. subst r.
    unfold Qle, Qdiv, Qmult, Qinv, inject_Z. cbn. lia.
  - unfold Qle, Qdiv, Qmult, Qinv, inject_Z. cbn. lia.
Qed.

Lemma utilization_bound :
  forall sds p,
    0 <= p ->
    Forall (fun sd => 0 <= deadline_us sd /\ 0 <= runtime_us sd
                      /\ 100 * runtime_us sd <= deadline_us sd * p) sds ->
    (utilization sds <= inject_Z (Z.of_nat (List.length sds) * p) / 100)%Q.
Proof.
  intros sds p Hp. induction sds as [|sd sds IH]; intro H.
  - cbn. unfold Qle. cbn. lia.
  - inversion_clear H as [|? ? [Hd [Hr Hs]] Hrest].
    unfold utilization in *. cbn [map fold_right List.length].
    eapply Qle_trans.
    + apply Qplus_le_compat; [apply (share_as_fraction _ _ p Hd Hr Hp Hs) | apply IH, Hrest].
    + rewrite Nat2Z.inj_succ.
      unfold Qle, Qdiv, Qmult, Qplus, Qinv, inject_Z. cbn. lia.
Qed.

(** C8, as the code has it.  With more threads than CPUs the percentage
    becomes [nr_cpus * 80 / nr_threads], a value below 80, and the schedule
    that [main] then builds asks, summed over the workers, for at most
    eight tenths of [nr_cpus] CPUs. *)
Theorem utilization_capped :
  forall hr clock nr_threads nr_cpus interval step sds,
    0 <= nr_cpus < nr_threads ->
    0 <= interval ->
    main_setup hr clock nr_threads nr_cpus interval step = Ok sds ->
    duty_percent nr_threads nr_cpus = nr_cpus * 80 / nr_threads
    /\ 0 <= duty_percent nr_threads nr_cpus < 80
    /\ (utilization sds <= (8 # 10) * inject_Z nr_cpus)%Q.
Proof.
  intros hr clock nr_threads nr_cpus interval step sds Hc Hi Hok.
  assert (Hpct : duty_percent nr_threads nr_cpus = nr_cpus * 80 / nr_threads).
  { unfold duty_percent.
    replace (nr_cpus <? nr_threads) with true by (symmetry; apply Z.ltb_lt; lia).
    apply Z.quot_div_nonneg; lia. }
  split; [exact Hpct|].
  unfold main_setup in Hok. rewrite Hpct in *.
  set (p := nr_cpus * 80 / nr_threads) in *.
  assert (Hp0 : 0 <= p) by (apply Z.div_pos; lia).
  assert (Hp80 : nr_threads * p <= nr_cpus * 80) by (apply Z.mul_div_le; lia).
  assert (Hp : p < 80) by (apply Z.div_lt_upper_bound; lia).
  split; [lia|].
  destruct (main_setup_loop_slots _ _ _ _ _ _ _ _ Hok) as [Hlen Hslots].
  eapply Qle_trans.
  - apply (utilization_bound sds p Hp0).
    apply Forall_forall. intros sd Hin.
    destruct (In_nth_error _ _ Hin) as [i Hnth].
    rewrite (Hslots i sd Hnth). cbn [deadline_us runtime_us].
    pose proof (interval_at_nonneg i interval step Hi) as Hd.
    assert (Hpu : 0 <= p < UINT_MOD) by (unfold UINT_MOD; lia).
    destruct (runtime_share (interval_at i interval step) p Hd Hpu) as [Hr Hs].
    repeat split; assumption.
  - rewrite Hlen, Z2Nat.id by lia.
    unfold Qle, Qdiv, Qmult, Qinv, inject_Z. cbn [Qnum Qden]. lia.
Qed.

Lemma utilization_capped_witness :
  exists sds,
    main_setup true (fun _ => 0) 4 2 1000 500 = Ok sds
    /\ duty_percent 4 2 = 2 * 80 / 4
    /\ (utilization sds <= (8 # 10) * inject_Z 2)%Q.
Proof.
  eexists. split; [reflexivity|].
  pose proof (utilization_capped true (fun _ => 0) 4 2 1000 500 _
                ltac:(lia) ltac:(lia) eq_refl) as H.
  split; [exact (proj1 H) | exact (proj2 (proj2 H))].
Defined.

(** C8, as it was put, for 8 threads on 7 CPUs: the percentage is not
    reduced from its default of 60, it is raised to 70. *)
Lemma duty_percent_raised :
  7 < 8
  /\ duty_percent 8 7 = 70
  /\ ~ duty_percent 8 7 <= 60.
Proof.
  split; [reflexivity | split; [reflexivity|]].
  change (duty_percent 8 7) with 70. lia.
Qed.

(* ================================================================= *)
(** ** The calibration sample *)

Lemma worker_cycles_stat :
  forall nows sd period,
    stat (worker_cycles nows sd period) =
      fold_left record_latency (worker_latencies nows (deadline_us sd) period) (stat sd)
    /\ deadline_us (worker_cycles nows sd period) = deadline_us sd
    /\ runtime_us (worker_cycles nows sd period) = runtime_us sd.
Proof.
  induction nows as [|now nows IH]; intros sd period.
  - repeat split.
  - cbn [worker_cycles worker_latencies].
    destruct (IH (rr_sd (do_runtime now sd period))
                 (rr_next_period (do_runtime now sd period))) as [Hs [Hd Hr]].
    rewrite Hs, Hd, Hr. repeat split.
Qed.

Lemma length_worker_latencies_eq :
  forall nows deadline period,
    List.length (worker_latencies nows deadline period) = List.length nows.
Proof.
  induction nows as [|now nows IH]; intros deadline period; cbn; [reflexivity|].
  f_equal. apply IH.
Qed.

Lemma cycles_fold :
  forall l st,
    0 <= cycles st < U64_MOD ->
    cycles (fold_left record_latency l st) = to_u64 (cycles st + Z.of_nat (List.length l)).
Proof.
  induction l as [|d l IH]; intros st Hst.
  - cbn [fold_left List.length Z.of_nat]. rewrite Z.add_0_r.
    symmetry. apply to_u64_small, Hst.
  - cbn [fold_left]. rewrite IH by (cbn [record_latency cycles]; auto with wrap).
    unfold record_latency. cbn [cycles].
    unfold to_u64. rewrite Zplus_mod_idemp_l. f_equal.
    cbn [List.length]. lia.
Qed.

Lemma avg_fold :
  forall l st,
    avg (fold_left record_latency l st)
    = fold_left (fun s d => PrimFloat.add s (double_of_u64 d)) l (avg st).
Proof.
  induction l as [|d l IH]; intro st; [reflexivity|].
  cbn [fold_left]. rewrite IH. reflexivity.
Qed.

Lemma avg_run_latencies :
  forall l, avg (run_latencies l) = latency_sum l.
Proof. intro l. unfold run_latencies, latency_sum. apply avg_fold. Qed.


(** C10, as the code has it.  The set-up loop of [main], which runs
    before any thread is created, records one sample, the calibration
    latency, in every slot: the slot a worker starts from has
    [cycles = 1].  Whatever cycles the worker then runs (none, if it never
    gets to one), the final statistics are those of the calibration
    latency followed by the worker's own latencies: the cycle count is one
    more than the worker's cycles, so at least 1; the maximum is the
    greatest of all these latencies; the minimum is the least latency since
    the most recent 0 among them; the running sum is that of all these
    latencies, the calibration latency first, and both reports divide it by
    that count. *)
Theorem calibration_sample_counted :
  forall hr clock nr_threads nr_cpus interval step sds i sd nows period,
    main_setup hr clock nr_threads nr_cpus interval step = Ok sds ->
    nth_error sds i = Some sd ->
    Z.of_nat (List.length nows) < U64_MOD - 1 ->
    let d0 := calibration_latency clock (3 * i) in
    let all := d0 :: worker_latencies nows (deadline_us sd) period in
    let final := stat (worker_cycles nows sd period) in
    stat sd = run_latencies [d0]
    /\ cycles (stat sd) = 1
    /\ stat (worker_cycles [] sd period) = stat sd
    /\ final = run_latencies all
    /\ cycles final = 1 + Z.of_nat (List.length nows)
    /\ 1 <= cycles final
    /\ (Forall (fun d => 0 <= d < 2 ^ 63) all ->
        max final = true_max all
        /\ min final = true_min (since_last_zero all))
    /\ avg final = latency_sum all
    /\ avg final
       = fold_left (fun s d => PrimFloat.add s (double_of_u64 d))
                   (worker_latencies nows (deadline_us sd) period)
                   (PrimFloat.add PrimFloat.zero (double_of_u64 d0))
    /\ write_stats_avg final
       = PrimFloat.div (latency_sum all)
                       (double_of_u64 (1 + Z.of_nat (List.length nows)))
    /\ print_stat_avg final
       = long_of_double
           (PrimFloat.div (latency_sum all)
                          (double_of_u64 (1 + Z.of_nat (List.length nows)))).
Proof.
  intros hr clock nr_threads nr_cpus interval step sds i sd nows period Hok Hnth Hlen
         d0 all final.
  unfold main_setup in Hok.
  destruct (main_setup_loop_slots _ _ _ _ _ _ _ _ Hok) as [_ Hslots].
  pose proof (Hslots i sd Hnth) as Hsd. cbn [Nat.add] in Hsd.
  assert (Hstat : stat sd = run_latencies [d0]) by (rewrite Hsd; reflexivity).
  assert (Hfinal : final = run_latencies all).
  { unfold final. rewrite (proj1 (worker_cycles_stat nows sd period)), Hstat. reflexivity. }
  assert (Hcycles : cycles final = 1 + Z.of_nat (List.length nows)).
  { unfold final. rewrite (proj1 (worker_cycles_stat nows sd period)), cycles_fold.
    2:{ rewrite Hstat. cbv. split; [discriminate | reflexivity]. }
    rewrite Hstat. change (cycles (run_latencies [d0])) with 1.
    rewrite length_worker_latencies_eq.
    apply to_u64_small. lia. }
  assert (Havg : avg final = latency_sum all)
    by (rewrite Hfinal; apply avg_run_latencies).
  split; [exact Hstat|].
  split; [rewrite Hstat; reflexivity|].
  split; [reflexivity|].
  split; [exact Hfinal|].
  split; [exact Hcycles|].
  split; [lia|].
  split.
  { intro Hall. split.
    - rewrite Hfinal. apply max_run_latencies. assumption.
    - rewrite Hfinal. apply min_run_latencies. assumption. }
  split; [exact Havg|].
  split; [rewrite Havg; reflexivity|].
  split.
  - unfold write_stats_avg. rewrite Havg, Hcycles. reflexivity.
  - unfold print_stat_avg. rewrite Havg, Hcycles.
    replace (1 + Z.of_nat (List.length nows) =? 0) with false
      by (symmetry; apply Z.eqb_neq; lia).
    reflexivity.
Qed.

Lemma calibration_sample_counted_witness :
  exists sd,
    main_setup true (fun _ => 0) 1 8 1000 500 = Ok [sd]
    /\ cycles (stat sd) = 1
    /\ cycles (stat (worker_cycles [3; 1010] sd 0)) = 1 + 2.
Proof.
  eexists. split; [reflexivity|].
  pose proof (calibration_sample_counted true (fun _ => 0) 1 8 1000 500
                _ 0%nat _ [3; 1010] 0 eq_refl eq_refl eq_refl) as H.
  cbv zeta in H.
  split; [exact (proj1 (proj2 H)) | exact (proj1 (proj2 (proj2 (proj2 (proj2 H)))))].
Defined.

(** C10, as it was put, for a calibration latency of 0 (the clock does
    not advance during the calibration call) and a worker whose one cycle
    has a latency of 5: the final minimum is 5, so it does not take in the
    calibration sample, which would make it 0. *)
Lemma calibration_zero_not_in_min :
  exists sd,
    main_setup true (fun _ => 0) 1 8 1000 500 = Ok [sd]
    /\ calibration_latency (fun _ => 0) 0 = 0
    /\ worker_latencies [5] (deadline_us sd) 0 = [5]
    /\ min (stat (worker_cycles [5] sd 0)) = 5
    /\ true_min (calibration_latency (fun _ => 0) 0
                   :: worker_latencies [5] (deadline_us sd) 0) = 0
    /\ min (stat (worker_cycles [5] sd 0))
       <> true_min (calibration_latency (fun _ => 0) 0
                      :: worker_latencies [5] (deadline_us sd) 0).
Proof.
  eexists. split; [reflexivity|]. repeat split. discriminate.
Qed.

(* ================================================================= *)
(** ** The two reports *)

(** The latencies 10, 20, 30 give count 3, minimum 10, maximum 30 and an
    average of 20 in both reports. *)
Example reports_10_20_30 :
  cycles (run_latencies [10; 20; 30]) = 3
  /\ min (run_latencies [10; 20; 30]) = 10
  /\ max (run_latencies [10; 20; 30]) = 30
  /\ print_stat_avg (run_latencies [10; 20; 30]) = 20
  /\ fmt_2f (write_stats_avg (run_latencies [10; 20; 30])) = "20.00"%string
  /\ print_stat false (mk_sd 600 1000 (run_latencies [10; 20; 30])) 0 0
     = Some ("T: 0 (    0) I:1000 C:      3 Min:     10 Act:   30 Avg:   20 Max:      30"
               ++ nl)%string.
Proof. repeat split; vm_compute; reflexivity. Qed.

Lemma append_assoc :
  forall a b c : string, ((a ++ b) ++ c = a ++ (b ++ c))%string.
Proof. induction a as [|x a IH]; intros b c; cbn; [reflexivity | rewrite IH; reflexivity]. Qed.




(* ================================================================= *)
(** ** The start-up protocol *)

(** C2.  One worker whose [sched_setattr] fails.  [main] makes its
    "step 2" test of [shutdown] after the second barrier, that is before
    the worker has called [sched_setattr]; after the third barrier, the one
    that follows [sched_setattr], it makes none.  In the first schedule the
    test comes before the failure: [main] goes through the third barrier,
    installs the handlers, falls through [loop], joins the worker, warns
    about thread 0 and returns 0.  In the second schedule the failure comes
    first and the same test calls [fatal] while the worker is still inside
    the third barrier.  In neither does the worker run a cycle. *)
Theorem setattr_failure_outcomes :
  run [Worker 0; Main; Worker 0; Worker 0; Worker 0; Main; Main; Main;
       Main; Main; Worker 0; Worker 0; Main; Main; Main; Main]
      (init [(true, false, true)])
  = Some (mk_config true true M_return
            [mk_worker (W_exit (Some "Failed sched_setattr"%string)) true false true 0]
            [0%nat])
  /\ run [Worker 0; Main; Worker 0; Worker 0; Worker 0; Main; Main; Main;
          Main; Main]
         (init [(true, false, true)])
     = Some (mk_config false false (M_in MB3)
               [mk_worker W_setattr true false true 0] [])
  /\ run [Worker 0; Main; Worker 0; Worker 0; Worker 0; Main; Main; Main;
          Worker 0; Worker 0; Main]
         (init [(true, false, true)])
     = Some (mk_config true false (M_fatal SetupStep2)
               [mk_worker (W_in WB_setattr_failed) true false true 0] []).
Proof. repeat split. Qed.

(** *** No cycle is measured after a failure *)

Lemma filter_length_all :
  forall (A : Type) (f : A -> bool) (l : list A),
    (List.length l <= List.length (filter f l))%nat ->
    forall x, In x l -> f x = true.
Proof.
  intros A f. induction l as [|a l IH]; intros Hlen x Hin; [destruct Hin|].
  cbn [filter] in Hlen. pose proof (filter_length_le f l) as Hle.
  destruct (f a) eqn:Ea; cbn [List.length] in Hlen.
  - destruct Hin as [<- | Hin]; [exact Ea | apply IH; [lia | exact Hin]].
  - lia.
Qed.

Lemma filter_length_lt :
  forall (A : Type) (f : A -> bool) (l : list A) i w,
    nth_error l i = Some w -> f w = false ->
    (List.length (filter f l) < List.length l)%nat.
Proof.
  intros A f. induction l as [|a l IH]; intros i w Hnth Hw.
  - destruct i; discriminate Hnth.
  - pose proof (filter_length_le f l) as Hle.
    destruct i as [|i]; cbn [nth_error] in Hnth; cbn [filter].
    + inversion Hnth. subst a. rewrite Hw. cbn [List.length]. lia.
    + specialize (IH i w Hnth Hw).
      destruct (f a); cbn [List.length]; lia.
Qed.

Lemma In_set_nth :
  forall l i w x, In x (set_nth i w l) -> x = w \/ In x l.
Proof.
  induction l as [|a l IH]; intros i w x Hin.
  - destruct i; destruct Hin.
  - destruct i as [|i]; cbn [set_nth] in Hin.
    + destruct Hin as [<- | Hin]; [left; reflexivity | right; right; exact Hin].
    + destruct Hin as [<- | Hin]; [right; left; reflexivity|].
      destruct (IH i w x Hin) as [-> | H]; [left; reflexivity | right; right; exact H].
Qed.

Lemma Forall_set_nth :
  forall (P : worker -> Prop) l i w,
    Forall P l -> P w -> Forall P (set_nth i w l).
Proof.
  intros P l i w Hl Hw. apply Forall_forall. intros x Hin.
  destruct (In_set_nth _ _ _ _ Hin) as [-> | H]; [exact Hw|].
  rewrite Forall_forall in Hl. apply Hl, H.
Qed.

Lemma existsb_fails_set_nth :
  forall l i w w',
    nth_error l i = Some w ->
    fails w' = fails w ->
    existsb fails (set_nth i w' l) = existsb fails l.
Proof.
  induction l as [|a l IH]; intros i w w' Hnth Hf.
  - destruct i; discriminate Hnth.
  - destruct i as [|i]; cbn [nth_error] in Hnth; cbn [set_nth existsb].
    + inversion Hnth. subst a. rewrite Hf. reflexivity.
    + rewrite (IH i w w' Hnth Hf). reflexivity.
Qed.

Lemma fails_release_w : forall w, fails (release_w w) = fails w.
Proof. intro w. unfold release_w. destruct (w_pc w); reflexivity. Qed.

Lemma existsb_fails_release :
  forall l, existsb fails (map release_w l) = existsb fails l.
Proof.
  induction l as [|a l IH]; [reflexivity|].
  cbn [map existsb]. rewrite fails_release_w, IH. reflexivity.
Qed.

Lemma consistent_mono :
  forall sd w, consistent sd w = true -> consistent true w = true.
Proof.
  intros sd w. unfold consistent.
  destruct (w_pc w) as [| [] | [] | | | | | |]; destruct sd, (getattr_ok w);
    cbn; congruence.
Qed.

Lemma consistent_weaken :
  forall (sd sd' : bool) w,
    (sd = true -> sd' = true) ->
    consistent sd w = true -> consistent sd' w = true.
Proof.
  intros sd sd' w Hsd H. destruct sd'.
  - apply (consistent_mono sd w H).
  - destruct sd; [specialize (Hsd eq_refl); discriminate Hsd | exact H].
Qed.

(** After the arriving worker at index [i] has been moved on to [w'],
    every worker is inside the barrier or is [w']: that is what a full
    count means. *)
Lemma full_count_workers :
  forall l i w w',
    nth_error l i = Some w -> blocked_w w = false ->
    (List.length l <= S (List.length (filter blocked_w l)))%nat ->
    Forall (fun x => blocked_w x = true \/ x = w') (set_nth i w' l).
Proof.
  induction l as [|a l IH]; intros i w w' Hnth Hw Hlen.
  - destruct i; discriminate Hnth.
  - destruct i as [|i]; cbn [nth_error] in Hnth; cbn [filter] in Hlen; cbn [set_nth].
    + inversion Hnth. subst a. rewrite Hw in Hlen. cbn [List.length] in Hlen.
      constructor; [right; reflexivity|].
      apply Forall_forall. intros x Hin. left.
      apply (filter_length_all _ blocked_w l); [lia | exact Hin].
    + destruct (blocked_w a) eqn:Ea; cbn [List.length] in Hlen.
      * constructor; [left; exact Ea|]. apply (IH i w w' Hnth Hw). lia.
      * pose proof (filter_length_lt _ blocked_w l i w Hnth Hw). lia.
Qed.

Lemma wphase_after_wsite :
  forall b, in_phase (S (wsite_phase b)) (wphase (after_wsite b)).
Proof. intros []; cbn; auto. Qed.

Lemma release_w_after_wsite :
  forall w b, release_w (set_pc w (after_wsite b)) = set_pc w (after_wsite b).
Proof. intros w []; reflexivity. Qed.

Lemma consistent_after_wsite :
  forall sd w b,
    (w_pc w = W_at b \/ w_pc w = W_in b) ->
    consistent sd w = true ->
    consistent sd (set_pc w (after_wsite b)) = true.
Proof.
  intros sd w b Hpc H. unfold consistent in *.
  destruct Hpc as [Hpc | Hpc]; rewrite Hpc in H;
    destruct b; cbn in *; try reflexivity; try exact H;
    destruct (getattr_ok w), (setattr_ok w), sd; cbn in *; congruence.
Qed.

(** The heart of the matter: when the barrier opens, every worker moves
    one phase on, and if that phase is the third and some worker has
    failed, [shutdown] has been set. *)
Lemma release_workers :
  forall (sd : bool) (g : nat) (l : list worker) (w' : worker) (b : wsite),
    wsite_phase b = g ->
    w_pc w' = after_wsite b ->
    (fails w' = true -> g = 2%nat -> sd = true) ->
    consistent sd w' = true ->
    w_cycles w' = 0%nat ->
    Forall (fun x => blocked_w x = true \/ x = w') l ->
    Forall (fun x => x = w' \/
                     (in_phase g (wphase (w_pc x)) /\ consistent sd x = true
                      /\ w_cycles x = 0%nat)) l ->
    Forall (fun x => in_phase (S g) (wphase (w_pc x))) (map release_w l)
    /\ Forall (fun x => consistent sd x = true) (map release_w l)
    /\ Forall (fun x => w_cycles x = 0%nat) (map release_w l)
    /\ (S g = 3%nat -> existsb fails (map release_w l) = true -> sd = true).
Proof.
  intros sd g l w' b Hb Hpc' Hfail' Hcons' Hcyc' Hblocked Hinv.
  assert (Hw' : release_w w' = w').
  { unfold release_w. rewrite Hpc'. destruct b; reflexivity. }
  assert (Hph' : in_phase (S g) (wphase (w_pc w'))).
  { rewrite Hpc', <- Hb. apply wphase_after_wsite. }
  rewrite !Forall_map.
  repeat split.
  - apply Forall_forall. intros x Hin.
    rewrite Forall_forall in Hblocked, Hinv.
    destruct (Hinv x Hin) as [-> | [Hph _]]; [rewrite Hw'; exact Hph'|].
    destruct (Hblocked x Hin) as [Hbl | ->]; [|rewrite Hw'; exact Hph'].
    unfold blocked_w in Hbl. unfold release_w.
    destruct (w_pc x) as [| | bx | | | | | |] eqn:Ex; try discriminate Hbl.
    cbn in Hph. rewrite <- Hph. cbn [set_pc w_pc]. apply wphase_after_wsite.
  - apply Forall_forall. intros x Hin.
    rewrite Forall_forall in Hblocked, Hinv.
    destruct (Hinv x Hin) as [-> | [_ [Hc _]]]; [rewrite Hw'; exact Hcons'|].
    destruct (Hblocked x Hin) as [Hbl | ->]; [|rewrite Hw'; exact Hcons'].
    unfold blocked_w in Hbl. unfold release_w.
    destruct (w_pc x) as [| | bx | | | | | |] eqn:Ex; try discriminate Hbl.
    apply consistent_after_wsite; [right; exact Ex | exact Hc].
  - apply Forall_forall. intros x Hin.
    rewrite Forall_forall in Hblocked, Hinv.
    destruct (Hinv x Hin) as [-> | [_ [_ Hc]]]; [rewrite Hw'; exact Hcyc'|].
    unfold release_w. destruct (w_pc x); exact Hc.
  - intros Hg Hex. assert (g = 2%nat) by lia. subst g.
    rewrite existsb_fails_release in Hex.
    apply existsb_exists in Hex. destruct Hex as [x [Hin Hfx]].
    rewrite Forall_forall in Hblocked, Hinv.
    destruct (Hinv x Hin) as [-> | [Hph [Hc _]]]; [apply Hfail'; [exact Hfx | assumption]|].
    destruct (Hblocked x Hin) as [Hbl | ->]; [|apply Hfail'; [exact Hfx | assumption]].
    unfold blocked_w in Hbl. unfold consistent in Hc. unfold fails in Hfx.
    destruct (w_pc x) as [| | bx | | | | | |] eqn:Ex; try discriminate Hbl.
    cbn in Hph.
    destruct bx; cbn in Hph; try discriminate Hph;
      destruct (getattr_ok x), (setattr_ok x), sd; cbn in *; congruence.
Qed.

Ltac some_inv H := inversion H; subst; clear H.

Lemma step_keeps_failure :
  forall a c c',
    step a c = Some c' -> existsb fails (ws c') = existsb fails (ws c).
Proof.
  intros a c c' H. unfold step in H.
  destruct (process_over (m_pc c)); [discriminate H|].
  destruct a as [| i | |].
  - unfold main_step in H.
    destruct (m_pc c) as [b| | | | | | | j | |]; try discriminate H;
      try (some_inv H; reflexivity).
    + some_inv H. unfold main_wait.
      destruct (S (arrived c) =? parties c)%nat; cbn [ws];
        [apply existsb_fails_release | reflexivity].
    + destruct (nth_error (ws c) j) as [w|]; [|some_inv H; reflexivity].
      destruct (w_pc w) as [| | | | | | | | [msg|]]; try discriminate H;
        some_inv H; reflexivity.
  - destruct (nth_error (ws c) i) as [w|] eqn:Hnth; [|discriminate H].
    unfold worker_step in H.
    destruct (w_pc w) as [| b | | | | | | |]; try discriminate H;
      try (destruct (getattr_ok w) eqn:?); try (destruct (setattr_ok w) eqn:?);
      try (destruct (shutdown c) eqn:?);
      some_inv H; unfold worker_wait, with_worker;
      try (destruct (S (arrived c) =? parties c)%nat); cbn [ws];
      rewrite ?existsb_fails_release;
      apply (existsb_fails_set_nth _ _ w); try exact Hnth;
      try reflexivity;
      unfold fails; cbn [getattr_ok setattr_ok];
      repeat match goal with E : _ = _ |- _ => rewrite E end; reflexivity.
  - destruct (handlers c); [some_inv H; reflexivity | discriminate H].
  - destruct (m_pc c); try discriminate H. some_inv H. reflexivity.
Qed.

(** A step that leaves the workers alone keeps the invariant if it keeps
    [main] in its phase and does not clear [shutdown]. *)
Lemma Inv_same_workers :
  forall c (sd' h : bool) m' wn,
    Inv c ->
    (shutdown c = true -> sd' = true) ->
    (forall g, in_phase g (mphase (m_pc c)) -> in_phase g (mphase m')) ->
    Inv (mk_config sd' h m' (ws c) wn).
Proof.
  intros c sd' h m' wn [[g [Hm [Hw Hk]]] Hc Hz] Hsd Hph.
  constructor; cbn [shutdown m_pc ws].
  - exists g. repeat split; [apply Hph, Hm | exact Hw | auto].
  - eapply Forall_impl; [|exact Hc]. intros w. apply consistent_weaken, Hsd.
  - exact Hz.
Qed.

(** A step of worker [i] that is not a barrier release keeps the invariant
    if it keeps the worker in its phase, consistent and without cycles. *)
Lemma Inv_with_worker :
  forall c (sd' : bool) i w w',
    Inv c ->
    nth_error (ws c) i = Some w ->
    (shutdown c = true -> sd' = true) ->
    fails w' = fails w ->
    (forall g, in_phase g (wphase (w_pc w)) -> in_phase g (wphase (w_pc w'))) ->
    consistent sd' w' = true ->
    w_cycles w' = 0%nat ->
    Inv (mk_config sd' (handlers c) (m_pc c) (set_nth i w' (ws c)) (warned c)).
Proof.
  intros c sd' i w w' [[g [Hm [Hw Hk]]] Hc Hz] Hnth Hsd Hf Hph Hcons Hcyc.
  pose proof (nth_error_In _ _ Hnth) as Hin.
  constructor; cbn [shutdown m_pc ws].
  - exists g. repeat split; [exact Hm | |].
    + apply Forall_set_nth; [exact Hw|]. apply Hph.
      rewrite Forall_forall in Hw. apply Hw, Hin.
    + intros Hg Hex. rewrite (existsb_fails_set_nth _ _ w w' Hnth Hf) in Hex. auto.
  - apply Forall_set_nth; [|exact Hcons].
    eapply Forall_impl; [|exact Hc]. intros x. apply consistent_weaken, Hsd.
  - apply Forall_set_nth; [exact Hz | exact Hcyc].
Qed.

Lemma mphase_after_msite :
  forall b, in_phase (S (msite_phase b)) (mphase (after_msite b)).
Proof. intros []; reflexivity. Qed.

(** What the invariant says about one worker. *)
Lemma Inv_worker :
  forall c i w,
    Inv c -> nth_error (ws c) i = Some w ->
    consistent (shutdown c) w = true /\ w_cycles w = 0%nat.
Proof.
  intros c i w [_ Hc Hz] Hnth. pose proof (nth_error_In _ _ Hnth) as Hin.
  rewrite Forall_forall in Hc, Hz. split; [apply Hc, Hin | apply Hz, Hin].
Qed.

(** The barrier opens for [main]. *)
Lemma Inv_main_release :
  forall c b,
    Inv c -> m_pc c = M_at b ->
    (S (arrived c) =? parties c)%nat = true ->
    Inv (mk_config (shutdown c) (handlers c) (after_msite b)
                   (map release_w (ws c)) (warned c)).
Proof.
  intros c b HI Hm Hfull. apply Nat.eqb_eq in Hfull.
  unfold arrived, parties in Hfull. rewrite Hm in Hfull. cbn [blocked_m] in Hfull.
  assert (Hall : Forall (fun x => blocked_w x = true) (ws c)).
  { apply Forall_forall. apply filter_length_all. lia. }
  destruct HI as [[g [Hmph [Hwph Hk]]] Hcons Hcyc].
  rewrite Hm in Hmph. cbn in Hmph.
  set (site := match b with MB1 => WB_baseline | MB2 => WB_prepared | MB3 => WB_applied end).
  set (w' := mk_worker (after_wsite site) true true true 0).
  destruct (release_workers (shutdown c) g (ws c) w' site) as [H1 [H2 [H3 H4]]].
  - rewrite <- Hmph. destruct b; reflexivity.
  - reflexivity.
  - intro Hf. discriminate Hf.
  - destruct b; reflexivity.
  - reflexivity.
  - eapply Forall_impl; [|exact Hall]. intros x Hx. left. exact Hx.
  - rewrite Forall_forall in *. intros x Hin. right. auto.
  - constructor; cbn [shutdown m_pc ws].
    + exists (S g). repeat split; [rewrite <- Hmph; apply mphase_after_msite | exact H1 | exact H4].
    + exact H2.
    + exact H3.
Qed.

(** The barrier opens for worker [i]. *)
Lemma Inv_worker_release :
  forall c i w b,
    Inv c -> nth_error (ws c) i = Some w -> w_pc w = W_at b ->
    (S (arrived c) =? parties c)%nat = true ->
    Inv (mk_config (shutdown c) (handlers c) (release_m (m_pc c))
                   (map release_w (set_nth i (set_pc w (after_wsite b)) (ws c)))
                   (warned c)).
Proof.
  intros c i w b HI Hnth Hpc Hfull. apply Nat.eqb_eq in Hfull.
  unfold arrived, parties in Hfull.
  assert (Hunblocked : blocked_w w = false) by (unfold blocked_w; rewrite Hpc; reflexivity).
  pose proof (filter_length_lt _ blocked_w (ws c) i w Hnth Hunblocked) as Hlt.
  destruct (blocked_m (m_pc c)) eqn:Hbm; [|lia].
  destruct (m_pc c) as [| mb | | | | | | | |] eqn:Hm; try discriminate Hbm.
  destruct (Inv_worker c i w HI Hnth) as [Hcw Hzw].
  pose proof (nth_error_In _ _ Hnth) as Hin.
  destruct HI as [[g [Hmph [Hwph Hk]]] Hcons Hcyc].
  rewrite Hm in Hmph. cbn in Hmph.
  assert (Hgw : wsite_phase b = g).
  { rewrite Forall_forall in Hwph. specialize (Hwph w Hin). rewrite Hpc in Hwph. exact Hwph. }
  set (w' := set_pc w (after_wsite b)).
  destruct (release_workers (shutdown c) g (set_nth i w' (ws c)) w' b) as [H1 [H2 [H3 H4]]].
  - exact Hgw.
  - reflexivity.
  - intros Hf Hg. unfold consistent in Hcw. rewrite Hpc in Hcw.
    unfold fails in Hf. cbn [w' set_pc getattr_ok setattr_ok] in Hf.
    rewrite Hg in Hgw.
    destruct b; try discriminate Hgw;
      destruct (getattr_ok w), (setattr_ok w), (shutdown c); cbn in *; congruence.
  - apply consistent_after_wsite; [left; exact Hpc | exact Hcw].
  - exact Hzw.
  - apply (full_count_workers (ws c) i w w' Hnth Hunblocked). lia.
  - apply Forall_set_nth; [|left; reflexivity].
    rewrite Forall_forall in *. intros x Hx. right. auto.
  - cbn [release_m]. constructor; cbn [shutdown m_pc ws].
    + exists (S g). repeat split; [rewrite <- Hmph; apply mphase_after_msite | exact H1 |].
      intros Hg Hex. apply H4; assumption.
    + exact H2.
    + exact H3.
Qed.

Lemma step_preserves_Inv :
  forall a c c',
    existsb fails (ws c) = true ->
    Inv c -> step a c = Some c' -> Inv c'.
Proof.
  intros a c c' Hfail HI H. unfold step in H.
  destruct (process_over (m_pc c)); [discriminate H|].
  destruct a as [| i | |].
  - (* main *)
    unfold main_step in H.
    destruct (m_pc c) as [b| | | | | | | j | |] eqn:Hm; try discriminate H.
    + some_inv H. unfold main_wait.
      destruct (S (arrived c) =? parties c)%nat eqn:Hfull.
      * apply Inv_main_release; assumption.
      * apply Inv_same_workers; [exact HI | auto | rewrite Hm; auto].
    + some_inv H. apply Inv_same_workers; [exact HI | auto |].
      rewrite Hm. destruct (shutdown c); cbn; auto.
    + some_inv H. apply Inv_same_workers; [exact HI | auto | rewrite Hm; auto].
    + some_inv H. apply Inv_same_workers; [exact HI | auto |].
      rewrite Hm. destruct (shutdown c); cbn; auto.
    + some_inv H. apply Inv_same_workers; [exact HI | auto | rewrite Hm; auto].
    + some_inv H. apply Inv_same_workers; [exact HI | auto |].
      rewrite Hm. destruct (shutdown c); cbn; auto.
    + destruct (nth_error (ws c) j) as [w|].
      * destruct (w_pc w) as [| | | | | | | | [msg|]]; try discriminate H;
          some_inv H; (apply Inv_same_workers; [exact HI | auto | rewrite Hm; auto]).
      * some_inv H. apply Inv_same_workers; [exact HI | auto | rewrite Hm; cbn; auto].
  - (* worker i *)
    destruct (nth_error (ws c) i) as [w|] eqn:Hnth; [|discriminate H].
    destruct (Inv_worker c i w HI Hnth) as [Hcw Hzw].
    unfold consistent in Hcw. unfold worker_step in H.
    destruct (w_pc w) as [| b | | | | | | |] eqn:Hpc; try discriminate H.
    + (* sched_getattr *)
      destruct (getattr_ok w) eqn:Eg; some_inv H;
        (eapply Inv_with_worker; [exact HI | exact Hnth | auto | reflexivity
                                 | rewrite Hpc; cbn; auto
                                 | unfold consistent; cbn; try rewrite Eg; reflexivity
                                 | exact Hzw]).
    + (* pthread_barrier_wait *)
      some_inv H. unfold worker_wait.
      destruct (S (arrived c) =? parties c)%nat eqn:Hfull.
      * apply Inv_worker_release; assumption.
      * eapply Inv_with_worker; [exact HI | exact Hnth | auto | reflexivity
                                | rewrite Hpc; cbn; auto | | exact Hzw].
        unfold consistent. cbn [set_pc w_pc getattr_ok setattr_ok].
        destruct b; exact Hcw.
    + some_inv H.
      eapply Inv_with_worker; [exact HI | exact Hnth | auto | reflexivity
                              | rewrite Hpc; cbn; auto | exact Hcw | exact Hzw].
    + (* sched_setattr *)
      destruct (setattr_ok w) eqn:Es; some_inv H;
        (eapply Inv_with_worker; [exact HI | exact Hnth | auto | reflexivity
                                 | rewrite Hpc; cbn; auto
                                 | unfold consistent; cbn; rewrite ?Es, Hcw; reflexivity
                                 | exact Hzw]).
    + some_inv H.
      eapply Inv_with_worker; [exact HI | exact Hnth | auto | reflexivity
                              | rewrite Hpc; cbn; auto | exact Hcw | exact Hzw].
    + (* while (!shutdown) *)
      destruct (shutdown c) eqn:Esd; some_inv H.
      * eapply Inv_with_worker; [exact HI | exact Hnth | auto | reflexivity
                                | rewrite Hpc; cbn; auto | exact Hcw | exact Hzw].
      * exfalso.
        destruct HI as [[g [_ [Hwph Hk]]] _ _].
        rewrite Forall_forall in Hwph.
        specialize (Hwph w (nth_error_In _ _ Hnth)). rewrite Hpc in Hwph.
        cbn in Hwph. symmetry in Hwph. specialize (Hk Hwph Hfail). congruence.
    + some_inv H.
      (* an exiting worker leaves the phases *)
      eapply Inv_with_worker; [exact HI | exact Hnth | auto | reflexivity
                              | rewrite Hpc; cbn; auto | reflexivity | exact Hzw].
  - (* a signal *)
    destruct (handlers c); [|discriminate H]. some_inv H.
    apply Inv_same_workers; [exact HI | auto | auto].
  - (* the cpusets cannot be made *)
    destruct (m_pc c) eqn:Hm; try discriminate H. some_inv H.
    apply Inv_same_workers; [exact HI | auto | cbn; auto].
Qed.

Lemma Inv_init : forall kernel, Inv (init kernel).
Proof.
  intro kernel. constructor; cbn [init shutdown m_pc ws].
  - exists 0%nat. repeat split; [|discriminate].
    apply Forall_map, Forall_forall. intros [[g s] g2] _. reflexivity.
  - apply Forall_map, Forall_forall. intros [[g s] g2] _. reflexivity.
  - apply Forall_map, Forall_forall. intros [[g s] g2] _. reflexivity.
Qed.

Lemma reachable_Inv :
  forall kernel c,
    existsb fails (ws (init kernel)) = true ->
    reachable (init kernel) c ->
    existsb fails (ws c) = true /\ Inv c.
Proof.
  intros kernel c Hfail Hreach. induction Hreach as [|c a c' _ [IHf IHi] Hstep].
  - split; [exact Hfail | apply Inv_init].
  - split.
    + rewrite (step_keeps_failure _ _ _ Hstep). exact IHf.
    + apply (step_preserves_Inv a c c' IHf IHi Hstep).
Qed.

(** Whatever the schedule, once the [sched_getattr] or the [sched_setattr]
    of some worker fails, no worker runs a steady-state cycle: the barrier
    that lets the others into the loop opens only after the failing worker
    has set [shutdown]. *)
Theorem no_cycle_after_failure :
  forall kernel c,
    Exists (fun k => fst (fst k) = false \/ snd (fst k) = false) kernel ->
    reachable (init kernel) c ->
    Forall (fun w => w_cycles w = 0%nat) (ws c)
    /\ Forall (fun w => w_pc w = W_loop -> shutdown c = true) (ws c).
Proof.
  intros kernel c Hex Hreach.
  assert (Hfail : existsb fails (ws (init kernel)) = true).
  { apply Exists_exists in Hex. destruct Hex as [[[g s] g2] [Hin Hk]].
    apply existsb_exists. exists (new_worker (g, s, g2)). split.
    - cbn [init ws]. apply in_map, Hin.
    - cbn in Hk. unfold fails. cbn. destruct Hk as [-> | ->]; [reflexivity|].
      apply Bool.negb_true_iff, andb_false_r. }
  destruct (reachable_Inv kernel c Hfail Hreach) as [Hf [[g [_ [Hph Hk]]] _ Hz]].
  split; [exact Hz|].
  eapply Forall_impl; [|exact Hph]. cbn beta. intros w Hw Hpc.
  rewrite Hpc in Hw. cbn in Hw. symmetry in Hw. auto.
Qed.

Lemma reachable_first_step :
  forall a c0 c1 c,
    step a c0 = Some c1 -> reachable c1 c -> reachable c0 c.
Proof.
  intros a c0 c1 c Hstep Hreach. induction Hreach as [|x a' y _ IH Hs].
  - eapply reach_step; [apply reach_refl | exact Hstep].
  - eapply reach_step; [exact IH | exact Hs].
Qed.

(** Every schedule that can be run leads to a reachable configuration. *)
Lemma run_reachable :
  forall sched c0 c, run sched c0 = Some c -> reachable c0 c.
Proof.
  induction sched as [|a sched IH]; intros c0 c Hrun.
  - cbn in Hrun. some_inv Hrun. apply reach_refl.
  - cbn [run] in Hrun. destruct (step a c0) as [c1|] eqn:Hstep; [|discriminate Hrun].
    apply (reachable_first_step a c0 c1 c Hstep). apply IH, Hrun.
Qed.

(** Two workers, the second of which cannot apply its attributes: however
    the threads are scheduled, neither runs a cycle. *)
Example no_cycle_with_one_failure :
  forall sched c,
    run sched (init [(true, true, true); (true, false, true)]) = Some c ->
    Forall (fun w => w_cycles w = 0%nat) (ws c).
Proof.
  intros sched c Hrun.
  apply (no_cycle_after_failure [(true, true, true); (true, false, true)]).
  - right. left. right. reflexivity.
  - apply (run_reachable sched), Hrun.
Qed.

(** *** Nobody is left waiting *)

Lemma length_set_nth :
  forall l i w, List.length (set_nth i w l) = List.length l.
Proof.
  induction l as [|a l IH]; intros i w; destruct i; cbn; try reflexivity.
  f_equal. apply IH.
Qed.

Lemma blocked_release_w : forall w, blocked_w (release_w w) = false.
Proof.
  intro w. unfold release_w, blocked_w.
  destruct (w_pc w) as [| | b | | | | | |] eqn:E; cbn; try rewrite E; try reflexivity.
  destruct b; reflexivity.
Qed.

Lemma filter_blocked_release :
  forall l, filter blocked_w (map release_w l) = [].
Proof.
  induction l as [|a l IH]; [reflexivity|].
  cbn [map filter]. rewrite blocked_release_w. exact IH.
Qed.

Lemma filter_blocked_set_nth :
  forall l i w w',
    nth_error l i = Some w ->
    blocked_w w = false ->
    List.length (filter blocked_w (set_nth i w' l)) =
    ((if blocked_w w' then 1 else 0) + List.length (filter blocked_w l))%nat.
Proof.
  induction l as [|a l IH]; intros i w w' Hnth Hw.
  - destruct i; discriminate Hnth.
  - destruct i as [|i]; cbn [nth_error] in Hnth; cbn [set_nth filter].
    + inversion Hnth. subst a. rewrite Hw. destruct (blocked_w w'); reflexivity.
    + specialize (IH i w w' Hnth Hw).
      destruct (blocked_w a); cbn [List.length]; lia.
Qed.

Lemma exists_unfiltered :
  forall (A : Type) (f : A -> bool) (l : list A),
    (List.length (filter f l) < List.length l)%nat ->
    exists i w, nth_error l i = Some w /\ f w = false.
Proof.
  intros A f. induction l as [|a l IH]; intro Hlt; [cbn in Hlt; lia|].
  cbn [filter] in Hlt. destruct (f a) eqn:Ea.
  - cbn [List.length] in Hlt. destruct IH as [i [w [Hnth Hw]]]; [lia|].
    exists (S i), w. split; assumption.
  - exists 0%nat, a. split; [reflexivity | exact Ea].
Qed.

Lemma Live_same_workers :
  forall c (sd' h : bool) m' wn,
    Live c ->
    blocked_m m' = blocked_m (m_pc c) ->
    (in_phase 3 (mphase (m_pc c)) -> in_phase 3 (mphase m')) ->
    Live (mk_config sd' h m' (ws c) wn).
Proof.
  intros c sd' h m' wn [Hcount Hexit Hget] Hb Hph.
  constructor; cbn [m_pc ws].
  - unfold arrived in *. cbn [m_pc ws]. rewrite Hb. exact Hcount.
  - eapply Forall_impl; [|exact Hexit]. cbn beta. auto.
  - exact Hget.
Qed.

Lemma Live_with_worker :
  forall c (sd' : bool) i w w',
    Live c ->
    nth_error (ws c) i = Some w ->
    blocked_w w = false ->
    ((if blocked_w w' then 1 else 0) + arrived c <= List.length (ws c))%nat ->
    (exited w' = true -> in_phase 3 (mphase (m_pc c))) ->
    on_getattr_path w' = true ->
    Live (mk_config sd' (handlers c) (m_pc c) (set_nth i w' (ws c)) (warned c)).
Proof.
  intros c sd' i w w' [Hcount Hexit Hget] Hnth Hw Hroom Hex Hpath.
  constructor; cbn [m_pc ws].
  - unfold arrived in *. cbn [m_pc ws].
    rewrite (filter_blocked_set_nth _ _ w w' Hnth Hw), length_set_nth. lia.
  - apply Forall_set_nth; [exact Hexit | exact Hex].
  - apply Forall_set_nth; [exact Hget | exact Hpath].
Qed.

(** What the release from the barrier means for one worker that takes
    part in it. *)
Lemma release_one :
  forall x bx b,
    (w_pc x = W_in bx \/ w_pc x = W_at bx) ->
    wsite_phase bx = msite_phase b ->
    on_getattr_path x = true ->
    (exited (set_pc x (after_wsite bx)) = true -> in_phase 3 (mphase (after_msite b)))
    /\ on_getattr_path (set_pc x (after_wsite bx)) = true.
Proof.
  intros x bx b Hpc Hph Hpath. unfold on_getattr_path, exited in *.
  destruct Hpc as [Hpc | Hpc]; rewrite Hpc in Hpath;
    destruct bx, b; cbn in *; try discriminate; split; auto; discriminate.
Qed.

Lemma Live_released :
  forall (sd h : bool) m' l wn,
    blocked_m m' = false ->
    Forall (fun x => (exited x = true -> in_phase 3 (mphase m'))
                     /\ on_getattr_path x = true) (map release_w l) ->
    Live (mk_config sd h m' (map release_w l) wn).
Proof.
  intros sd h m' l wn Hm H. constructor; cbn [m_pc ws].
  - unfold arrived. cbn [m_pc ws]. rewrite filter_blocked_release, Hm. cbn. lia.
  - eapply Forall_impl; [|exact H]. cbn beta. tauto.
  - eapply Forall_impl; [|exact H]. cbn beta. tauto.
Qed.

(** The phase that the invariant assigns to a configuration whose [main]
    is at or inside a barrier. *)
Lemma Inv_phase_main :
  forall c g,
    Inv c -> mphase (m_pc c) = Some g ->
    Forall (fun w => in_phase g (wphase (w_pc w))) (ws c).
Proof.
  intros c g [[g' [Hm [Hw _]]] _ _] Hg. rewrite Hg in Hm. cbn in Hm. subst g'. exact Hw.
Qed.

Lemma blocked_after_wsite :
  forall w b, blocked_w (set_pc w (after_wsite b)) = false.
Proof. intros w []; reflexivity. Qed.

Ltac live_worker HL Hnth Hpc Hpathw :=
  eapply Live_with_worker;
  [ exact HL
  | exact Hnth
  | unfold blocked_w; rewrite Hpc; reflexivity
  | cbn; apply (live_count _ HL)
  | cbn; try discriminate
  | unfold on_getattr_path in *; rewrite Hpc in Hpathw; cbn; exact Hpathw ].

Lemma step_preserves_Live :
  forall a c c', Inv c -> Live c -> step a c = Some c' -> Live c'.
Proof.
  intros a c c' HI HL H. unfold step in H.
  destruct (process_over (m_pc c)); [discriminate H|].
  destruct a as [| i | |].
  - (* main *)
    unfold main_step in H.
    destruct (m_pc c) as [b| | | | | | | j | |] eqn:Hm; try discriminate H.
    + some_inv H. unfold main_wait.
      destruct (S (arrived c) =? parties c)%nat eqn:Hfull.
      * apply Nat.eqb_eq in Hfull. unfold arrived, parties in Hfull.
        rewrite Hm in Hfull. cbn [blocked_m] in Hfull.
        assert (Hall : forall x, In x (ws c) -> blocked_w x = true)
          by (apply filter_length_all; lia).
        assert (Hph : Forall (fun w => in_phase (msite_phase b) (wphase (w_pc w))) (ws c))
          by (apply Inv_phase_main; [exact HI | rewrite Hm; reflexivity]).
        destruct HL as [_ _ Hget].
        apply Live_released; [destruct b; reflexivity|].
        apply Forall_map, Forall_forall. intros x Hin.
        rewrite Forall_forall in Hph, Hget.
        specialize (Hall x Hin). specialize (Hph x Hin). specialize (Hget x Hin).
        unfold blocked_w in Hall. unfold release_w.
        destruct (w_pc x) as [| | bx | | | | | |] eqn:Ex; try discriminate Hall.
        cbn in Hph. apply (release_one x bx b); [left; exact Ex | exact Hph | exact Hget].
      * apply Nat.eqb_neq in Hfull. destruct HL as [Hcount Hexit Hget].
        constructor; cbn [m_pc ws].
        -- unfold arrived, parties in *. rewrite Hm in *. cbn [m_pc ws blocked_m] in *. lia.
        -- rewrite Hm in Hexit. exact Hexit.
        -- exact Hget.
    + some_inv H. apply Live_same_workers;
        [exact HL | rewrite Hm; destruct (shutdown c); reflexivity
        | rewrite Hm; cbn; discriminate].
    + some_inv H. apply Live_same_workers;
        [exact HL | rewrite Hm; reflexivity | rewrite Hm; cbn; discriminate].
    + some_inv H. apply Live_same_workers;
        [exact HL | rewrite Hm; destruct (shutdown c); reflexivity
        | rewrite Hm; cbn; discriminate].
    + some_inv H. apply Live_same_workers;
        [exact HL | rewrite Hm; reflexivity | rewrite Hm; cbn; auto].
    + some_inv H. apply Live_same_workers;
        [exact HL | rewrite Hm; destruct (shutdown c); reflexivity
        | rewrite Hm; destruct (shutdown c); cbn; auto].
    + destruct (nth_error (ws c) j) as [w|].
      * destruct (w_pc w) as [| | | | | | | | [msg|]]; try discriminate H;
          some_inv H;
          (apply Live_same_workers;
           [exact HL | rewrite Hm; reflexivity | rewrite Hm; cbn; auto]).
      * some_inv H. apply Live_same_workers;
          [exact HL | rewrite Hm; reflexivity | rewrite Hm; cbn; auto].
  - (* worker i *)
    destruct (nth_error (ws c) i) as [w|] eqn:Hnth; [|discriminate H].
    pose proof (nth_error_In _ _ Hnth) as Hin.
    assert (Hpathw : on_getattr_path w = true).
    { destruct HL as [_ _ Hget]. rewrite Forall_forall in Hget. apply Hget, Hin. }
    unfold worker_step in H.
    destruct (w_pc w) as [| b | | | | | | |] eqn:Hpc; try discriminate H.
    + assert (Hg : getattr_ok w = true)
        by (unfold on_getattr_path in Hpathw; rewrite Hpc in Hpathw; exact Hpathw).
      rewrite Hg in H. some_inv H. live_worker HL Hnth Hpc Hpathw.
    + some_inv H. unfold worker_wait.
      assert (Hunblocked : blocked_w w = false)
        by (unfold blocked_w; rewrite Hpc; reflexivity).
      destruct (S (arrived c) =? parties c)%nat eqn:Hfull.
      * apply Nat.eqb_eq in Hfull. unfold arrived, parties in Hfull.
        pose proof (filter_length_lt _ blocked_w (ws c) i w Hnth Hunblocked) as Hlt.
        destruct (blocked_m (m_pc c)) eqn:Hbm; [|lia].
        destruct (m_pc c) as [| mb | | | | | | | |] eqn:Hm; try discriminate Hbm.
        assert (Hph : Forall (fun w => in_phase (msite_phase mb) (wphase (w_pc w))) (ws c))
          by (apply Inv_phase_main; [exact HI | rewrite Hm; reflexivity]).
        destruct HL as [_ _ Hget]. rewrite Forall_forall in Hph, Hget.
        cbn [release_m]. apply Live_released; [destruct mb; reflexivity|].
        set (w' := set_pc w (after_wsite b)).
        assert (Hbl : Forall (fun x => blocked_w x = true \/ x = w') (set_nth i w' (ws c)))
          by (apply (full_count_workers (ws c) i w w' Hnth Hunblocked); lia).
        assert (Hw' : (exited w' = true -> in_phase 3 (mphase (after_msite mb)))
                      /\ on_getattr_path w' = true).
        { apply (release_one w b mb); [right; exact Hpc | | exact Hpathw].
          specialize (Hph w Hin). rewrite Hpc in Hph. exact Hph. }
        apply Forall_map, Forall_forall. intros x Hx.
        rewrite Forall_forall in Hbl.
        destruct (Hbl x Hx) as [Hbx | ->];
          [|unfold w'; rewrite release_w_after_wsite; exact Hw'].
        destruct (In_set_nth _ _ _ _ Hx) as [-> | Hxin];
          [unfold w' in Hbx; rewrite blocked_after_wsite in Hbx; discriminate Hbx|].
        specialize (Hph x Hxin). specialize (Hget x Hxin).
        unfold blocked_w in Hbx. unfold release_w.
        destruct (w_pc x) as [| | bx | | | | | |] eqn:Ex; try discriminate Hbx.
        cbn in Hph. apply (release_one x bx mb); [left; exact Ex | exact Hph | exact Hget].
      * apply Nat.eqb_neq in Hfull.
        eapply Live_with_worker;
          [ exact HL | exact Hnth | exact Hunblocked | | cbn; discriminate
          | unfold on_getattr_path in *; rewrite Hpc in Hpathw; cbn; exact Hpathw ].
        cbn. pose proof (live_count _ HL). unfold parties in Hfull. lia.
    + some_inv H. live_worker HL Hnth Hpc Hpathw.
    + destruct (setattr_ok w); some_inv H; live_worker HL Hnth Hpc Hpathw.
    + some_inv H. live_worker HL Hnth Hpc Hpathw.
    + destruct (shutdown c); some_inv H; live_worker HL Hnth Hpc Hpathw.
    + some_inv H.
      eapply Live_with_worker;
        [ exact HL | exact Hnth | unfold blocked_w; rewrite Hpc; reflexivity
        | cbn; apply (live_count _ HL) |
        | unfold on_getattr_path in *; rewrite Hpc in Hpathw; cbn; exact Hpathw ].
      intros _. destruct HI as [[g [Hmg [Hwg _]]] _ _].
      rewrite Forall_forall in Hwg. specialize (Hwg w Hin). rewrite Hpc in Hwg.
      cbn in Hwg. subst g. exact Hmg.
  - (* a signal *)
    destruct (handlers c); [|discriminate H]. some_inv H.
    apply Live_same_workers; [exact HL | reflexivity | auto].
  - (* the cpusets cannot be made *)
    destruct (m_pc c) eqn:Hm; try discriminate H. some_inv H.
    apply Live_same_workers; [exact HL | rewrite Hm; reflexivity | cbn; auto].
Qed.

Lemma Live_init :
  forall kernel,
    Forall (fun k => fst (fst k) = true) kernel ->
    Live (init kernel).
Proof.
  intros kernel Hk. constructor; cbn [init m_pc ws].
  - unfold arrived. cbn [init m_pc ws blocked_m].
    pose proof (filter_length_le blocked_w (map new_worker kernel)). lia.
  - apply Forall_map, Forall_forall. intros [[g s] g2] _. cbn. discriminate.
  - apply Forall_map. eapply Forall_impl; [|exact Hk].
    intros [[g s] g2] Hg. cbn in *. exact Hg.
Qed.

(** With the invariants in force, a configuration in which the process
    has not ended has a thread that can move: [main] unless it is inside a
    barrier or joining a worker that has not exited, and then a worker. *)
Lemma Live_can_step :
  forall c,
    Inv c -> Live c -> process_over (m_pc c) = false -> can_step c.
Proof.
  intros c HI HL Hover. unfold can_step, step. rewrite Hover.
  destruct (m_pc c) as [b | b | | | | | | j | |] eqn:Hm;
    try discriminate Hover;
    try (left; unfold main_step; rewrite Hm; discriminate).
  - (* main is inside a barrier *)
    right. destruct HL as [Hcount Hexit _].
    unfold arrived in Hcount. rewrite Hm in Hcount, Hexit. cbn [blocked_m] in Hcount.
    destruct (exists_unfiltered _ blocked_w (ws c)) as [i [w [Hnth Hw]]]; [lia|].
    exists i. rewrite Hnth.
    rewrite Forall_forall in Hexit. specialize (Hexit w (nth_error_In _ _ Hnth)).
    unfold blocked_w in Hw. unfold exited in Hexit. unfold worker_step.
    destruct (w_pc w) as [| | | | | | | | r] eqn:Hpc; try discriminate Hw;
      try discriminate;
      try (destruct (getattr_ok w); discriminate);
      try (destruct (setattr_ok w); discriminate);
      try (destruct (shutdown c); discriminate).
    specialize (Hexit eq_refl). destruct b; discriminate Hexit.
  - (* main joins worker j *)
    destruct (nth_error (ws c) j) as [w|] eqn:Hnth;
      [|left; unfold main_step; rewrite Hm, Hnth; discriminate].
    assert (Hph : in_phase 3 (wphase (w_pc w))).
    { pose proof (Inv_phase_main c 3%nat HI ltac:(rewrite Hm; reflexivity)) as H.
      rewrite Forall_forall in H. apply H, (nth_error_In _ _ Hnth). }
    destruct (w_pc w) as [| b | b | | | | | | r] eqn:Hpc;
      try (destruct b; discriminate Hph); try discriminate Hph.
    + right. exists j. rewrite Hnth. unfold worker_step. rewrite Hpc. discriminate.
    + right. exists j. rewrite Hnth. unfold worker_step. rewrite Hpc.
      destruct (shutdown c); discriminate.
    + right. exists j. rewrite Hnth. unfold worker_step. rewrite Hpc. discriminate.
    + left. unfold main_step. rewrite Hm, Hnth, Hpc. destruct r; discriminate.
Qed.

Lemma reachable_Live :
  forall kernel c,
    Forall (fun k => fst (fst k) = true) kernel ->
    existsb fails (ws (init kernel)) = true ->
    reachable (init kernel) c ->
    existsb fails (ws c) = true /\ Inv c /\ Live c.
Proof.
  intros kernel c Hk Hfail Hreach.
  induction Hreach as [|c a c' _ [IHf [IHi IHl]] Hstep].
  - split; [exact Hfail | split; [apply Inv_init | apply Live_init, Hk]].
  - split; [|split].
    + rewrite (step_keeps_failure _ _ _ Hstep). exact IHf.
    + apply (step_preserves_Inv a c c' IHf IHi Hstep).
    + apply (step_preserves_Live a c c' IHi IHl Hstep).
Qed.

(** When every [sched_getattr] succeeds and some [sched_setattr] fails,
    no schedule leads to a configuration in which the process is still
    there and every thread waits: nobody hangs at a barrier or in
    [pthread_join]. *)
Theorem no_hang_after_setattr_failure :
  forall kernel c,
    Forall (fun k => fst (fst k) = true) kernel ->
    Exists (fun k => snd (fst k) = false) kernel ->
    reachable (init kernel) c ->
    process_over (m_pc c) = true \/ can_step c.
Proof.
  intros kernel c Hk Hex Hreach.
  assert (Hfail : existsb fails (ws (init kernel)) = true).
  { apply Exists_exists in Hex. destruct Hex as [[[g s] g2] [Hin Hs]].
    apply existsb_exists. exists (new_worker (g, s, g2)). split.
    - cbn [init ws]. apply in_map, Hin.
    - cbn in Hs. subst s. unfold fails. cbn. apply Bool.negb_true_iff, andb_false_r. }
  destruct (reachable_Live kernel c Hk Hfail Hreach) as [_ [HI HL]].
  destruct (process_over (m_pc c)) eqn:Hover; [left; reflexivity | right].
  apply Live_can_step; assumption.
Qed.

(* ================================================================= *)
(** * Further properties *)

(* ================================================================= *)
(** ** The CPU list: texts, counts and complements *)

Lemma add_cpus_links_behind_witness :
  ~ ascending (-1) (add_cpus [mk_cpu 5 5] 1 1).
Proof.
  apply (add_cpus_links_behind [mk_cpu 5 5] (-1) 1 1). reflexivity.
Defined.

Lemma add_all_order_independent_witness :
  add_all [] [(1, 3); (2, 5)] = add_all [] [(2, 5); (1, 3)]
  /\ make_new_list (add_all [] [(1, 3); (2, 5)])
     = make_new_list (add_all [] [(2, 5); (1, 3)]).
Proof.
  apply (add_all_order_independent [(1, 3); (2, 5)] [(2, 5); (1, 3)]).
  - apply perm_swap.
  - repeat constructor; cbn; lia.
  - repeat constructor; unfold below_int_max, INT_MAX; cbn; lia.
  - cbn. auto.
  - cbn. auto.
Defined.

(** *** [atoi] on what "%d" prints *)

Lemma digits_value_uint :
  forall d acc rest,
    no_digit_ahead rest ->
    digits_value acc (NilEmpty.string_of_uint d ++ rest) = uint_value d acc
    /\ skip_digits (NilEmpty.string_of_uint d ++ rest) = rest.
Proof.
  induction d; intros acc rest Hrest; cbn [NilEmpty.string_of_uint String.append];
    try (cbn [digits_value skip_digits uint_value]; 
         change (isdigit _) with true; cbv iota; 
         match goal with |- context [digit_val ?c] => change (digit_val c) with (Z.of_nat (nat_of_ascii c) - 48) end;
         cbn [nat_of_ascii]; apply IHd; exact Hrest).
  - cbn. destruct rest as [|c r]; [split; reflexivity|]. cbn in Hrest. cbn. rewrite Hrest. split; reflexivity.
Qed.

Lemma uint_value_acc :
  forall d acc, uint_value d (Z.pos acc) = Z.pos (Pos.of_uint_acc d acc).
Proof.
  induction d; intro acc; cbn [uint_value Pos.of_uint_acc]; try reflexivity;
    rewrite <- IHd; f_equal; lia.
Qed.

Lemma uint_value_of_uint :
  forall d, uint_value d 0 = Z.of_N (Pos.of_uint d).
Proof.
  induction d; cbn [uint_value Pos.of_uint]; try reflexivity;
    try (exact IHd); cbn [Z.of_N]; rewrite <- uint_value_acc; reflexivity.
Qed.

Lemma fmt_d_pos :
  forall p, fmt_d (Z.pos p) = NilEmpty.string_of_uint (Pos.to_uint p).
Proof.
  intro p. unfold fmt_d. cbn [Z.to_int NilZero.string_of_int]. unfold NilZero.string_of_uint.
  pose proof (DecimalPos.Unsigned.to_uint_nonnil p) as H.
  destruct (Pos.to_uint p); [congruence | reflexivity ..].
Qed.

Lemma string_of_uint_digit_ahead :
  forall d rest, d <> Decimal.Nil -> digit_ahead (NilEmpty.string_of_uint d ++ rest).
Proof. intros [] rest H; try congruence; reflexivity. Qed.

Lemma fmt_d_digit_ahead :
  forall n rest, 0 <= n -> digit_ahead (fmt_d n ++ rest).
Proof.
  intros [|p|p] rest H; [reflexivity | | lia].
  rewrite fmt_d_pos. apply string_of_uint_digit_ahead, DecimalPos.Unsigned.to_uint_nonnil.
Qed.

Lemma fmt_d_digits :
  forall n rest,
    0 <= n -> no_digit_ahead rest ->
    digits_value 0 (fmt_d n ++ rest) = n /\ skip_digits (fmt_d n ++ rest) = rest.
Proof.
  intros [|p|p] rest Hn Hrest; [| | lia].
  - change (fmt_d 0) with "0"%string.
    destruct rest as [|c r]; [split; reflexivity|]. cbn in Hrest. cbn. rewrite Hrest. split; reflexivity.
  - rewrite fmt_d_pos.
    destruct (digits_value_uint (Pos.to_uint p) 0 rest Hrest) as [H1 H2].
    split; [|exact H2].
    rewrite H1, uint_value_of_uint, DecimalPos.Unsigned.of_to. reflexivity.
Qed.

Lemma strtol_digit_ahead :
  forall p, digit_ahead p -> strtol p = clamp_long (digits_value 0 p).
Proof.
  intros [|c r] H; [destruct H|]. cbn in H. unfold strtol.
  assert (Hs : isspace c = false).
  { unfold isdigit, isspace in *. 
    apply andb_true_iff in H. destruct H as [H1 H2].
    apply Nat.leb_le in H1, H2.
    apply orb_false_iff. split; [apply Nat.eqb_neq; lia|].
    apply andb_false_iff. right. apply Nat.leb_gt. lia. }
  cbn [skip_space]. rewrite Hs.
  destruct c as [[] [] [] [] [] [] [] []]; try discriminate H; reflexivity.
Qed.

Lemma atoi_fmt_d :
  forall n rest,
    0 <= n <= INT_MAX -> no_digit_ahead rest ->
    atoi (fmt_d n ++ rest) = n.
Proof.
  intros n rest Hn Hrest. unfold atoi.
  rewrite strtol_digit_ahead by (apply fmt_d_digit_ahead; lia).
  destruct (fmt_d_digits n rest ltac:(lia) Hrest) as [-> _].
  unfold INT_MAX in Hn.
  unfold clamp_long, LONG_MIN, LONG_MAX.
  replace (n <? - 2 ^ 63) with false by (symmetry; apply Z.ltb_ge; lia).
  replace (2 ^ 63 - 1 <? n) with false by (symmetry; apply Z.ltb_ge; lia).
  unfold to_int, UINT_MOD. rewrite Z.mod_small by lia.
  replace (n <? 2 ^ 31) with true by (symmetry; apply Z.ltb_lt; lia). reflexivity.
Qed.

Lemma append_nil_r : forall a : string, (a ++ "" = a)%string.
Proof. induction a as [|x a IH]; cbn; [reflexivity | rewrite IH; reflexivity]. Qed.

Lemma is_char_inv :
  forall c p, is_char c p = true -> exists r, p = String c r.
Proof.
  intros c [|c' r] H; [discriminate H|]. unfold is_char in H. cbn in H.
  apply Ascii.eqb_eq in H. subst c'. exists r. reflexivity.
Qed.

Lemma digit_ahead_nonempty : forall p, digit_ahead p -> p <> EmptyString.
Proof. intros [|c r] H; [destruct H | discriminate]. Qed.

Lemma is_char_zero_fmt_d :
  forall rest, is_char "0" (fmt_d 0 ++ rest) = true.
Proof. reflexivity. Qed.

(** A token followed by the end of the text or by a comma is consumed in one iteration. *)
Lemma calc_nr_cpus_loop_token :
  forall fuel iv tail l,
    int_interval iv ->
    tail = EmptyString \/ is_char "," tail = true ->
    calc_nr_cpus_loop (S fuel) (token iv ++ tail) l =
    calc_nr_cpus_loop fuel (advance tail) (add_cpus l (fst iv) (snd iv)).
Proof.
  intros fuel [s e] tail l [[Hs Hse] He] Htail. cbn [fst snd] in *.
  assert (Hnd : no_digit_ahead tail).
  { destruct Htail as [-> | H]; [exact I|].
    destruct (is_char_inv _ _ H) as [r ->]. reflexivity. }
  assert (Hminus : is_char "-" tail = false).
  { destruct Htail as [-> | H]; [reflexivity|].
    destruct (is_char_inv _ _ H) as [r ->]. reflexivity. }
  assert (Hnext : (if is_char "," tail then advance tail else tail) = advance tail).
  { destruct Htail as [-> | ->]; reflexivity. }
  unfold token. cbn [fst snd].
  destruct (s =? e) eqn:Ese.
  - apply Z.eqb_eq in Ese. subst e.
    rewrite calc_nr_cpus_loop_unfold
      by (apply digit_ahead_nonempty, fmt_d_digit_ahead; lia).
    cbv zeta. rewrite (atoi_fmt_d s tail) by (auto; lia).
    destruct (fmt_d_digits s tail Hs Hnd) as [_ ->].
    replace (s <? 0) with false by (symmetry; apply Z.ltb_ge; lia).
    assert (Hz : (s =? 0) && negb (is_char "0" (fmt_d s ++ tail)) = false).
    { destruct (s =? 0) eqn:E0; [|reflexivity].
      apply Z.eqb_eq in E0. subst s. reflexivity. }
    rewrite Hz. cbn [orb]. rewrite Hminus, Hnext. reflexivity.
  - apply Z.eqb_neq in Ese.
    rewrite append_assoc.
    rewrite calc_nr_cpus_loop_unfold
      by (apply digit_ahead_nonempty, fmt_d_digit_ahead; lia).
    change (("-" ++ fmt_d e) ++ tail)%string with (String "-" (fmt_d e ++ tail)).
    cbv zeta.
    rewrite (atoi_fmt_d s) by (try reflexivity; lia).
    destruct (fmt_d_digits s (String "-" (fmt_d e ++ tail)) Hs eq_refl) as [_ ->].
    replace (s <? 0) with false by (symmetry; apply Z.ltb_ge; lia).
    assert (Hz : (s =? 0) && negb (is_char "0" (fmt_d s ++ String "-" (fmt_d e ++ tail))) = false).
    { destruct (s =? 0) eqn:E0; [|reflexivity].
      apply Z.eqb_eq in E0. subst s. reflexivity. }
    rewrite Hz. cbn [orb].
    change (is_char "-" (String "-" (fmt_d e ++ tail))) with true. cbv iota.
    cbn [advance].
    rewrite (atoi_fmt_d e tail) by (auto; lia).
    destruct (fmt_d_digits e tail ltac:(lia) Hnd) as [_ ->].
    replace (e <? s) with false by (symmetry; apply Z.ltb_ge; lia).
    replace (e =? 0) with false by (symmetry; apply Z.eqb_neq; lia).
    cbn [orb andb]. rewrite Hnext. reflexivity.
Qed.

Lemma expression_cons :
  forall iv r,
    exists tail,
      expression (iv :: r) = (token iv ++ tail)%string
      /\ (tail = EmptyString \/ is_char "," tail = true)
      /\ advance tail = expression r.
Proof.
  intros iv [|iv' r].
  - exists EmptyString. repeat split. left. reflexivity.
  - exists ("," ++ expression (iv' :: r))%string. repeat split. right. reflexivity.
Qed.

(** The loop of [calc_nr_cpus] on a text of well-formed tokens: one
    iteration per token, each handing its interval to [add_cpus]. *)
Lemma calc_nr_cpus_loop_expression :
  forall ivs fuel l,
    Forall int_interval ivs ->
    (List.length ivs <= fuel)%nat ->
    calc_nr_cpus_loop fuel (expression ivs) l = Some (ParseDone (add_all l ivs)).
Proof.
  induction ivs as [|iv r IH]; intros fuel l Hiv Hfuel.
  - destruct fuel; reflexivity.
  - inversion_clear Hiv as [|? ? H1 H2].
    destruct fuel as [|fuel]; [cbn in Hfuel; lia|].
    destruct (expression_cons iv r) as [tail [-> [Htail Hadv]]].
    rewrite calc_nr_cpus_loop_token by assumption.
    rewrite Hadv. apply IH; [exact H2 | cbn in Hfuel; lia].
Qed.

(** X1.  [calc_nr_cpus] accepts every comma-separated list of CPUs and
    ranges whose numbers are below [INT_MAX]: the loop ends after one
    iteration per token with the list that [add_cpus] builds from the
    intervals in the order given, and [*buf] is the rendering of that
    list.  When no insertion ends in the last branch of [add_cpus], the
    list is ascending and covers exactly the CPUs asked for, and
    [calc_nr_cpus] returns its count. *)
Theorem calc_nr_cpus_accepts :
  forall cpu_count ivs fuel,
    Forall int_interval ivs ->
    Forall below_int_max ivs ->
    (List.length ivs <= fuel)%nat ->
    calc_nr_cpus_loop fuel (expression ivs) [] = Some (ParseDone (add_all [] ivs))
    /\ (exists n, calc_nr_cpus cpu_count fuel (expression ivs)
                  = Some (n, make_new_list (add_all [] ivs)))
    /\ (never_links_behind [] ivs ->
        ascending (-1) (add_all [] ivs)
        /\ (forall x, covered (add_all [] ivs) x
                      <-> Exists (fun iv => fst iv <= x <= snd iv) ivs)
        /\ calc_nr_cpus cpu_count fuel (expression ivs)
           = Some (count_cpus cpu_count (add_all [] ivs),
                   make_new_list (add_all [] ivs))).
Proof.
  intros cpu_count ivs fuel Hivs _ Hfuel.
  pose proof (calc_nr_cpus_loop_expression ivs fuel [] Hivs Hfuel) as H.
  assert (Hret : calc_nr_cpus cpu_count fuel (expression ivs)
                 = Some (count_cpus cpu_count (add_all [] ivs),
                         make_new_list (add_all [] ivs)))
    by (unfold calc_nr_cpus; rewrite H; reflexivity).
  split; [exact H | split].
  - eexists. exact Hret.
  - intro Hnever.
    assert (Hvalid : Forall valid_interval ivs).
    { eapply Forall_impl; [|exact Hivs]. intros iv [Hiv _]. exact Hiv. }
    destruct (add_all_ascending ivs [] I Hvalid Hnever) as [Hasc Hcov].
    split; [exact Hasc|]. split; [|exact Hret].
    intro x. rewrite Hcov. split; [|auto].
    intros [[c [[] _]] | Hx]. exact Hx.
Qed.

Lemma calc_nr_cpus_accepts_witness :
  calc_nr_cpus 8 3 (expression [(0, 0); (2, 4); (5, 5)])
  = Some (count_cpus 8 (add_all [] [(0, 0); (2, 4); (5, 5)]),
          make_new_list (add_all [] [(0, 0); (2, 4); (5, 5)])).
Proof.
  apply (calc_nr_cpus_accepts 8 [(0, 0); (2, 4); (5, 5)] 3).
  - repeat constructor; cbn; unfold INT_MAX; lia.
  - repeat constructor; unfold below_int_max, INT_MAX; cbn; lia.
  - cbn. lia.
  - cbn. auto.
Defined.

Lemma append_cpus_token :
  forall b s e comma, append_cpus b s e comma = (b ++ comma ++ token (s, e))%string.
Proof.
  intros b s e comma. unfold append_cpus, token. cbn [fst snd].
  destruct (s =? e); reflexivity.
Qed.

Lemma make_new_list_loop_text :
  forall l b,
    make_new_list_loop l (Some b) "," =
    Some (b ++ match l with
               | [] => ""
               | _ => "," ++ expression (map interval_of l)
               end)%string.
Proof.
  induction l as [|c r IH]; intro b.
  - cbn. rewrite append_nil_r. reflexivity.
  - cbn [make_new_list_loop buf_text]. rewrite IH, append_cpus_token.
    f_equal. rewrite !append_assoc. destruct c as [s e]. cbn [map expression interval_of start_cpu end_cpu].
    destruct r as [|c' r]; cbn [map]; rewrite ?append_nil_r; reflexivity.
Qed.

Lemma make_new_list_text :
  forall l,
    make_new_list l =
    match l with [] => None | _ => Some (expression (map interval_of l)) end.
Proof.
  intros [|c r]; [reflexivity|].
  unfold make_new_list. cbn [make_new_list_loop buf_text].
  rewrite make_new_list_loop_text, append_cpus_token.
  destruct c as [s e]. cbn [map expression interval_of start_cpu end_cpu].
  destruct r as [|c' r]; cbn [map]; rewrite ?append_nil_r; reflexivity.
Qed.

Lemma buf_text_make_new_list :
  forall l, buf_text (make_new_list l) = expression (map interval_of l).
Proof. intro l. rewrite make_new_list_text. destruct l; reflexivity. Qed.

Lemma add_cpus_beyond :
  forall l s e,
    Forall (fun c => end_cpu c + 1 < s) l ->
    add_cpus l s e = l ++ [mk_cpu s e].
Proof.
  induction l as [|c r IH]; intros s e H; [reflexivity|].
  inversion_clear H as [|? ? Hc Hr]. cbn [add_cpus app].
  apply Z.ltb_lt in Hc. rewrite Hc. rewrite IH by exact Hr. reflexivity.
Qed.

Lemma add_all_ascending_list :
  forall l acc lo,
    Forall (fun c => end_cpu c + 1 <= lo) acc ->
    ascending lo l ->
    add_all acc (map interval_of l) = acc ++ l.
Proof.
  induction l as [|c r IH]; intros acc lo Hacc Hasc.
  - cbn. rewrite app_nil_r. reflexivity.
  - cbn in Hasc. destruct Hasc as [H1 [H2 H3]].
    cbn [map add_all fold_left interval_of fst snd].
    rewrite add_cpus_beyond.
    + change (fold_left _ (map interval_of r) ?a) with (add_all a (map interval_of r)).
      rewrite (IH _ (end_cpu c + 1)).
      * rewrite <- app_assoc. destruct c; reflexivity.
      * apply Forall_app. split.
        -- eapply Forall_impl; [|exact Hacc]. cbn beta. intros x Hx. lia.
        -- constructor; [cbn; lia | constructor].
      * exact H3.
    + eapply Forall_impl; [|exact Hacc]. cbn beta. intros x Hx. lia.
Qed.

Lemma ascending_int_intervals :
  forall l lo,
    -1 <= lo -> ascending lo l ->
    Forall (fun c => end_cpu c <= INT_MAX) l ->
    Forall int_interval (map interval_of l).
Proof.
  induction l as [|c r IH]; intros lo Hlo Hasc Hmax; [constructor|].
  cbn in Hasc. destruct Hasc as [H1 [H2 H3]]. inversion_clear Hmax as [|? ? Hc Hr].
  cbn [map]. constructor.
  - unfold int_interval, interval_of. cbn [fst snd]. lia.
  - apply (IH (end_cpu c + 1)); [lia | exact H3 | exact Hr].
Qed.

(** Parsing the rendering of an ascending list gives the list back. *)
Lemma calc_nr_cpus_loop_rendered :
  forall l fuel,
    ascending (-1) l ->
    Forall (fun c => end_cpu c <= INT_MAX) l ->
    (List.length l <= fuel)%nat ->
    calc_nr_cpus_loop fuel (buf_text (make_new_list l)) [] = Some (ParseDone l).
Proof.
  intros l fuel Hasc Hmax Hfuel.
  rewrite buf_text_make_new_list, calc_nr_cpus_loop_expression.
  - rewrite (add_all_ascending_list l [] (-1)); [reflexivity | constructor | exact Hasc].
  - apply (ascending_int_intervals l (-1)); [lia | exact Hasc | exact Hmax].
  - rewrite length_map. exact Hfuel.
Qed.

(** X2.  Round trip: [calc_nr_cpus] applied to the text that
    [make_new_list] renders from an ascending list of CPUs gives the same
    list, hence the same text again; one iteration per interval is
    enough. *)
Theorem calc_nr_cpus_round_trip :
  forall cpu_count l fuel,
    ascending (-1) l ->
    Forall (fun c => end_cpu c <= INT_MAX) l ->
    (List.length l <= fuel)%nat ->
    calc_nr_cpus_loop fuel (buf_text (make_new_list l)) [] = Some (ParseDone l)
    /\ calc_nr_cpus cpu_count fuel (buf_text (make_new_list l))
       = Some (count_cpus cpu_count l, make_new_list l).
Proof.
  intros cpu_count l fuel Hasc Hmax Hfuel.
  pose proof (calc_nr_cpus_loop_rendered l fuel Hasc Hmax Hfuel) as H.
  split; [exact H|]. unfold calc_nr_cpus. rewrite H. reflexivity.
Qed.

Lemma calc_nr_cpus_round_trip_witness :
  calc_nr_cpus 8 2 (buf_text (make_new_list [mk_cpu 0 0; mk_cpu 2 5]))
  = Some (count_cpus 8 [mk_cpu 0 0; mk_cpu 2 5], make_new_list [mk_cpu 0 0; mk_cpu 2 5]).
Proof.
  apply (calc_nr_cpus_round_trip 8 [mk_cpu 0 0; mk_cpu 2 5] 2).
  - cbn. lia.
  - repeat constructor; cbn; unfold INT_MAX; lia.
  - cbn. lia.
Defined.

Lemma count_cpus_loop_spec :
  forall cpu_count l cpus fail,
    count_cpus_loop cpu_count l cpus fail =
    (cpus + fold_right (fun c a => (end_cpu c - start_cpu c) + 1 + a) 0 l,
     fail || existsb (reaches cpu_count) l).
Proof.
  intros cpu_count. induction l as [|c r IH]; intros cpus fail.
  - cbn. rewrite Z.add_0_r, orb_false_r. reflexivity.
  - cbn [count_cpus_loop fold_right existsb]. rewrite IH. unfold reaches at 2.
    rewrite orb_assoc. f_equal. lia.
Qed.

Lemma In_cpus_in :
  forall c x, In x (cpus_in c) <-> start_cpu c <= x <= end_cpu c.
Proof.
  intros c x. unfold cpus_in. rewrite in_map_iff. split.
  - intros [k [<- Hk]]. apply in_seq in Hk. lia.
  - intros Hx. exists (Z.to_nat (x - start_cpu c)). split; [lia|].
    apply in_seq. lia.
Qed.

Lemma In_cpus_of :
  forall l x, In x (cpus_of l) <-> covered l x.
Proof.
  intros l x. unfold cpus_of, covered. rewrite in_flat_map.
  split; intros [c [Hin Hx]]; exists c; (split; [exact Hin|]); apply In_cpus_in; exact Hx.
Qed.

Lemma NoDup_cpus_in : forall c, NoDup (cpus_in c).
Proof.
  intro c. unfold cpus_in. apply Finite.Injective_map_NoDup; [|apply seq_NoDup].
  intros a b H. lia.
Qed.

Lemma length_cpus_in :
  forall c, start_cpu c <= end_cpu c ->
    Z.of_nat (List.length (cpus_in c)) = end_cpu c - start_cpu c + 1.
Proof. intros c H. unfold cpus_in. rewrite length_map, length_seq. lia. Qed.

Lemma NoDup_cpus_of :
  forall l lo, ascending lo l -> NoDup (cpus_of l).
Proof.
  induction l as [|c r IH]; intros lo Hasc; [constructor|].
  cbn in Hasc. destruct Hasc as [H1 [H2 H3]].
  change (cpus_of (c :: r)) with (cpus_in c ++ cpus_of r).
  apply NoDup_app; [apply NoDup_cpus_in | apply (IH _ H3) |].
  intros x Hx Hr. apply In_cpus_in in Hx. apply In_cpus_of in Hr.
  pose proof (covered_above _ _ _ H3 Hr). lia.
Qed.

Lemma length_cpus_of :
  forall l lo, ascending lo l ->
    Z.of_nat (List.length (cpus_of l))
    = fold_right (fun c a => (end_cpu c - start_cpu c) + 1 + a) 0 l.
Proof.
  induction l as [|c r IH]; intros lo Hasc; [reflexivity|].
  cbn in Hasc. destruct Hasc as [H1 [H2 H3]].
  change (cpus_of (c :: r)) with (cpus_in c ++ cpus_of r).
  rewrite length_app, Nat2Z.inj_add, length_cpus_in, (IH _ H3) by exact H2.
  cbn [fold_right]. lia.
Qed.

Lemma total_ascending_bound :
  forall l lo hi, ascending lo l ->
    Forall (fun c => end_cpu c < hi) l ->
    fold_right (fun c a => (end_cpu c - start_cpu c) + 1 + a) 0 l <= Z.max 0 (hi - lo - 1).
Proof.
  induction l as [|c r IH]; intros lo hi Hasc Hhi; [cbn; lia|].
  cbn in Hasc. destruct Hasc as [H1 [H2 H3]]. inversion_clear Hhi as [|? ? Hc Hr].
  cbn [fold_right]. specialize (IH _ _ H3 Hr). lia.
Qed.

(** On an ascending list within the machine [count_cpus] counts the
    CPUs covered. *)
Lemma count_cpus_in_range :
  forall cpu_count l,
    0 <= cpu_count ->
    ascending (-1) l ->
    Forall (fun c => end_cpu c < cpu_count) l ->
    count_cpus cpu_count l = Z.of_nat (List.length (cpus_of l))
    /\ 0 <= count_cpus cpu_count l <= cpu_count.
Proof.
  intros cpu_count l Hcount Hasc Hin. unfold count_cpus.
  rewrite count_cpus_loop_spec. cbn [orb]. rewrite Z.add_0_l.
  assert (E : existsb (reaches cpu_count) l = false).
  { destruct (existsb (reaches cpu_count) l) eqn:E; [|reflexivity].
    apply existsb_exists in E. destruct E as [c [Hc Hr]].
    rewrite Forall_forall in Hin. specialize (Hin c Hc).
    apply Z.leb_le in Hr. lia. }
  rewrite E.
  pose proof (total_ascending_bound l (-1) cpu_count Hasc Hin).
  pose proof (length_cpus_of l (-1) Hasc). lia.
Qed.

(** X4.  On an ascending list [count_cpus] returns -1 exactly when some
    interval reaches beyond the last CPU of the machine; otherwise it
    returns the number of CPUs the list covers, each counted once, which
    is at most [cpu_count]. *)
Theorem count_cpus_ascending :
  forall cpu_count l,
    0 <= cpu_count ->
    ascending (-1) l ->
    (count_cpus cpu_count l = -1 <-> Exists (fun c => cpu_count <= end_cpu c) l)
    /\ (Forall (fun c => end_cpu c < cpu_count) l ->
        count_cpus cpu_count l = Z.of_nat (List.length (cpus_of l))
        /\ NoDup (cpus_of l)
        /\ (forall x, In x (cpus_of l) <-> covered l x)
        /\ 0 <= count_cpus cpu_count l <= cpu_count).
Proof.
  intros cpu_count l Hcount Hasc. split.
  - unfold count_cpus. rewrite count_cpus_loop_spec. cbn [orb]. rewrite Z.add_0_l.
    rewrite <- (length_cpus_of l (-1) Hasc).
    destruct (existsb (reaches cpu_count) l) eqn:E.
    + split; [intros _ | reflexivity].
      apply existsb_exists in E. apply Exists_exists.
      destruct E as [c [Hin Hc]]. exists c. split; [exact Hin|].
      apply Z.leb_le, Hc.
    + split; [lia|]. intro Hex. exfalso. apply Exists_exists in Hex.
      destruct Hex as [c [Hin Hc]].
      assert (existsb (reaches cpu_count) l = true); [|congruence].
      apply existsb_exists. exists c. split; [exact Hin | apply Z.leb_le, Hc].
  - intro Hin.
    destruct (count_cpus_in_range cpu_count l Hcount Hasc Hin) as [Hn Hr].
    split; [exact Hn|]. split; [apply (NoDup_cpus_of l (-1) Hasc)|].
    split; [apply In_cpus_of | exact Hr].
Qed.

Lemma count_cpus_ascending_witness :
  count_cpus 8 [mk_cpu 0 0; mk_cpu 2 5]
  = Z.of_nat (List.length (cpus_of [mk_cpu 0 0; mk_cpu 2 5]))
  /\ 0 <= count_cpus 8 [mk_cpu 0 0; mk_cpu 2 5] <= 8.
Proof.
  assert (Hasc : ascending (-1) [mk_cpu 0 0; mk_cpu 2 5]) by (cbn; lia).
  assert (Hin : Forall (fun c => end_cpu c < 8) [mk_cpu 0 0; mk_cpu 2 5])
    by (repeat constructor; cbn; lia).
  pose proof (proj2 (count_cpus_ascending 8 [mk_cpu 0 0; mk_cpu 2 5] ltac:(lia) Hasc) Hin)
    as H.
  split; [exact (proj1 H) | exact (proj2 (proj2 (proj2 H)))].
Defined.

Lemma length_append :
  forall a b : string, String.length (a ++ b) = (String.length a + String.length b)%nat.
Proof. induction a as [|x a IH]; intro b; cbn; [reflexivity | rewrite IH; reflexivity]. Qed.

Lemma length_token : forall iv, 0 <= fst iv -> (1 <= String.length (token iv))%nat.
Proof.
  intros [s e] Hs. cbn [fst] in Hs. unfold token. cbn [fst snd].
  pose proof (fmt_d_digit_ahead s "" Hs) as H. rewrite append_nil_r in H.
  destruct (s =? e); [|rewrite length_append];
    destruct (fmt_d s); try (destruct H); cbn [String.length]; lia.
Qed.

Lemma length_expression :
  forall ivs, Forall int_interval ivs ->
    (List.length ivs <= String.length (expression ivs))%nat.
Proof.
  induction ivs as [|iv r IH]; intro H; [cbn; lia|].
  inversion_clear H as [|? ? H1 H2]. specialize (IH H2).
  cbn [expression List.length]. rewrite length_append.
  pose proof (length_token iv ltac:(destruct H1; lia)).
  destruct r as [|iv' r]; [cbn in *; lia|].
  change (String.length ("," ++ expression (iv' :: r))) with (S (String.length (expression (iv' :: r)))).
  cbn [List.length] in *. lia.
Qed.

Lemma make_other_cpu_list_loop_token :
  forall cpu_count fuel iv tail curr comma cpus,
    int_interval iv ->
    tail = EmptyString \/ is_char "," tail = true ->
    curr < cpu_count ->
    make_other_cpu_list_loop cpu_count (S fuel) (token iv ++ tail) curr comma cpus =
    make_other_cpu_list_loop cpu_count fuel (advance tail) (snd iv + 1)
      (if curr <? fst iv then "," else comma)
      (if curr <? fst iv
       then Some (append_cpus (buf_text cpus) curr (fst iv - 1) comma) else cpus).
Proof.
  intros cpu_count fuel [s e] tail curr comma cpus [[Hs Hse] He] Htail Hcurr.
  cbn [fst snd] in *.
  assert (Hnd : no_digit_ahead tail).
  { destruct Htail as [-> | H]; [exact I|].
    destruct (is_char_inv _ _ H) as [r ->]. reflexivity. }
  assert (Hminus : is_char "-" tail = false).
  { destruct Htail as [-> | H]; [reflexivity|].
    destruct (is_char_inv _ _ H) as [r ->]. reflexivity. }
  assert (H : digit_ahead (token (s, e) ++ tail)).
  { unfold token. cbn [fst snd]. destruct (s =? e); rewrite ?append_assoc;
      apply fmt_d_digit_ahead; lia. }
  remember (token (s, e) ++ tail)%string as p eqn:Hp.
  destruct p as [|c0 r0]; [destruct H|]. clear H.
  cbn [make_other_cpu_list_loop deref]. rewrite Hp. clear Hp c0 r0.
  apply Z.ltb_lt in Hcurr. rewrite Hcurr. cbn [negb].
  unfold token. cbn [fst snd].
  destruct (s =? e) eqn:Ese.
  - apply Z.eqb_eq in Ese. subst e.
    rewrite (atoi_fmt_d s tail) by (auto; lia).
    destruct (fmt_d_digits s tail Hs Hnd) as [_ ->].
    rewrite Hminus. destruct (curr <? s); reflexivity.
  - rewrite append_assoc.
    change (("-" ++ fmt_d e) ++ tail)%string with (String "-" (fmt_d e ++ tail)).
    rewrite (atoi_fmt_d s) by (try reflexivity; lia).
    destruct (fmt_d_digits s (String "-" (fmt_d e ++ tail)) Hs eq_refl) as [_ ->].
    change (is_char "-" (String "-" (fmt_d e ++ tail))) with true. cbv iota.
    cbn [advance].
    rewrite (atoi_fmt_d e tail) by (auto; lia).
    destruct (fmt_d_digits e tail ltac:(lia) Hnd) as [_ ->].
    destruct (curr <? s); reflexivity.
Qed.

Lemma make_other_cpu_list_loop_gaps :
  forall cpu_count l fuel curr comma cpus,
    cpu_count - 1 <= INT_MAX ->
    0 <= curr ->
    ascending (curr - 1) l ->
    Forall (fun c => end_cpu c < cpu_count) l ->
    (List.length l <= fuel)%nat ->
    exists st,
      make_other_cpu_list_loop cpu_count fuel (expression (map interval_of l)) curr comma cpus
      = Some st
      /\ finish_other cpu_count st = make_new_list_loop (gaps cpu_count curr l) cpus comma.
Proof.
  intros cpu_count. induction l as [|c r IH]; intros fuel curr comma cpus Hmax Hcurr Hasc Hin Hfuel.
  - exists (curr, comma, cpus). split; [destruct fuel; reflexivity|].
    cbn [finish_other gaps]. destruct (curr <? cpu_count); reflexivity.
  - cbn in Hasc. destruct Hasc as [H1 [H2 H3]]. inversion_clear Hin as [|? ? Hc Hr].
    destruct fuel as [|fuel]; [cbn in Hfuel; lia|].
    cbn [map]. destruct (expression_cons (interval_of c) (map interval_of r))
      as [tail [-> [Htail Hadv]]].
    rewrite make_other_cpu_list_loop_token;
      [| unfold int_interval, interval_of; cbn [fst snd]; lia | exact Htail | lia].
    rewrite Hadv. unfold interval_of at 1 2 3 4. cbn [fst snd].
    destruct (IH fuel (end_cpu c + 1)
                (if curr <? start_cpu c then ","%string else comma)
                (if curr <? start_cpu c
                 then Some (append_cpus (buf_text cpus) curr (start_cpu c - 1) comma)
                 else cpus)) as [st [Hst Hfin]];
      [exact Hmax | lia | apply (ascending_weaken r (end_cpu c + 1)); [lia | exact H3]
       | exact Hr | cbn in Hfuel; lia |].
    exists st. split; [exact Hst|]. rewrite Hfin.
    cbn [gaps]. destruct (curr <? start_cpu c); reflexivity.
Qed.

Lemma gaps_spec :
  forall cpu_count l from,
    ascending (from - 1) l ->
    Forall (fun c => end_cpu c < cpu_count) l ->
    ascending (from - 1) (gaps cpu_count from l)
    /\ Forall (fun c => end_cpu c < cpu_count) (gaps cpu_count from l)
    /\ forall x, covered (gaps cpu_count from l) x <-> from <= x < cpu_count /\ ~ covered l x.
Proof.
  intros cpu_count. induction l as [|c r IH]; intros from Hasc Hin.
  - cbn [gaps]. destruct (from <? cpu_count) eqn:E;
      [apply Z.ltb_lt in E | apply Z.ltb_ge in E].
    + split; [cbn; lia|]. split; [constructor; [cbn; lia | constructor]|].
      intro x. rewrite covered_cons. cbn [start_cpu end_cpu]. split.
      * intros [Hx | [c [[] _]]]. split; [lia|]. intros [c [[] _]].
      * intros [Hx _]. left. lia.
    + split; [exact I|]. split; [constructor|]. intro x. split.
      * intros [c [[] _]].
      * intros [Hx _]. lia.
  - cbn in Hasc. destruct Hasc as [H1 [H2 H3]]. inversion_clear Hin as [|? ? Hc Hr].
    destruct (IH (end_cpu c + 1)) as [Ha [Hb Hcov]];
      [replace (end_cpu c + 1 - 1) with (end_cpu c) by lia;
       apply (ascending_weaken r (end_cpu c + 1)); [lia | exact H3] | exact Hr |].
    replace (end_cpu c + 1 - 1) with (end_cpu c) in Ha by lia.
    cbn [gaps].
    assert (Hrest : forall x, covered r x -> end_cpu c + 1 < x).
    { intros x Hx. apply (covered_above r _ x H3 Hx). }
    destruct (from <? start_cpu c) eqn:E;
      [apply Z.ltb_lt in E | apply Z.ltb_ge in E]; cbn [app].
    + split; [|split].
      * cbn. repeat split; [lia | lia |].
        apply (ascending_weaken _ (end_cpu c)); [lia | exact Ha].
      * constructor; [cbn; lia | exact Hb].
      * intro x. rewrite !covered_cons, Hcov. cbn [start_cpu end_cpu]. split.
        -- intros [Hx | [Hx Hn]].
           ++ split; [lia|]. intros [Hx' | Hx']; [lia|]. specialize (Hrest x Hx'). lia.
           ++ split; [lia|]. intros [Hx' | Hx']; [lia | auto].
        -- intros [Hx Hn].
           destruct (Z_lt_ge_dec x (start_cpu c)); [left; lia | right].
           split; [|tauto].
           destruct (Z_le_gt_dec x (end_cpu c)); [exfalso; apply Hn; left; lia | lia].
    + split; [|split].
      * apply (ascending_weaken _ (end_cpu c)); [lia | exact Ha].
      * exact Hb.
      * intro x. rewrite covered_cons, Hcov. split.
        -- intros [Hx Hn]. split; [lia|]. intros [Hx' | Hx']; [lia | auto].
        -- intros [Hx Hn]. split; [|tauto].
           destruct (Z_le_gt_dec x (end_cpu c)); [exfalso; apply Hn; left; lia | lia].
Qed.

(** The text that [make_other_cpu_list] makes of the rendering of an
    ascending list is the rendering of the gaps of the list. *)
Lemma make_other_cpu_list_gaps :
  forall cpu_count l,
    cpu_count - 1 <= INT_MAX ->
    ascending (-1) l ->
    Forall (fun c => end_cpu c < cpu_count) l ->
    make_other_cpu_list cpu_count (buf_text (make_new_list l))
    = Some (make_new_list (gaps cpu_count 0 l)).
Proof.
  intros cpu_count l Hmax Hasc Hin.
  unfold make_other_cpu_list. rewrite buf_text_make_new_list.
  destruct (make_other_cpu_list_loop_gaps cpu_count l
              (String.length (expression (map interval_of l))) 0 "" None)
    as [[[curr comma] cpus] [-> Hfin]]; try assumption; try lia.
  - pose proof (length_expression (map interval_of l)) as H.
    rewrite length_map in H. apply H.
    apply (ascending_int_intervals l (-1)); [lia | exact Hasc|].
    eapply Forall_impl; [|exact Hin]. cbn beta. intros c Hc. lia.
  - unfold finish_other in Hfin. rewrite Hfin. reflexivity.
Qed.

(** X5.  The complement: for the rendering of an ascending list of CPUs
    of the machine, [make_other_cpu_list] produces the rendering of an
    ascending list that covers exactly the CPUs of the machine that the
    first list leaves out. *)
Theorem make_other_cpu_list_complement :
  forall cpu_count l,
    cpu_count - 1 <= INT_MAX ->
    ascending (-1) l ->
    Forall (fun c => end_cpu c < cpu_count) l ->
    make_other_cpu_list cpu_count (buf_text (make_new_list l))
    = Some (make_new_list (gaps cpu_count 0 l))
    /\ ascending (-1) (gaps cpu_count 0 l)
    /\ forall x, covered (gaps cpu_count 0 l) x <-> 0 <= x < cpu_count /\ ~ covered l x.
Proof.
  intros cpu_count l Hmax Hasc Hin.
  destruct (gaps_spec cpu_count l 0 Hasc Hin) as [Ha [_ Hcov]].
  split; [|split; [exact Ha | exact Hcov]].
  apply make_other_cpu_list_gaps; assumption.
Qed.

Lemma make_other_cpu_list_complement_witness :
  make_other_cpu_list 8 (buf_text (make_new_list [mk_cpu 0 0; mk_cpu 2 5]))
  = Some (make_new_list (gaps 8 0 [mk_cpu 0 0; mk_cpu 2 5])).
Proof.
  apply (make_other_cpu_list_complement 8 [mk_cpu 0 0; mk_cpu 2 5]).
  - unfold INT_MAX. lia.
  - cbn. lia.
  - repeat constructor; cbn; lia.
Defined.





(** The last token of a text, followed by something that is neither a
    digit, a '-' nor a ',': [p] stops right behind the token. *)
Lemma calc_nr_cpus_loop_last_token :
  forall fuel iv tail l,
    int_interval iv ->
    no_digit_ahead tail -> is_char "-" tail = false -> is_char "," tail = false ->
    calc_nr_cpus_loop (S fuel) (token iv ++ tail) l =
    calc_nr_cpus_loop fuel tail (add_cpus l (fst iv) (snd iv)).
Proof.
  intros fuel [s e] tail l [[Hs Hse] He] Hnd Hminus Hcomma. cbn [fst snd] in *.
  unfold token. cbn [fst snd].
  destruct (s =? e) eqn:Ese.
  - apply Z.eqb_eq in Ese. subst e.
    rewrite calc_nr_cpus_loop_unfold
      by (apply digit_ahead_nonempty, fmt_d_digit_ahead; lia).
    cbv zeta. rewrite (atoi_fmt_d s tail) by (auto; lia).
    destruct (fmt_d_digits s tail Hs Hnd) as [_ ->].
    replace (s <? 0) with false by (symmetry; apply Z.ltb_ge; lia).
    assert (Hz : (s =? 0) && negb (is_char "0" (fmt_d s ++ tail)) = false).
    { destruct (s =? 0) eqn:E0; [|reflexivity].
      apply Z.eqb_eq in E0. subst s. reflexivity. }
    rewrite Hz. cbn [orb]. rewrite Hminus, Hcomma. reflexivity.
  - apply Z.eqb_neq in Ese.
    rewrite append_assoc.
    rewrite calc_nr_cpus_loop_unfold
      by (apply digit_ahead_nonempty, fmt_d_digit_ahead; lia).
    change (("-" ++ fmt_d e) ++ tail)%string with (String "-" (fmt_d e ++ tail)).
    cbv zeta.
    rewrite (atoi_fmt_d s) by (try reflexivity; lia).
    destruct (fmt_d_digits s (String "-" (fmt_d e ++ tail)) Hs eq_refl) as [_ ->].
    replace (s <? 0) with false by (symmetry; apply Z.ltb_ge; lia).
    assert (Hz : (s =? 0) && negb (is_char "0" (fmt_d s ++ String "-" (fmt_d e ++ tail))) = false).
    { destruct (s =? 0) eqn:E0; [|reflexivity].
      apply Z.eqb_eq in E0. subst s. reflexivity. }
    rewrite Hz. cbn [orb].
    change (is_char "-" (String "-" (fmt_d e ++ tail))) with true. cbv iota.
    cbn [advance].
    rewrite (atoi_fmt_d e tail) by (auto; lia).
    destruct (fmt_d_digits e tail ltac:(lia) Hnd) as [_ ->].
    replace (e <? s) with false by (symmetry; apply Z.ltb_ge; lia).
    replace (e =? 0) with false by (symmetry; apply Z.eqb_neq; lia).
    cbn [orb andb]. rewrite Hcomma. reflexivity.
Qed.

(** X3.  A blank where a comma should be hangs the parser: on a
    well-formed list followed by a blank and a positive number the loop of
    [calc_nr_cpus] never ends, whatever the fuel.  At the blank [atoi]
    skips it and reads the number, and nothing moves [p]. *)
Theorem calc_nr_cpus_blank_hangs :
  forall cpu_count fuel ivs n rest,
    Forall int_interval ivs ->
    0 < n <= INT_MAX -> no_digit_ahead rest ->
    calc_nr_cpus cpu_count fuel (expression ivs ++ " " ++ fmt_d n ++ rest) = None.
Proof.
  intros cpu_count fuel ivs n rest Hivs Hn Hrest.
  unfold calc_nr_cpus.
  set (junk := (" " ++ fmt_d n ++ rest)%string).
  assert (Hstuck : forall fuel l, calc_nr_cpus_loop fuel junk l = None).
  { intros f l. apply calc_nr_cpus_loop_stuck; try reflexivity; try discriminate.
    change (atoi junk) with (atoi (fmt_d n ++ rest)).
    rewrite atoi_fmt_d by (auto; lia). lia. }
  assert (Hj1 : no_digit_ahead junk) by reflexivity.
  assert (Hj2 : is_char "-" junk = false) by reflexivity.
  assert (Hj3 : is_char "," junk = false) by reflexivity.
  assert (H : forall l, calc_nr_cpus_loop fuel (expression ivs ++ junk) l = None);
    [|rewrite H; reflexivity].
  clearbody junk. revert fuel.
  induction ivs as [|iv r IH]; intros fuel l; [apply Hstuck|].
  inversion_clear Hivs as [|? ? H1 H2].
  destruct (expression_cons iv r) as [tail [-> [Htail Hadv]]].
  rewrite append_assoc.
  destruct fuel as [|fuel].
  { assert (Hd : digit_ahead (token iv ++ tail ++ junk)).
    { unfold token. destruct (fst iv =? snd iv); rewrite ?append_assoc;
        apply fmt_d_digit_ahead; destruct H1; lia. }
    destruct (token iv ++ tail ++ junk)%string; [destruct Hd | reflexivity]. }
  destruct Htail as [-> | Hc].
  - cbn [String.append].
    rewrite calc_nr_cpus_loop_last_token by assumption.
    apply Hstuck.
  - destruct (is_char_inv _ _ Hc) as [t ->].
    rewrite calc_nr_cpus_loop_token; [| exact H1 | right; reflexivity].
    cbn [String.append advance]. cbn [advance] in Hadv. rewrite Hadv.
    apply IH. exact H2.
Qed.

Lemma calc_nr_cpus_blank_hangs_witness :
  calc_nr_cpus 8 1000 (expression [(0, 0); (2, 4)] ++ " " ++ fmt_d 7 ++ ",1") = None.
Proof.
  apply (calc_nr_cpus_blank_hangs 8 1000 [(0, 0); (2, 4)] 7 ",1").
  - repeat constructor; cbn; unfold INT_MAX; lia.
  - unfold INT_MAX. lia.
  - reflexivity.
Defined.

(* ================================================================= *)
(** ** The affinity arguments of [main] *)

(** X9.  Without a CPU list on the command line the program runs on all
    CPUs: [nr_cpus] is [cpu_count], so [all_cpus] is set, and the branch
    that would choose the last CPU as the default is never taken; no
    cpuset text is made. *)
Theorem main_affinity_default :
  forall cpu_count fuel nr_threads all_cpus,
    main_affinity cpu_count fuel nr_threads all_cpus None
    = Some (Affinity (mk_affinity (if nr_threads =? 0 then 1 else nr_threads)
                                  cpu_count true None None)).
Proof.
  intros. unfold main_affinity, main_affinity_rest.
  rewrite Z.eqb_refl, orb_true_r. reflexivity.
Qed.

(** X10.  The affinity set-up of [main] on the rendering of an ascending
    list of CPUs of the machine: the list is accepted, [nr_cpus] is the
    number of CPUs it covers, [all_cpus] is set when that is every CPU,
    [setcpu] is the same text again, and [allcpu_buf] is the rendering of
    the CPUs left out ([NULL] for the empty list). *)
Theorem main_affinity_ascending :
  forall cpu_count l fuel nr_threads all_cpus,
    0 <= cpu_count -> cpu_count - 1 <= INT_MAX ->
    ascending (-1) l ->
    Forall (fun c => end_cpu c < cpu_count) l ->
    (List.length l <= fuel)%nat ->
    main_affinity cpu_count fuel nr_threads all_cpus (Some (buf_text (make_new_list l)))
    = Some (Affinity
              (mk_affinity (if nr_threads =? 0 then 1 else nr_threads)
                           (Z.of_nat (List.length (cpus_of l)))
                           (all_cpus || (cpu_count =? Z.of_nat (List.length (cpus_of l))))
                           (make_new_list l)
                           (match l with
                            | [] => None
                            | _ => make_new_list (gaps cpu_count 0 l)
                            end))).
Proof.
  intros cpu_count l fuel nr_threads all_cpus Hcount Hmax Hasc Hin Hfuel.
  unfold main_affinity, calc_nr_cpus.
  assert (Hint : Forall (fun c => end_cpu c <= INT_MAX) l).
  { eapply Forall_impl; [|exact Hin]. cbn beta. intros c Hc. lia. }
  rewrite (calc_nr_cpus_loop_rendered l fuel Hasc Hint Hfuel).
  destruct (count_cpus_in_range cpu_count l Hcount Hasc Hin) as [Hn Hr].
  rewrite Hn in *.
  replace (Z.of_nat (List.length (cpus_of l)) <? 0) with false
    by (symmetry; apply Z.ltb_ge; lia).
  replace (cpu_count <? Z.of_nat (List.length (cpus_of l))) with false
    by (symmetry; apply Z.ltb_ge; lia).
  cbn [orb]. unfold main_affinity_rest. rewrite andb_false_r.
  destruct l as [|c r]; [reflexivity|].
  rewrite make_new_list_text.
  pose proof (make_other_cpu_list_gaps cpu_count (c :: r) Hmax Hasc Hin) as Hg.
  rewrite buf_text_make_new_list in Hg. rewrite Hg. reflexivity.
Qed.

Lemma main_affinity_ascending_witness :
  main_affinity 8 2 0 false (Some (buf_text (make_new_list [mk_cpu 0 0; mk_cpu 2 5])))
  = Some (Affinity
            (mk_affinity 1 (Z.of_nat (List.length (cpus_of [mk_cpu 0 0; mk_cpu 2 5])))
               (false || (8 =? Z.of_nat (List.length (cpus_of [mk_cpu 0 0; mk_cpu 2 5]))))
               (make_new_list [mk_cpu 0 0; mk_cpu 2 5])
               (make_new_list (gaps 8 0 [mk_cpu 0 0; mk_cpu 2 5])))).
Proof.
  apply (main_affinity_ascending 8 [mk_cpu 0 0; mk_cpu 2 5] 2 0 false).
  - lia.
  - unfold INT_MAX. lia.
  - cbn. lia.
  - repeat constructor; cbn; lia.
  - cbn. lia.
Defined.

(* ================================================================= *)
(** ** The set-up loop of [main] *)

Lemma main_setup_loop_hr_set :
  forall body clock n t interval step percent,
    main_setup_loop_hr body clock n t true interval step percent
    = main_setup_loop true clock n t interval step percent.
Proof.
  intros body clock n. induction n as [|n IH]; intros t interval step percent;
    [reflexivity|].
  cbn [main_setup_loop_hr main_setup_loop setup_hr_tick].
  rewrite andb_false_r.
  destruct (runtime_of interval percent <? 2000); cbn [negb];
    rewrite IH; reflexivity.
Qed.

(** X13.  [setup_hr_tick] answers with what its body returns on the
    first call only and with 1 ever after, and [main] stops at an answer
    of 0: the set-up loop with the calls as [main] makes them, starting
    with the flag clear, behaves as the loop that is given the first
    answer once and for all. *)
Theorem setup_hr_tick_asked_once :
  forall body clock n t interval step percent,
    main_setup_loop_hr body clock n t false interval step percent
    = main_setup_loop body clock n t interval step percent.
Proof.
  intros body clock n. induction n as [|n IH]; intros t interval step percent;
    [reflexivity|].
  cbn [main_setup_loop_hr main_setup_loop setup_hr_tick].
  destruct (runtime_of interval percent <? 2000) eqn:E; cbn [andb negb].
  - destruct body eqn:Eb; cbn [negb]; [|reflexivity].
    rewrite main_setup_loop_hr_set. reflexivity.
  - rewrite IH. reflexivity.
Qed.

(** X11.  The set-up loop of [main] runs to its end exactly when every
    slot passes both of its tests: the runtime is at least 2000 us or
    HRTICK could be set up, and the calibration call took no longer than
    the runtime of the slot. *)
Theorem main_setup_loop_ok_iff :
  forall hr clock n t interval step percent,
    (exists sds, main_setup_loop hr clock n t interval step percent = Ok sds)
    <-> forall i, (i < n)%nat -> slot_ok hr clock t interval step percent i.
Proof.
  intros hr clock n. induction n as [|n IH]; intros t interval step percent.
  - split; [intros _ i Hi; lia | intros _; exists []; reflexivity].
  - cbn [main_setup_loop].
    specialize (IH (S (S (S t))) (to_uint (interval + step)) step percent).
    split.
    + intros [sds H] i Hi.
      destruct ((runtime_of interval percent <? 2000) && negb hr) eqn:E1; [discriminate H|].
      destruct (runtime_of interval percent <? to_u64 (clock (S (S t)) - clock t)) eqn:E2;
        [discriminate H|].
      destruct (main_setup_loop hr clock n (S (S (S t))) (to_uint (interval + step)) step percent)
        as [rest|why] eqn:E3; [|discriminate H].
      destruct i as [|i].
      * unfold slot_ok. cbn [interval_at]. rewrite Nat.mul_0_r, !Nat.add_0_r.
        replace (t + 2)%nat with (S (S t)) by lia.
        apply Z.ltb_ge in E2. split; [|exact E2].
        apply andb_false_iff in E1. destruct E1 as [E1 | E1].
        -- left. apply Z.ltb_ge in E1. exact E1.
        -- right. destruct hr; [reflexivity | discriminate E1].
      * assert (Hs : slot_ok hr clock (S (S (S t))) (to_uint (interval + step)) step percent i).
        { apply (proj1 IH); [eexists; reflexivity | lia]. }
        unfold slot_ok in *. cbn [interval_at].
        replace (t + 3 * S i + 2)%nat with (S (S (S t)) + 3 * i + 2)%nat by lia.
        replace (t + 3 * S i)%nat with (S (S (S t)) + 3 * i)%nat by lia.
        exact Hs.
    + intro H.
      destruct (H 0%nat ltac:(lia)) as [H1 H2]. unfold slot_ok in H1, H2.
      cbn [interval_at] in H1, H2. rewrite Nat.mul_0_r, !Nat.add_0_r in H2.
      replace (t + 2)%nat with (S (S t)) in H2 by lia.
      assert (E1 : (runtime_of interval percent <? 2000) && negb hr = false).
      { destruct H1 as [H1 | ->]; [|apply andb_false_r].
        apply andb_false_iff. left. apply Z.ltb_ge. exact H1. }
      rewrite E1.
      replace (runtime_of interval percent <? to_u64 (clock (S (S t)) - clock t))
        with false by (symmetry; apply Z.ltb_ge; exact H2).
      destruct (proj2 IH) as [rest ->]; [|eexists; reflexivity].
      intros i Hi. specialize (H (S i) ltac:(lia)).
      unfold slot_ok in *. cbn [interval_at] in H.
      replace (t + 3 * S i + 2)%nat with (S (S (S t)) + 3 * i + 2)%nat in H by lia.
      replace (t + 3 * S i)%nat with (S (S (S t)) + 3 * i)%nat in H by lia.
      exact H.
Qed.

(** X12.  With an interval below 2500 us (the default is 1000) the
    runtime of the first slot is below 2 ms whatever the number of threads
    and CPUs, so without HRTICK [main] stops with the HRTICK message
    before it creates any thread. *)
Theorem main_setup_needs_hrtick :
  forall clock nr_threads nr_cpus interval step,
    1 <= nr_threads -> 0 <= nr_cpus ->
    0 <= interval < 2500 ->
    main_setup false clock nr_threads nr_cpus interval step = Fatal NeedHrtick.
Proof.
  intros clock nr_threads nr_cpus interval step Ht Hc Hi.
  unfold main_setup.
  destruct (Z.to_nat nr_threads) as [|n] eqn:En; [lia|].
  cbn [main_setup_loop].
  assert (Hp : 0 <= duty_percent nr_threads nr_cpus <= 80).
  { unfold duty_percent. destruct (nr_cpus <? nr_threads) eqn:E; [|lia].
    apply Z.ltb_lt in E. rewrite Z.quot_div_nonneg by lia.
    split; [apply Z.div_pos; lia|].
    apply Z.div_le_upper_bound; nia. }
  assert (Hr : runtime_of interval (duty_percent nr_threads nr_cpus) < 2000).
  { rewrite runtime_of_exact by (unfold UINT_MOD; nia).
    apply Z.div_lt_upper_bound; nia. }
  apply Z.ltb_lt in Hr. rewrite Hr. reflexivity.
Qed.

Lemma main_setup_needs_hrtick_witness :
  main_setup false (fun _ => 0) 1 8 1000 500 = Fatal NeedHrtick.
Proof.
  apply (main_setup_needs_hrtick (fun _ => 0) 1 8 1000 500); lia.
Defined.

(** X14.  The schedule that [main] builds is admissible: each worker
    asks for at most 80 percent of its period, and the workers together
    for at most eight tenths of [nr_cpus] CPUs, whether there are more
    threads than CPUs or not. *)
Theorem utilization_admissible :
  forall hr clock nr_threads nr_cpus interval step sds,
    0 <= nr_cpus -> 0 <= interval ->
    main_setup hr clock nr_threads nr_cpus interval step = Ok sds ->
    Forall (fun sd => 100 * runtime_us sd <= 80 * deadline_us sd) sds
    /\ (utilization sds <= (8 # 10) * inject_Z nr_cpus)%Q.
Proof.
  intros hr clock nr_threads nr_cpus interval step sds Hc Hi Hok.
  unfold main_setup in Hok.
  set (p := duty_percent nr_threads nr_cpus) in *.
  assert (Hp : 0 <= p <= 80
               /\ Z.of_nat (Z.to_nat nr_threads) * p <= nr_cpus * 80).
  { unfold p, duty_percent. destruct (nr_cpus <? nr_threads) eqn:E.
    - apply Z.ltb_lt in E. rewrite Z.quot_div_nonneg by lia.
      pose proof (Z.mul_div_le (nr_cpus * 80) nr_threads ltac:(lia)).
      assert (0 <= nr_cpus * 80 / nr_threads) by (apply Z.div_pos; lia).
      assert (nr_cpus * 80 / nr_threads < 80) by (apply Z.div_lt_upper_bound; lia).
      rewrite Z2Nat.id by lia. lia.
    - apply Z.ltb_ge in E. split; [lia|].
      destruct (Z_le_gt_dec nr_threads 0) as [H0 | H0].
      + replace (Z.to_nat nr_threads) with 0%nat by lia. cbn. lia.
      + rewrite Z2Nat.id by lia. lia. }
  destruct Hp as [Hp Hsum].
  destruct (main_setup_loop_slots _ _ _ _ _ _ _ _ Hok) as [Hlen Hslots].
  assert (Hall : Forall (fun sd => 0 <= deadline_us sd /\ 0 <= runtime_us sd
                                   /\ 100 * runtime_us sd <= deadline_us sd * p) sds).
  { apply Forall_forall. intros sd Hin.
    destruct (In_nth_error _ _ Hin) as [i Hnth].
    rewrite (Hslots i sd Hnth). cbn [deadline_us runtime_us].
    pose proof (interval_at_nonneg i interval step Hi) as Hd.
    assert (Hpu : 0 <= p < UINT_MOD) by (unfold UINT_MOD; lia).
    destruct (runtime_share (interval_at i interval step) p Hd Hpu) as [Hr Hs].
    repeat split; assumption. }
  split.
  - eapply Forall_impl; [|exact Hall]. cbn beta. intros sd [Hd [Hr Hs]]. nia.
  - eapply Qle_trans; [apply (utilization_bound sds p (proj1 Hp) Hall)|].
    rewrite Hlen.
    unfold Qle, Qdiv, Qmult, Qinv, inject_Z. cbn [Qnum Qden]. lia.
Qed.

Lemma utilization_admissible_witness :
  exists sds,
    main_setup true (fun _ => 0) 2 8 1000 500 = Ok sds
    /\ (utilization sds <= (8 # 10) * inject_Z 8)%Q.
Proof.
  eexists. split; [reflexivity|].
  exact (proj2 (utilization_admissible true (fun _ => 0) 2 8 1000 500 _
                  ltac:(lia) ltac:(lia) eq_refl)).
Defined.

(* ================================================================= *)
(** ** The statistics of a run *)

Lemma true_max_ge :
  forall l x, In x l -> x <= true_max l.
Proof.
  intros l x. unfold true_max.
  assert (H : forall l a, a <= fold_left Z.max l a
                          /\ (In x l -> x <= fold_left Z.max l a)).
  { induction l0 as [|y l0 IH]; intro a; cbn [fold_left].
    - split; [lia | intros []].
    - destruct (IH (Z.max a y)) as [H1 H2]. split; [lia|].
      intros [-> | Hin]; [lia | auto]. }
  apply H.
Qed.

(** X15.  After any non-empty run of latencies below 2^63 the three
    latencies of a status line are in order: [act] is the latency of the
    last cycle, [min <= act <= max], and no recorded latency exceeds
    [max]. *)
Theorem latencies_ordered :
  forall diffs,
    diffs <> [] ->
    Forall (fun d => 0 <= d < 2 ^ 63) diffs ->
    act (run_latencies diffs) = last diffs 0
    /\ min (run_latencies diffs) <= act (run_latencies diffs)
       <= max (run_latencies diffs)
    /\ Forall (fun d => d <= max (run_latencies diffs)) diffs.
Proof.
  intros diffs Hne H.
  destruct (min_run_latencies diffs H) as [Hmin Hpos].
  destruct (max_run_latencies diffs H) as [Hmax _].
  destruct (exists_last Hne) as [l [d ->]].
  assert (Hd : 0 <= d < 2 ^ 63).
  { apply Forall_app in H. destruct H as [_ H]. inversion_clear H. assumption. }
  assert (Hact : act (run_latencies (l ++ [d])) = d).
  { rewrite run_latencies_snoc. unfold record_latency. cbn [act].
    apply to_long_small, Hd. }
  rewrite last_last, Hact, Hmin, Hmax.
  split; [reflexivity|]. split; [split|].
  - rewrite since_last_zero_snoc. destruct (d =? 0) eqn:E.
    + apply Z.eqb_eq in E. subst d. cbn. lia.
    + apply true_min_le, in_or_app. right. left. reflexivity.
  - apply true_max_ge, in_or_app. right. left. reflexivity.
  - apply Forall_forall. intros x Hx. apply true_max_ge, Hx.
Qed.

(** X16.  No drift: as long as every cycle starts at or after its period
    boundary, the boundaries stay on the grid [period + k * deadline] of
    the first one, however late the cycles are, and the latency of cycle
    [k] is the distance of its clock reading from boundary [k]. *)
Theorem worker_latencies_on_time :
  forall nows deadline period,
    0 <= deadline -> 0 <= period ->
    period + Z.of_nat (List.length nows) * deadline < U64_MOD ->
    (forall k now, nth_error nows k = Some now ->
                   period + Z.of_nat k * deadline <= now < U64_MOD) ->
    forall k now, nth_error nows k = Some now ->
      nth_error (worker_latencies nows deadline period) k
      = Some (now - (period + Z.of_nat k * deadline)).
Proof.
  induction nows as [|n0 nows IH]; intros deadline period Hd Hp Hlen Hon k now Hk.
  - destruct k; discriminate Hk.
  - cbn [worker_latencies].
    pose proof (Hon 0%nat n0 eq_refl) as H0. change (Z.of_nat 0) with 0 in H0.
    assert (Hadj : adjust_period n0 period = period).
    { unfold adjust_period. destruct (n0 <? period) eqn:E; [apply Z.ltb_lt in E; lia | reflexivity]. }
    rewrite Hadj. cbn [List.length] in Hlen.
    destruct k as [|k].
    + cbn in Hk. inversion Hk. subst now. cbn [nth_error].
      rewrite to_u64_small by lia. f_equal. lia.
    + cbn [nth_error] in *.
      rewrite (to_u64_small (period + deadline)) by nia.
      rewrite (IH deadline (period + deadline) Hd ltac:(lia) ltac:(nia)) with (now := now).
      * f_equal. lia.
      * intros j x Hj. specialize (Hon (S j) x Hj). lia.
      * exact Hk.
Qed.

Lemma latencies_ordered_witness :
  act (run_latencies [5; 0; 7]) = last [5; 0; 7] 0
  /\ min (run_latencies [5; 0; 7]) <= act (run_latencies [5; 0; 7])
     <= max (run_latencies [5; 0; 7]).
Proof.
  assert (H : Forall (fun d => 0 <= d < 2 ^ 63) [5; 0; 7])
    by (repeat constructor; lia).
  pose proof (latencies_ordered [5; 0; 7] ltac:(discriminate) H) as L.
  split; [exact (proj1 L) | exact (proj1 (proj2 L))].
Defined.

Lemma worker_latencies_on_time_witness :
  nth_error (worker_latencies [1003; 2001; 3250] 1000 1000) 2
  = Some (3250 - (1000 + Z.of_nat 2 * 1000)).
Proof.
  apply (worker_latencies_on_time [1003; 2001; 3250] 1000 1000).
  - lia.
  - lia.
  - unfold U64_MOD. cbn [List.length]. lia.
  - intros k now H. destruct k as [|[|[|k]]]; cbn [nth_error] in H;
      try (destruct k; discriminate H); inversion H; subst now; unfold U64_MOD; lia.
  - reflexivity.
Defined.

(* ================================================================= *)
(** ** The clock and the trace marker *)


(** X17.  [get_time_us] is the time in whole microseconds and does not
    go back: for two readings of a clock that does not go back, with
    seconds that fit the multiplication, the later one gives no smaller a
    value. *)
Theorem get_time_us_monotone :
  forall s1 n1 s2 n2,
    0 <= s1 -> 0 <= n1 < 1000000000 -> 0 <= n2 < 1000000000 ->
    s2 < 2 ^ 63 / 1000000 ->
    s1 < s2 \/ (s1 = s2 /\ n1 <= n2) ->
    get_time_us s1 n1 = s1 * 1000000 + n1 / 1000
    /\ get_time_us s2 n2 = s2 * 1000000 + n2 / 1000
    /\ get_time_us s1 n1 <= get_time_us s2 n2.
Proof.
  intros s1 n1 s2 n2 Hs1 Hn1 Hn2 Hs2 Hle.
  assert (Hb : 2 ^ 63 / 1000000 = 9223372036854) by reflexivity.
  rewrite Hb in Hs2.
  assert (Hq : forall n, 0 <= n < 1000000000 -> 0 <= n / 1000 < 1000000).
  { intros n Hn. split; [apply Z.div_pos; lia | apply Z.div_lt_upper_bound; lia]. }
  assert (E : forall s n, 0 <= s < 9223372036854 -> 0 <= n < 1000000000 ->
                get_time_us s n = s * 1000000 + n / 1000).
  { intros s n Hs Hn. unfold get_time_us. pose proof (Hq n Hn).
    rewrite Z.quot_div_nonneg by lia.
    rewrite (to_u64_small (s * 1000000)) by (unfold U64_MOD; lia).
    apply to_u64_small. unfold U64_MOD. lia. }
  rewrite (E s1 n1), (E s2 n2) by lia.
  split; [reflexivity | split; [reflexivity|]].
  pose proof (Hq n1 Hn1). pose proof (Hq n2 Hn2).
  destruct Hle as [Hlt | [-> Hn]]; [lia|].
  pose proof (Z.div_le_mono n1 n2 1000 ltac:(lia) Hn). lia.
Qed.

Ltac digit_cases k H :=
  assert (H : k = 0 \/ k = 1 \/ k = 2 \/ k = 3 \/ k = 4 \/ k = 5 \/ k = 6 \/ k = 7
              \/ k = 8 \/ k = 9) by lia;
  destruct H as [H|[H|[H|[H|[H|[H|[H|[H|[H|H]]]]]]]]]; rewrite H.

Lemma string_of_uint_cons :
  forall k d, 0 <= k <= 9 ->
    NilEmpty.string_of_uint (uint_cons k d)
    = String (ascii_of_nat (Z.to_nat (k + 48))) (NilEmpty.string_of_uint d).
Proof. intros k d Hk. digit_cases k H; reflexivity. Qed.

Lemma uint_value_cons :
  forall k d a, 0 <= k <= 9 -> uint_value (uint_cons k d) a = uint_value d (10 * a + k).
Proof. intros k d a Hk. digit_cases k H; reflexivity. Qed.

Lemma nb_digits_cons :
  forall k d, Decimal.nb_digits (uint_cons k d) = S (Decimal.nb_digits d).
Proof.
  intros k d. unfold uint_cons.
  destruct k as [|p|p]; try reflexivity.
  do 4 (destruct p; try reflexivity).
Qed.

Lemma unorm_cons :
  forall k d, 1 <= k <= 9 ->
    Decimal.unorm (uint_cons k d) = uint_cons k d /\ uint_cons k d <> Decimal.Nil.
Proof.
  intros k d Hk.
  assert (H : k = 1 \/ k = 2 \/ k = 3 \/ k = 4 \/ k = 5 \/ k = 6 \/ k = 7
              \/ k = 8 \/ k = 9) by lia.
  destruct H as [H|[H|[H|[H|[H|[H|[H|[H|H]]]]]]]]; rewrite H; split;
    try reflexivity; discriminate.
Qed.

Lemma uint_value_shift :
  forall l a,
    uint_value l a = a * 10 ^ Z.of_nat (Decimal.nb_digits l) + uint_value l 0.
Proof.
  induction l; intro a; cbn [uint_value Decimal.nb_digits];
    try (cbn; lia);
    rewrite Nat2Z.inj_succ, Z.pow_succ_r by lia;
    rewrite IHl, (IHl (10 * 0 + _)); lia.
Qed.

Lemma vs_digits_loop_spec :
  forall fuel lng tmp acc t,
    0 < lng ->
    string_of_list_ascii (rev tmp) = NilEmpty.string_of_uint acc ->
    vs_digits_loop fuel lng tmp = Some t ->
    exists d,
      string_of_list_ascii (rev t) = NilEmpty.string_of_uint d
      /\ uint_value d 0 = lng * 10 ^ Z.of_nat (Decimal.nb_digits acc) + uint_value acc 0
      /\ Decimal.unorm d = d /\ d <> Decimal.Nil
      /\ (List.length t <= List.length tmp + fuel)%nat
      /\ t <> [].
Proof.
  induction fuel as [|fuel IH]; intros lng tmp acc t Hpos Htmp Hloop.
  - cbn in Hloop. apply Z.ltb_lt in Hpos. rewrite Hpos in Hloop. discriminate Hloop.
  - cbn [vs_digits_loop] in Hloop.
    replace (0 <? lng) with true in Hloop by (symmetry; apply Z.ltb_lt; exact Hpos).
    rewrite Z.quot_div_nonneg, Z.rem_mod_nonneg in Hloop by lia.
    pose proof (Z.mod_pos_bound lng 10 ltac:(lia)) as Hm.
    pose proof (Z.div_mod lng 10 ltac:(lia)) as Hdm.
    set (k := lng mod 10) in *.
    set (c := ascii_of_nat (Z.to_nat (k + 48))) in *.
    assert (Htmp' : string_of_list_ascii (rev (tmp ++ [c]))
                    = NilEmpty.string_of_uint (uint_cons k acc)).
    { rewrite rev_app_distr. cbn [rev app string_of_list_ascii].
      rewrite string_of_uint_cons by lia. f_equal. exact Htmp. }
    destruct (Z.eq_dec (lng / 10) 0) as [E0 | E0].
    + (* the most significant digit *)
      rewrite E0 in Hloop.
      assert (Hret : vs_digits_loop fuel 0 (tmp ++ [c]) = Some (tmp ++ [c]))
        by (destruct fuel; reflexivity).
      rewrite Hret in Hloop. inversion Hloop. subst t.
      exists (uint_cons k acc).
      assert (Hk : lng = k) by lia.
      destruct (unorm_cons k acc ltac:(lia)) as [Hu Hn].
      split; [exact Htmp'|]. split; [|split; [exact Hu | split; [exact Hn|]]].
      * rewrite uint_value_cons by lia. rewrite (uint_value_shift acc). lia.
      * split; [rewrite length_app; cbn; lia | destruct tmp; discriminate].
    + assert (Hq : 0 < lng / 10).
      { pose proof (Z.div_pos lng 10 ltac:(lia) ltac:(lia)). lia. }
      destruct (IH _ _ _ _ Hq Htmp' Hloop) as [d [Hs [Hv [Hu [Hn [Hl Hne]]]]]].
      exists d. split; [exact Hs|]. split; [|split; [exact Hu | split; [exact Hn|]]].
      * rewrite Hv, nb_digits_cons, Nat2Z.inj_succ, Z.pow_succ_r by lia.
        rewrite uint_value_cons by lia. rewrite (uint_value_shift acc (10 * 0 + k)).
        nia.
      * split; [rewrite length_app in Hl; cbn in Hl; lia | exact Hne].
Qed.

Lemma vs_digits_loop_total :
  forall fuel lng tmp,
    lng < 10 ^ Z.of_nat fuel -> vs_digits_loop fuel lng tmp <> None.
Proof.
  induction fuel as [|fuel IH]; intros lng tmp Hlt.
  - cbn in *. replace (0 <? lng) with false by (symmetry; apply Z.ltb_ge; lia). discriminate.
  - cbn [vs_digits_loop]. destruct (0 <? lng) eqn:E; [|discriminate].
    apply Z.ltb_lt in E. apply IH.
    rewrite Z.quot_div_nonneg by lia.
    rewrite Nat2Z.inj_succ, Z.pow_succ_r in Hlt by lia.
    apply Z.div_lt_upper_bound; lia.
Qed.

Lemma vs_digits_loop_length :
  forall fuel fuel' lng tmp t,
    lng < 10 ^ Z.of_nat fuel' ->
    vs_digits_loop fuel lng tmp = Some t ->
    (List.length t <= List.length tmp + fuel')%nat.
Proof.
  induction fuel as [|fuel IH]; intros fuel' lng tmp t Hlt Hloop.
  - cbn in Hloop. destruct (0 <? lng); [discriminate|]. inversion Hloop. lia.
  - cbn [vs_digits_loop] in Hloop. destruct (0 <? lng) eqn:E.
    + apply Z.ltb_lt in E. destruct fuel' as [|fuel']; [cbn in Hlt; lia|].
      assert (Hq : Z.quot lng 10 < 10 ^ Z.of_nat fuel').
      { rewrite Z.quot_div_nonneg by lia.
        rewrite Nat2Z.inj_succ, Z.pow_succ_r in Hlt by lia.
        apply Z.div_lt_upper_bound; lia. }
      specialize (IH fuel' _ _ _ Hq Hloop).
      rewrite length_app in IH. cbn in IH. lia.
    + inversion Hloop. lia.
Qed.

(** "%d" agrees with [printf] on positive numbers and prints 0 for the
    others. *)
Lemma vs_number_spec :
  forall lng,
    lng < 2 ^ 63 ->
    vs_number lng = Some (decimal_or_zero lng)
    /\ (1 <= String.length (decimal_or_zero lng) <= 19)%nat.
Proof.
  intros lng Hlt. unfold vs_number, decimal_or_zero.
  destruct (0 <? lng) eqn:Epos.
  - apply Z.ltb_lt in Epos.
    destruct (vs_digits_loop 99 lng []) as [t|] eqn:Hloop.
    2:{ exfalso. apply (vs_digits_loop_total 99 lng []); [|exact Hloop].
        assert (2 ^ 63 < 10 ^ Z.of_nat 99) by (vm_compute; reflexivity). lia. }
    destruct (vs_digits_loop_spec 99 lng [] Decimal.Nil t Epos eq_refl Hloop)
      as [d [Hs [Hv [Hu [Hn [_ Hne]]]]]].
    pose proof (vs_digits_loop_length 99 19 lng [] t
                  ltac:(assert (2 ^ 63 < 10 ^ Z.of_nat 19) by (vm_compute; reflexivity); lia)
                  Hloop) as Hlen.
    cbn [uint_value Decimal.nb_digits Z.of_nat] in Hv.
    rewrite Z.pow_0_r, Z.mul_1_r, Z.add_0_r in Hv.
    destruct lng as [|p|p]; try lia.
    assert (Hd : Pos.to_uint p = d).
    { rewrite uint_value_of_uint in Hv.
      assert (Hp : Pos.of_uint d = N.pos p) by (apply N2Z.inj; exact Hv).
      pose proof (DecimalPos.Unsigned.to_of d) as Hto.
      rewrite Hp, Hu in Hto. exact Hto. }
    rewrite fmt_d_pos, Hd, <- Hs.
    assert (Hstr : String.length (string_of_list_ascii (rev t)) = List.length t).
    { rewrite <- (length_rev t). generalize (rev t) as l.
      induction l as [|a l IH]; cbn; [reflexivity | rewrite IH; reflexivity]. }
    rewrite Hstr. cbn [List.length Nat.add] in Hlen.
    split; [destruct t; [congruence | reflexivity]|].
    destruct t; [congruence | cbn [List.length] in *; lia].
  - replace (vs_digits_loop 99 lng []) with (Some (@nil ascii)).
    + split; [reflexivity | cbn; lia].
    + cbn [vs_digits_loop]. rewrite Epos. reflexivity.
Qed.

Lemma strlen_append : forall a b, strlen (a ++ b) = strlen a + strlen b.
Proof. intros a b. unfold strlen. rewrite length_append. lia. Qed.

Lemma my_vsprintf_loop_plain :
  forall size lit rest out ap,
    plain lit = true ->
    strlen out + strlen lit <= size ->
    my_vsprintf_loop size (lit ++ rest) None out ap
    = my_vsprintf_loop size rest None (out ++ lit) ap.
Proof.
  intros size. induction lit as [|c lit IH]; intros rest out ap Hplain Hlen.
  - cbn [String.append]. rewrite append_nil_r. reflexivity.
  - cbn [plain] in Hplain. apply andb_true_iff in Hplain. destruct Hplain as [Hc Hp].
    apply negb_true_iff in Hc.
    change (String c lit ++ rest)%string with (String c (lit ++ rest)).
    cbn [my_vsprintf_loop].
    unfold strlen in Hlen. cbn [String.length] in Hlen.
    replace (strlen out <? size) with true
      by (symmetry; apply Z.ltb_lt; unfold strlen; lia).
    cbn [negb]. rewrite Hc.
    rewrite IH; [| exact Hp | rewrite strlen_append; unfold strlen; cbn [String.length]; lia].
    rewrite append_assoc. reflexivity.
Qed.

Lemma to_long_range : forall z, - 2 ^ 63 <= to_long z < 2 ^ 63.
Proof.
  intro z. unfold to_long.
  pose proof (Z.mod_pos_bound z U64_MOD eq_refl) as H. unfold U64_MOD in *.
  destruct (z mod 2 ^ 64 <? 2 ^ 63) eqn:E;
    [apply Z.ltb_lt in E | apply Z.ltb_ge in E]; lia.
Qed.

Lemma my_vsprintf_loop_lld :
  forall size rest out z ap,
    strlen out < size ->
    strlen out + strlen (decimal_or_zero (to_long z)) <= size ->
    my_vsprintf_loop size ("%lld" ++ rest) None out (VaLongLong z :: ap)
    = my_vsprintf_loop size rest None (out ++ decimal_or_zero (to_long z)) ap.
Proof.
  intros size rest out z ap Hroom Hlen.
  change ("%lld" ++ rest)%string
    with (String "%" (String "l" (String "l" (String "d" rest)))).
  cbn [my_vsprintf_loop].
  replace (strlen out <? size) with true by (symmetry; apply Z.ltb_lt; exact Hroom).
  cbn [negb]. change (Ascii.eqb "%" "%") with true. cbv iota.
  change (Ascii.eqb "l" "s") with false. change (Ascii.eqb "l" "l") with true.
  change (Ascii.eqb "d" "s") with false. change (Ascii.eqb "d" "l") with false.
  change (Ascii.eqb "d" "d") with true. cbv iota.
  change (0 + 1 + 1 =? 1) with false. cbv iota.
  change (0 + 1 + 1 =? 2) with true. cbv iota.
  destruct (vs_number_spec (to_long z) (proj2 (to_long_range z))) as [-> _].
  replace (size <? strlen out + strlen (decimal_or_zero (to_long z))) with false
    by (symmetry; apply Z.ltb_ge; exact Hlen).
  reflexivity.
Qed.

Lemma my_vsprintf_loop_s :
  forall size rest out str ap,
    strlen out < size ->
    strlen out + strlen str <= size ->
    my_vsprintf_loop size ("%s" ++ rest) None out (VaStr str :: ap)
    = my_vsprintf_loop size rest None (out ++ str) ap.
Proof.
  intros size rest out str ap Hroom Hlen.
  change ("%s" ++ rest)%string with (String "%" (String "s" rest)).
  cbn [my_vsprintf_loop].
  replace (strlen out <? size) with true by (symmetry; apply Z.ltb_lt; exact Hroom).
  cbn [negb]. change (Ascii.eqb "%" "%") with true. cbv iota.
  change (Ascii.eqb "s" "s") with true. cbv iota.
  change (0 =? 0) with true. cbn [negb].
  replace (size <? strlen out + strlen str) with false
    by (symmetry; apply Z.ltb_ge; exact Hlen).
  reflexivity.
Qed.

Ltac vs_lengths :=
  repeat rewrite strlen_append; unfold strlen in *; cbn [String.length]; lia.

(** X20.  The two trace messages of [do_runtime] always fit the buffer:
    with room for 128 characters or more (the buffer has [BUFSIZ]),
    [my_vsprintf] returns the whole text, every number in decimal, a
    number that is not positive as a [long long] as 0. *)
Theorem trace_text_fits :
  forall size m,
    128 <= size ->
    let D := fun z => decimal_or_zero (to_long z) in
    trace_text size m =
    Returned
      match m with
      | AdjustingPeriod now period delta huge =>
          "Adjusting period: now: " ++ D now ++ " period: " ++ D period
          ++ " delta:" ++ D delta
          ++ (if huge then " HUGE ADJUSTMENT" else "") ++ nl
      | StartAt now off period next =>
          "start at " ++ D now ++ " off=" ++ D off ++ " (period=" ++ D period
          ++ " next=" ++ D next ++ ")" ++ nl
      end%string.
Proof.
  intros size m Hsize D.
  assert (HD : forall z, (1 <= String.length (D z) <= 19)%nat).
  { intro z. apply (vs_number_spec (to_long z)), to_long_range. }
  destruct m as [now period delta huge | now off period next]; unfold trace_text, my_vsprintf.
  - pose proof (HD now). pose proof (HD period). pose proof (HD delta).
    change ("Adjusting period: now: %lld period: %lld delta:%lld%s" ++ nl)%string
      with ("Adjusting period: now: " ++ "%lld" ++ " period: " ++ "%lld"
            ++ " delta:" ++ "%lld" ++ "%s" ++ nl ++ "")%string.
    assert (Hh : (String.length (if huge then " HUGE ADJUSTMENT" else "") <= 16)%nat)
      by (destruct huge; cbn; lia).
    rewrite my_vsprintf_loop_plain by (try reflexivity; vs_lengths).
    rewrite my_vsprintf_loop_lld by (fold (D now); vs_lengths). fold (D now).
    rewrite my_vsprintf_loop_plain by (try reflexivity; vs_lengths).
    rewrite my_vsprintf_loop_lld by (fold (D period); vs_lengths). fold (D period).
    rewrite my_vsprintf_loop_plain by (try reflexivity; vs_lengths).
    rewrite my_vsprintf_loop_lld by (fold (D delta); vs_lengths). fold (D delta).
    rewrite my_vsprintf_loop_s by vs_lengths.
    rewrite my_vsprintf_loop_plain by (try reflexivity; unfold nl; vs_lengths).
    cbn [my_vsprintf_loop]. f_equal.
    rewrite !append_assoc. reflexivity.
  - pose proof (HD now). pose proof (HD off). pose proof (HD period). pose proof (HD next).
    change ("start at %lld off=%lld (period=%lld next=%lld)" ++ nl)%string
      with ("start at " ++ "%lld" ++ " off=" ++ "%lld" ++ " (period=" ++ "%lld"
            ++ " next=" ++ "%lld" ++ (")" ++ nl) ++ "")%string.
    rewrite my_vsprintf_loop_plain by (try reflexivity; vs_lengths).
    rewrite my_vsprintf_loop_lld by (fold (D now); vs_lengths). fold (D now).
    rewrite my_vsprintf_loop_plain by (try reflexivity; vs_lengths).
    rewrite my_vsprintf_loop_lld by (fold (D off); vs_lengths). fold (D off).
    rewrite my_vsprintf_loop_plain by (try reflexivity; vs_lengths).
    rewrite my_vsprintf_loop_lld by (fold (D period); vs_lengths). fold (D period).
    rewrite my_vsprintf_loop_plain by (try reflexivity; vs_lengths).
    rewrite my_vsprintf_loop_lld by (fold (D next); vs_lengths). fold (D next).
    rewrite my_vsprintf_loop_plain by (try reflexivity; unfold nl; vs_lengths).
    cbn [my_vsprintf_loop]. f_equal.
    rewrite !append_assoc. reflexivity.
Qed.



(** X18.  "%d", "%ld" and "%lld" print a positive number as [printf]
    does and any other number as 0: a negative number loses its sign and
    its digits.  The digits are written without a test against the end of
    the buffer: when they do not fit, [s] ends beyond [end]. *)
Theorem my_vsprintf_number :
  forall size z,
    0 < size ->
    my_vsprintf size "%d" [VaInt z]
    = (if size <? strlen (decimal_or_zero (to_int z)) then Overrun
       else Returned (decimal_or_zero (to_int z)))
    /\ my_vsprintf size "%ld" [VaLongLong z]
       = (if size <? strlen (decimal_or_zero (to_long z)) then Overrun
          else Returned (decimal_or_zero (to_long z)))
    /\ my_vsprintf size "%lld" [VaLongLong z]
       = (if size <? strlen (decimal_or_zero (to_long z)) then Overrun
          else Returned (decimal_or_zero (to_long z)))
    /\ (to_long z <= 0 -> 
        my_vsprintf size "%lld" [VaLongLong z] = Returned "0"%string).
Proof.
  intros size z Hsize.
  assert (Hint : to_int z < 2 ^ 63).
  { unfold to_int. pose proof (Z.mod_pos_bound z UINT_MOD eq_refl) as H.
    unfold UINT_MOD in *. destruct (z mod 2 ^ 32 <? 2 ^ 31); lia. }
  destruct (vs_number_spec (to_int z) Hint) as [Hi _].
  destruct (vs_number_spec (to_long z) (proj2 (to_long_range z))) as [Hl _].
  assert (H0 : (strlen "" <? size) = true) by (apply Z.ltb_lt; exact Hsize).
  assert (Hlld : my_vsprintf size "%lld" [VaLongLong z]
       = (if size <? strlen (decimal_or_zero (to_long z)) then Overrun
          else Returned (decimal_or_zero (to_long z)))).
  { unfold my_vsprintf. cbn [my_vsprintf_loop]. rewrite H0. cbn [negb].
    change (Ascii.eqb "%" "%") with true. cbv iota.
    change (Ascii.eqb "l" "s") with false. change (Ascii.eqb "l" "l") with true.
    change (Ascii.eqb "d" "s") with false. change (Ascii.eqb "d" "l") with false.
    change (Ascii.eqb "d" "d") with true. cbv iota.
    change (0 + 1 + 1 =? 1) with false. cbv iota.
    change (0 + 1 + 1 =? 2) with true. cbv iota.
    rewrite Hl. change (strlen "" + ?x) with x. cbn [String.append].
    destruct (size <? strlen (decimal_or_zero (to_long z))); reflexivity. }
  split; [|split; [|split; [exact Hlld|]]].
  - unfold my_vsprintf. cbn [my_vsprintf_loop]. rewrite H0. cbn [negb].
    change (Ascii.eqb "%" "%") with true. cbv iota.
    change (Ascii.eqb "d" "s") with false. change (Ascii.eqb "d" "l") with false.
    change (Ascii.eqb "d" "d") with true. cbv iota.
    change (0 =? 1) with false. cbv iota.
    change (0 =? 2) with false. change (2 <? 0) with false. cbv iota.
    rewrite Hi. change (strlen "" + ?x) with x. cbn [String.append].
    destruct (size <? strlen (decimal_or_zero (to_int z))); reflexivity.
  - unfold my_vsprintf. cbn [my_vsprintf_loop]. rewrite H0. cbn [negb].
    change (Ascii.eqb "%" "%") with true. cbv iota.
    change (Ascii.eqb "l" "s") with false. change (Ascii.eqb "l" "l") with true.
    change (Ascii.eqb "d" "s") with false. change (Ascii.eqb "d" "l") with false.
    change (Ascii.eqb "d" "d") with true. cbv iota.
    change (0 + 1 =? 1) with true. cbv iota.
    change (2 =? 2) with true. cbv iota.
    rewrite Hl. change (strlen "" + ?x) with x. cbn [String.append].
    destruct (size <? strlen (decimal_or_zero (to_long z))); reflexivity.
  - intro Hneg. rewrite Hlld. unfold decimal_or_zero.
    replace (0 <? to_long z) with false by (symmetry; apply Z.ltb_ge; exact Hneg).
    replace (size <? strlen "0") with false
      by (symmetry; apply Z.ltb_ge; unfold strlen; cbn; lia).
    reflexivity.
Qed.

Lemma get_time_us_monotone_witness :
  get_time_us 1 999999999 <= get_time_us 2 0.
Proof.
  refine (proj2 (proj2 (get_time_us_monotone 1 999999999 2 0 _ _ _ _ _))).
  - lia.
  - lia.
  - lia.
  - vm_compute. reflexivity.
  - left. lia.
Defined.

Lemma trace_text_fits_witness :
  trace_text 8192 (StartAt 1003 3 1000 2000)
  = Returned ("start at " ++ decimal_or_zero (to_long 1003)
              ++ " off=" ++ decimal_or_zero (to_long 3)
              ++ " (period=" ++ decimal_or_zero (to_long 1000)
              ++ " next=" ++ decimal_or_zero (to_long 2000) ++ ")" ++ nl).
Proof.
  apply (trace_text_fits 8192 (StartAt 1003 3 1000 2000)). lia.
Defined.


Lemma my_vsprintf_number_witness :
  my_vsprintf 8192 "%lld" [VaLongLong (-5)] = Returned "0"%string.
Proof.
  apply (proj2 (proj2 (proj2 (my_vsprintf_number 8192 (-5) ltac:(lia))))).
  vm_compute. discriminate.
Defined.

(* ================================================================= *)
(** ** Moving the threads into the cpuset *)

Lemma move_tasks_loop_spec :
  forall write tids i ret written,
    Forall (fun t => t <> 0) tids ->
    move_tasks_loop write (tids ++ [0]) i ret written
    = Some (match rev tids with
            | [] => ret
            | t :: _ => write (i + List.length tids - 1)%nat (fmt_d t ++ " ")%string
            end,
            0,
            written ++ map (fun t => (fmt_d t ++ " ")%string) tids).
Proof.
  intros write. induction tids as [|t tids IH]; intros i ret written Hnz.
  - cbn. rewrite app_nil_r. reflexivity.
  - inversion_clear Hnz as [|? ? Ht Hr].
    cbn [app move_tasks_loop]. apply Z.eqb_neq in Ht. rewrite Ht.
    rewrite IH by exact Hr. cbn [map rev]. rewrite <- app_assoc. cbn [app].
    pose proof (length_rev tids) as Hlen.
    destruct (rev tids) as [|x l] eqn:E; cbn [app List.length] in *;
      do 3 f_equal; f_equal; lia.
Qed.

(** X21.  Moving the threads into the cpuset: every thread id is written
    to the [tasks] file, but only the result of the last [write] is looked
    at.  A failure to move any other thread goes unnoticed, and when the
    last write fails the task named in the message is the 0 that ends the
    array. *)
Theorem move_tasks_reports_last_write :
  forall write sds,
    Forall (fun sd => tid (stat sd) <> 0) sds ->
    move_tasks write (main_pids sds)
    = Some (match rev sds with
            | [] => TasksMoved
            | sd :: _ =>
                if write (List.length sds - 1)%nat (fmt_d (tid (stat sd)) ++ " ")%string <? 0
                then FailedOnTask 0 else TasksMoved
            end,
            map (fun sd => (fmt_d (tid (stat sd)) ++ " ")%string) sds).
Proof.
  intros write sds Hnz. unfold move_tasks, main_pids.
  rewrite move_tasks_loop_spec
    by (apply Forall_map; exact Hnz).
  cbn [app Nat.add]. rewrite length_map, map_map, <- map_rev.
  destruct (rev sds); reflexivity.
Qed.

Lemma move_tasks_reports_last_write_witness :
  move_tasks (fun i _ => if (i =? 0)%nat then -1 else 4)
             (main_pids [mk_sd 600 1000 (mk_stat 1 0 0 0 PrimFloat.zero 101);
                         mk_sd 900 1500 (mk_stat 1 0 0 0 PrimFloat.zero 102)])
  = Some (TasksMoved, ["101 "; "102 "]%string).
Proof.
  refine (eq_trans
            (move_tasks_reports_last_write
               (fun i _ => if (i =? 0)%nat then -1 else 4)
               [mk_sd 600 1000 (mk_stat 1 0 0 0 PrimFloat.zero 101);
                mk_sd 900 1500 (mk_stat 1 0 0 0 PrimFloat.zero 102)] _) _).
  - repeat constructor; cbn; lia.
  - reflexivity.
Defined.

(* ================================================================= *)
(** ** The start-up protocol, whatever the system calls answer *)

Import StartupFacts.

Lemma sound_w_mono :
  forall (sd sd' : bool) m m' w,
    (sd = true -> sd' = true) ->
    (in_phase 3 (mphase m) -> in_phase 3 (mphase m')) ->
    (past_barrier1 m = true -> past_barrier1 m' = true) ->
    sound_w sd m w -> sound_w sd' m' w.
Proof.
  intros sd sd' m m' w Hsd Hph Hpast H. unfold sound_w in *.
  destruct (w_pc w) as [| [] | [] | | | | | |]; tauto.
Qed.

Lemma getattr_ok_set_nth :
  forall l i w w',
    nth_error l i = Some w -> getattr_ok w' = getattr_ok w ->
    Forall (fun x => getattr_ok x = true) l ->
    Forall (fun x => getattr_ok x = true) (set_nth i w' l).
Proof.
  intros l i w w' Hnth Hg H. apply Forall_set_nth; [exact H|].
  rewrite Hg. rewrite Forall_forall in H. apply H, (nth_error_In _ _ Hnth).
Qed.

Lemma Sound_same_workers :
  forall c (sd' h : bool) m' wn,
    Sound c ->
    (shutdown c = true -> sd' = true) ->
    (forall g, in_phase g (mphase (m_pc c)) -> in_phase g (mphase m')) ->
    ((if blocked_m m' then 1 else 0) + List.length (filter blocked_w (ws c))
     <= List.length (ws c))%nat ->
    (past_barrier1 (m_pc c) = true -> past_barrier1 m' = true) ->
    (past_check1 m' = true ->
     past_check1 (m_pc c) = true \/ Forall (fun w => getattr_ok w = true) (ws c)) ->
    Sound (mk_config sd' h m' (ws c) wn).
Proof.
  intros c sd' h m' wn [[g [Hm Hw]] Hcount Hws Hchk] Hsd Hph Hb Hpast Hc.
  constructor; cbn [shutdown m_pc ws].
  - exists g. split; [apply Hph, Hm | exact Hw].
  - unfold arrived in *. cbn [m_pc ws]. lia.
  - eapply Forall_impl; [|exact Hws]. intro w.
    apply sound_w_mono; [exact Hsd | apply Hph | exact Hpast].
  - intro H. destruct (Hc H) as [H' | H']; [apply Hchk, H' | exact H'].
Qed.

Lemma Sound_with_worker :
  forall c (sd' : bool) i w w',
    Sound c ->
    nth_error (ws c) i = Some w ->
    blocked_w w = false ->
    (shutdown c = true -> sd' = true) ->
    (forall g, in_phase g (wphase (w_pc w)) -> in_phase g (wphase (w_pc w'))) ->
    ((if blocked_w w' then 1 else 0) + arrived c <= List.length (ws c))%nat ->
    sound_w sd' (m_pc c) w' ->
    getattr_ok w' = getattr_ok w ->
    Sound (mk_config sd' (handlers c) (m_pc c) (set_nth i w' (ws c)) (warned c)).
Proof.
  intros c sd' i w w' [[g [Hm Hw]] Hcount Hws Hchk] Hnth Hbw Hsd Hph Hroom Hsw Hg.
  pose proof (nth_error_In _ _ Hnth) as Hin.
  constructor; cbn [shutdown m_pc ws].
  - exists g. split; [exact Hm|]. apply Forall_set_nth; [exact Hw|].
    apply Hph. rewrite Forall_forall in Hw. apply Hw, Hin.
  - unfold arrived in *. cbn [m_pc ws].
    rewrite (filter_blocked_set_nth _ _ w w' Hnth Hbw), length_set_nth. lia.
  - apply Forall_set_nth; [|exact Hsw].
    eapply Forall_impl; [|exact Hws]. intro x.
    apply sound_w_mono; [exact Hsd | auto | auto].
  - intro H. apply (getattr_ok_set_nth _ _ w w' Hnth Hg). apply Hchk, H.
Qed.

(** What the opening of the barrier does to one of its parties. *)
Lemma sound_w_released :
  forall (sd : bool) x bx b,
    wsite_phase bx = msite_phase b ->
    (w_pc x = W_in bx \/ w_pc x = W_at bx) ->
    (forall m, sound_w sd m x) ->
    sound_w sd (after_msite b) (set_pc x (after_wsite bx)).
Proof.
  intros sd x bx b Hph Hpc H. specialize (H (after_msite b)).
  unfold sound_w in *. cbn [set_pc w_pc getattr_ok setattr_ok].
  destruct Hpc as [Hpc | Hpc]; rewrite Hpc in H;
    destruct bx, b; cbn in Hph; try discriminate Hph; cbn; tauto.
Qed.

Lemma sound_w_any_main :
  forall sd m m' w,
    (forall r, w_pc w <> W_exit r) -> sound_w sd m w -> sound_w sd m' w.
Proof.
  intros sd m m' w Hne H. unfold sound_w in *.
  destruct (w_pc w) as [| [] | [] | | | | | | r]; try exact H.
  exfalso. apply (Hne r). reflexivity.
Qed.

Lemma Sound_released :
  forall (sd h : bool) b l wn,
    Forall (fun x => exists y bx,
                x = set_pc y (after_wsite bx)
                /\ wsite_phase bx = msite_phase b
                /\ (w_pc y = W_in bx \/ w_pc y = W_at bx)
                /\ (forall m, sound_w sd m y)) l ->
    (past_check1 (after_msite b) = true -> Forall (fun w => getattr_ok w = true) l) ->
    Sound (mk_config sd h (after_msite b) l wn).
Proof.
  intros sd h b l wn H Hchk.
  constructor; cbn [shutdown m_pc ws].
  - exists (S (msite_phase b)). split; [apply mphase_after_msite|].
    eapply Forall_impl; [|exact H]. cbn beta.
    intros x [y [bx [-> [Hph _]]]]. cbn [set_pc w_pc]. rewrite <- Hph.
    apply wphase_after_wsite.
  - unfold arrived. cbn [m_pc ws].
    assert (E : filter blocked_w l = []).
    { clear Hchk. induction l as [|a l IH]; [reflexivity|].
      inversion_clear H as [|? ? Ha Hl]. cbn [filter].
      destruct Ha as [y [bx [-> _]]]. rewrite blocked_after_wsite. apply IH, Hl. }
    rewrite E. destruct b; cbn; lia.
  - eapply Forall_impl; [|exact H]. cbn beta.
    intros x [y [bx [-> [Hph [Hpc Hs]]]]]. apply sound_w_released; assumption.
  - exact Hchk.
Qed.

Lemma Sound_quiet_main :
  forall c (sd' h : bool) m' wn,
    Sound c ->
    (shutdown c = true -> sd' = true) ->
    (forall g, in_phase g (mphase (m_pc c)) -> in_phase g (mphase m')) ->
    blocked_m m' = false -> blocked_m (m_pc c) = false ->
    (past_barrier1 (m_pc c) = true -> past_barrier1 m' = true) ->
    (past_check1 m' = true ->
     past_check1 (m_pc c) = true \/ Forall (fun w => getattr_ok w = true) (ws c)) ->
    Sound (mk_config sd' h m' (ws c) wn).
Proof.
  intros c sd' h m' wn HS Hsd Hph Hb' Hb Hpast Hc.
  apply Sound_same_workers; try assumption.
  rewrite Hb'. pose proof (sound_count _ HS) as H. unfold arrived in H.
  rewrite Hb in H. lia.
Qed.

Lemma getattr_ok_release_w : forall w, getattr_ok (release_w w) = getattr_ok w.
Proof. intro w. unfold release_w. destruct (w_pc w); reflexivity. Qed.

Lemma Sound_phase_main :
  forall c g,
    Sound c -> mphase (m_pc c) = Some g ->
    Forall (fun w => in_phase g (wphase (w_pc w))) (ws c).
Proof.
  intros c g [[g' [Hm Hw]] _ _ _] Hg. rewrite Hg in Hm. cbn in Hm. subst g'. exact Hw.
Qed.

Lemma Sound_phase_worker :
  forall c i w g,
    Sound c -> nth_error (ws c) i = Some w -> wphase (w_pc w) = Some g ->
    in_phase g (mphase (m_pc c)).
Proof.
  intros c i w g [[g' [Hm Hw]] _ _ _] Hnth Hg.
  rewrite Forall_forall in Hw. specialize (Hw w (nth_error_In _ _ Hnth)).
  rewrite Hg in Hw. cbn in Hw. subst g'. exact Hm.
Qed.

Lemma sound_blocked_party :
  forall sd m y,
    blocked_w y = true -> sound_w sd m y ->
    exists bx, w_pc y = W_in bx /\ release_w y = set_pc y (after_wsite bx)
               /\ forall m', sound_w sd m' y.
Proof.
  intros sd m y Hb Hs. unfold blocked_w in Hb.
  destruct (w_pc y) as [| | bx | | | | | |] eqn:E; try discriminate Hb.
  exists bx. split; [reflexivity|]. split; [unfold release_w; rewrite E; reflexivity|].
  intro m'. apply (sound_w_any_main sd m m' y); [rewrite E; discriminate | exact Hs].
Qed.

Lemma step_preserves_Sound :
  forall a c c', Sound c -> step a c = Some c' -> Sound c'.
Proof.
  intros a c c' HS H. unfold step in H.
  destruct (process_over (m_pc c)); [discriminate H|].
  destruct a as [| i | |].
  - (* main *)
    unfold main_step in H.
    destruct (m_pc c) as [b| | | | | | | j | |] eqn:Hm; try discriminate H.
    + (* pthread_barrier_wait *)
      some_inv H. unfold main_wait.
      destruct (S (arrived c) =? parties c)%nat eqn:Hfull.
      * apply Nat.eqb_eq in Hfull. unfold arrived, parties in Hfull.
        rewrite Hm in Hfull. cbn [blocked_m] in Hfull.
        assert (Hall : forall x, In x (ws c) -> blocked_w x = true)
          by (apply filter_length_all; lia).
        pose proof (Sound_phase_main c _ HS ltac:(rewrite Hm; reflexivity)) as Hph.
        pose proof (sound_workers _ HS) as Hws.
        apply Sound_released.
        -- apply Forall_map, Forall_forall. intros y Hin.
           rewrite Forall_forall in Hph, Hws.
           destruct (sound_blocked_party _ _ y (Hall y Hin) (Hws y Hin))
             as [bx [Hpc [Hrel Hany]]].
           exists y, bx. split; [exact Hrel|]. split; [|split; [left; exact Hpc | exact Hany]].
           specialize (Hph y Hin). rewrite Hpc in Hph. exact Hph.
        -- intro Hp. apply Forall_map.
           assert (Hold : past_check1 (m_pc c) = true)
             by (rewrite Hm; destruct b; [discriminate Hp | reflexivity | reflexivity]).
           eapply Forall_impl; [|exact (sound_checked _ HS Hold)].
           intros x Hx. rewrite getattr_ok_release_w. exact Hx.
      * apply Nat.eqb_neq in Hfull. unfold arrived, parties in Hfull.
        pose proof (sound_count _ HS) as Hcount. unfold arrived in Hcount.
        rewrite Hm in Hfull, Hcount. cbn [blocked_m] in Hfull, Hcount.
        apply Sound_same_workers; try exact HS; try (rewrite Hm); auto;
          try (cbn [blocked_m]; lia); destruct b; auto.
    + (* if (shutdown) fatal(step 1) *)
      some_inv H.
      apply Sound_quiet_main; try exact HS; try (rewrite Hm); auto;
        try (destruct (shutdown c); reflexivity).
      * destruct (shutdown c); cbn; auto.
      * destruct (shutdown c) eqn:Esd; [discriminate|]. intros _. right.
        pose proof (Sound_phase_main c _ HS ltac:(rewrite Hm; reflexivity)) as Hph.
        pose proof (sound_workers _ HS) as Hws.
        apply Forall_forall. intros w Hin. rewrite Forall_forall in Hph, Hws.
        specialize (Hph w Hin). specialize (Hws w Hin).
        unfold sound_w in Hws. rewrite Hm, Esd in Hws.
        destruct (w_pc w) as [| [] | [] | | | | | |]; cbn in Hph, Hws;
          try discriminate Hph; try tauto.
        destruct Hws as [Hws | [_ [Hws _]]]; [discriminate Hws | discriminate Hws].
    + some_inv H. apply Sound_quiet_main; try exact HS; try (rewrite Hm); auto.
    + some_inv H.
      apply Sound_quiet_main; try exact HS; try (rewrite Hm); auto;
        try (destruct (shutdown c); reflexivity).
      destruct (shutdown c); cbn; auto.
    + some_inv H. apply Sound_quiet_main; try exact HS; try (rewrite Hm); auto.
    + some_inv H.
      apply Sound_quiet_main; try exact HS; try (rewrite Hm); auto;
        try (destruct (shutdown c); reflexivity).
      destruct (shutdown c); cbn; auto.
    + destruct (nth_error (ws c) j) as [w|].
      * destruct (w_pc w) as [| | | | | | | | [msg|]]; try discriminate H;
          some_inv H; (apply Sound_quiet_main; try exact HS; try (rewrite Hm); auto).
      * some_inv H. apply Sound_quiet_main; try exact HS; try (rewrite Hm); cbn; auto.
  - (* worker i *)
    destruct (nth_error (ws c) i) as [w|] eqn:Hnth; [|discriminate H].
    pose proof (nth_error_In _ _ Hnth) as Hin.
    assert (Hsw : sound_w (shutdown c) (m_pc c) w).
    { pose proof (sound_workers _ HS) as Hws. rewrite Forall_forall in Hws. apply Hws, Hin. }
    pose proof (sound_count _ HS) as Hcount.
    unfold worker_step in H.
    destruct (w_pc w) as [| b | | | | | | |] eqn:Hpc; try discriminate H.
    + (* sched_getattr *)
      destruct (getattr_ok w) eqn:Eg; some_inv H;
        (eapply Sound_with_worker;
         [ exact HS | exact Hnth | unfold blocked_w; rewrite Hpc; reflexivity | auto
         | rewrite Hpc; cbn; auto | cbn; exact Hcount
         | unfold sound_w; cbn; auto | reflexivity ]).
    + (* pthread_barrier_wait *)
      some_inv H. unfold worker_wait.
      assert (Hunblocked : blocked_w w = false)
        by (unfold blocked_w; rewrite Hpc; reflexivity).
      destruct (S (arrived c) =? parties c)%nat eqn:Hfull.
      * apply Nat.eqb_eq in Hfull. unfold arrived, parties in Hfull.
        pose proof (filter_length_lt _ blocked_w (ws c) i w Hnth Hunblocked) as Hlt.
        destruct (blocked_m (m_pc c)) eqn:Hbm; [|lia].
        destruct (m_pc c) as [| mb | | | | | | | |] eqn:Hm; try discriminate Hbm.
        pose proof (Sound_phase_main c _ HS ltac:(rewrite Hm; reflexivity)) as Hph.
        pose proof (sound_workers _ HS) as Hws. rewrite Hm in Hws.
        rewrite Forall_forall in Hph, Hws.
        cbn [release_m].
        set (w' := set_pc w (after_wsite b)).
        assert (Hbl : Forall (fun x => blocked_w x = true \/ x = w') (set_nth i w' (ws c)))
          by (apply (full_count_workers (ws c) i w w' Hnth Hunblocked); lia).
        assert (Hw' : exists y bx,
                   w' = set_pc y (after_wsite bx)
                   /\ wsite_phase bx = msite_phase mb
                   /\ (w_pc y = W_in bx \/ w_pc y = W_at bx)
                   /\ (forall m, sound_w (shutdown c) m y)).
        { exists w, b. split; [reflexivity|]. split; [|split; [right; exact Hpc|]].
          - specialize (Hph w Hin). rewrite Hpc in Hph. exact Hph.
          - intro m. apply (sound_w_any_main _ (M_in mb) m w); [rewrite Hpc; discriminate|].
            apply Hws, Hin. }
        apply Sound_released.
        -- apply Forall_map, Forall_forall. intros x Hx.
           rewrite Forall_forall in Hbl.
           destruct (Hbl x Hx) as [Hbx | ->];
             [|unfold w'; rewrite release_w_after_wsite; exact Hw'].
           destruct (In_set_nth _ _ _ _ Hx) as [-> | Hxin];
             [unfold w' in Hbx; rewrite blocked_after_wsite in Hbx; discriminate Hbx|].
           destruct (sound_blocked_party _ _ x Hbx (Hws x Hxin)) as [bx [Hpcx [Hrel Hany]]].
           exists x, bx. split; [exact Hrel|]. split; [|split; [left; exact Hpcx | exact Hany]].
           specialize (Hph x Hxin). rewrite Hpcx in Hph. exact Hph.
        -- intro Hp. apply Forall_map.
           assert (Hold : past_check1 (m_pc c) = true)
             by (rewrite Hm; destruct mb; [discriminate Hp | reflexivity | reflexivity]).
           pose proof (sound_checked _ HS Hold) as Hok.
           assert (Hok' : Forall (fun x => getattr_ok x = true) (set_nth i w' (ws c))).
           { apply (getattr_ok_set_nth _ _ w w' Hnth); [reflexivity | exact Hok]. }
           eapply Forall_impl; [|exact Hok'].
           intros x Hx. rewrite getattr_ok_release_w. exact Hx.
      * apply Nat.eqb_neq in Hfull. unfold parties in Hfull.
        eapply Sound_with_worker;
          [ exact HS | exact Hnth | exact Hunblocked | auto
          | rewrite Hpc; cbn; auto | cbn; lia | | reflexivity ].
        unfold sound_w in *. rewrite Hpc in Hsw. cbn [set_pc w_pc getattr_ok setattr_ok].
        destruct b; exact Hsw.
    + some_inv H.
      eapply Sound_with_worker;
        [ exact HS | exact Hnth | unfold blocked_w; rewrite Hpc; reflexivity | auto
        | rewrite Hpc; cbn; auto | cbn; exact Hcount
        | unfold sound_w in *; rewrite Hpc in Hsw; cbn; exact Hsw | reflexivity ].
    + (* sched_setattr *)
      unfold sound_w in Hsw. rewrite Hpc in Hsw.
      destruct (setattr_ok w) eqn:Es; some_inv H;
        (eapply Sound_with_worker;
         [ exact HS | exact Hnth | unfold blocked_w; rewrite Hpc; reflexivity | auto
         | rewrite Hpc; cbn; auto | cbn; exact Hcount
         | unfold sound_w; cbn; auto | reflexivity ]).
    + some_inv H.
      eapply Sound_with_worker;
        [ exact HS | exact Hnth | unfold blocked_w; rewrite Hpc; reflexivity | auto
        | rewrite Hpc; cbn; auto | cbn; exact Hcount
        | unfold sound_w in *; rewrite Hpc in Hsw; cbn; exact Hsw | reflexivity ].
    + (* while (!shutdown) *)
      destruct (shutdown c) eqn:Esd; some_inv H;
        (eapply Sound_with_worker;
         [ exact HS | exact Hnth | unfold blocked_w; rewrite Hpc; reflexivity
         | rewrite Esd; auto
         | rewrite Hpc; cbn; auto | cbn; exact Hcount
         | unfold sound_w in *; rewrite Hpc in Hsw; cbn; exact Hsw | reflexivity ]).
    + (* the second sched_getattr, then the thread ends *)
      some_inv H.
      eapply Sound_with_worker;
        [ exact HS | exact Hnth | unfold blocked_w; rewrite Hpc; reflexivity | auto
        | rewrite Hpc; cbn; auto | cbn; exact Hcount | | reflexivity ].
      unfold sound_w. cbn [set_pc w_pc]. left.
      apply (Sound_phase_worker c i w 3%nat HS Hnth). rewrite Hpc. reflexivity.
  - (* a signal *)
    destruct (handlers c); [|discriminate H]. some_inv H.
    apply Sound_same_workers; try exact HS; auto.
    pose proof (sound_count _ HS) as Hc. unfold arrived in Hc. lia.
  - (* the cpusets cannot be made *)
    destruct (m_pc c) eqn:Hm; try discriminate H. some_inv H.
    apply Sound_quiet_main; try exact HS; try rewrite Hm; cbn; auto; discriminate.
Qed.

Lemma Sound_init : forall kernel, Sound (init kernel).
Proof.
  intro kernel. constructor; cbn [init shutdown m_pc ws].
  - exists 0%nat. split; [reflexivity|].
    apply Forall_map, Forall_forall. intros [[g s] g2] _. reflexivity.
  - unfold arrived. cbn [init m_pc ws blocked_m].
    pose proof (filter_length_le blocked_w (map new_worker kernel)). lia.
  - apply Forall_map, Forall_forall. intros [[g s] g2] _. exact I.
  - intro H. discriminate H.
Qed.

Lemma reachable_Sound :
  forall kernel c, reachable (init kernel) c -> Sound c.
Proof.
  intros kernel c Hreach. induction Hreach as [|c a c' _ IH Hstep].
  - apply Sound_init.
  - apply (step_preserves_Sound a c c' IH Hstep).
Qed.

Lemma Sound_can_step :
  forall c, Sound c -> process_over (m_pc c) = false -> can_step c.
Proof.
  intros c HS Hover. unfold can_step, step. rewrite Hover.
  destruct (m_pc c) as [b | b | | | | | | j | |] eqn:Hm;
    try discriminate Hover;
    try (left; unfold main_step; rewrite Hm; discriminate).
  - (* main is inside a barrier *)
    right. pose proof (sound_count _ HS) as Hcount.
    unfold arrived in Hcount. rewrite Hm in Hcount. cbn [blocked_m] in Hcount.
    destruct (exists_unfiltered _ blocked_w (ws c)) as [i [w [Hnth Hw]]]; [lia|].
    exists i. rewrite Hnth.
    pose proof (sound_workers _ HS) as Hws. rewrite Forall_forall in Hws.
    specialize (Hws w (nth_error_In _ _ Hnth)). rewrite Hm in Hws.
    unfold blocked_w in Hw. unfold sound_w in Hws. unfold worker_step.
    destruct (w_pc w) as [| | | | | | | | r] eqn:Hpc; try discriminate Hw;
      try discriminate;
      try (destruct (getattr_ok w); discriminate);
      try (destruct (setattr_ok w); discriminate);
      try (destruct (shutdown c); discriminate).
    exfalso. destruct Hws as [Hws | [Hg [_ Hp]]].
    + destruct b; discriminate Hws.
    + assert (Hchk : past_check1 (m_pc c) = true)
        by (rewrite Hm; destruct b; [discriminate Hp | reflexivity | reflexivity]).
      pose proof (sound_checked _ HS Hchk) as Hok. rewrite Forall_forall in Hok.
      rewrite (Hok w (nth_error_In _ _ Hnth)) in Hg. discriminate Hg.
  - (* main joins worker j *)
    destruct (nth_error (ws c) j) as [w|] eqn:Hnth;
      [|left; unfold main_step; rewrite Hm, Hnth; discriminate].
    assert (Hph : in_phase 3 (wphase (w_pc w))).
    { pose proof (Sound_phase_main c 3%nat HS ltac:(rewrite Hm; reflexivity)) as H.
      rewrite Forall_forall in H. apply H, (nth_error_In _ _ Hnth). }
    destruct (w_pc w) as [| b | b | | | | | | r] eqn:Hpc;
      try (destruct b; discriminate Hph); try discriminate Hph.
    + right. exists j. rewrite Hnth. unfold worker_step. rewrite Hpc. discriminate.
    + right. exists j. rewrite Hnth. unfold worker_step. rewrite Hpc.
      destruct (shutdown c); discriminate.
    + right. exists j. rewrite Hnth. unfold worker_step. rewrite Hpc. discriminate.
    + left. unfold main_step. rewrite Hm, Hnth, Hpc. destruct r; discriminate.
Qed.

(** X22.  The start-up protocol never deadlocks: whatever the three
    system calls of each worker answer and however the threads are
    scheduled, as long as the process has not ended some thread can take
    a step; nobody is left inside a barrier that will not fill, and
    [main] never joins a worker that is stuck. *)
Theorem startup_never_deadlocks :
  forall kernel c,
    reachable (init kernel) c ->
    process_over (m_pc c) = true \/ can_step c.
Proof.
  intros kernel c Hreach.
  destruct (process_over (m_pc c)) eqn:Hover; [left; reflexivity | right].
  apply Sound_can_step; [apply (reachable_Sound kernel c Hreach) | exact Hover].
Qed.

(** X23.  No worker measures before every worker has called
    [sched_setattr]: once one worker is past the barrier that follows the
    call, every worker is past it too, with both its first system calls
    successful, or has left [run_deadline]; and [main] is past its third
    barrier. *)
Theorem measuring_after_all_applied :
  forall kernel c w,
    reachable (init kernel) c ->
    In w (ws c) -> measuring w ->
    Forall (fun x => measuring x /\ getattr_ok x = true /\ setattr_ok x = true
                     \/ exists r, w_pc x = W_exit r) (ws c)
    /\ in_phase 3 (mphase (m_pc c)).
Proof.
  intros kernel c w Hreach Hin Hw.
  pose proof (reachable_Sound kernel c Hreach) as HS.
  destruct (sound_phase _ HS) as [g [Hm Hph]].
  pose proof (sound_workers _ HS) as Hws.
  rewrite Forall_forall in Hph, Hws.
  assert (Hg : g = 3%nat).
  { specialize (Hph w Hin). destruct Hw as [E | [E | E]]; rewrite E in Hph; cbn in Hph; auto. }
  subst g. split; [|exact Hm].
  apply Forall_forall. intros x Hx. specialize (Hph x Hx). specialize (Hws x Hx).
  unfold measuring. unfold sound_w in Hws.
  destruct (w_pc x) as [| [] | [] | | | | | | r]; cbn in Hph; try discriminate Hph;
    try (left; tauto).
  right. exists r. reflexivity.
Qed.

Lemma calm_w_release : forall w, calm_w w -> calm_w (release_w w).
Proof.
  intros w H. unfold release_w.
  destruct (w_pc w) as [| | b | | | | | |] eqn:E; try exact H.
  unfold calm_w in *. rewrite E in H. cbn [set_pc getattr_ok setattr_ok w_pc].
  destruct b; cbn [after_wsite]; tauto.
Qed.

Ltac not_fatal :=
  try discriminate;
  try (let E := fresh "E" in intros ? E; first [discriminate E | inversion E; reflexivity]).

Lemma step_preserves_Calm :
  forall a c c', Calm c -> step a c = Some c' -> Calm c'.
Proof.
  intros a c c' [Hsd Hh Hws Hm] H. unfold step in H.
  destruct (process_over (m_pc c)); [discriminate H|].
  assert (Hquiet : after_signals (m_pc c) = false -> shutdown c = false).
  { intro E. destruct (shutdown c); [|reflexivity].
    rewrite (Hh (Hsd eq_refl)) in E. discriminate E. }
  destruct a as [| i | |].
  - unfold main_step in H.
    destruct (m_pc c) as [b| | | | | | | j | |] eqn:Em; try discriminate H.
    + some_inv H. unfold main_wait.
      destruct (S (arrived c) =? parties c)%nat; constructor; cbn [shutdown handlers m_pc ws];
        auto; not_fatal;
        try (intro E; specialize (Hh E); discriminate Hh);
        try (intros why; destruct b; discriminate).
      apply Forall_map. eapply Forall_impl; [|exact Hws]. apply calm_w_release.
    + some_inv H. rewrite (Hquiet eq_refl).
      constructor; cbn [shutdown handlers m_pc ws with_main]; auto; not_fatal;
        try (rewrite (Hquiet eq_refl) in Hsd; exact Hsd).
    + some_inv H. constructor; cbn [shutdown handlers m_pc ws with_main]; auto; not_fatal.
    + some_inv H. rewrite (Hquiet eq_refl).
      constructor; cbn [shutdown handlers m_pc ws with_main]; auto; not_fatal;
        try (rewrite (Hquiet eq_refl) in Hsd; exact Hsd).
    + some_inv H. constructor; cbn [shutdown handlers m_pc ws]; auto; not_fatal.
    + some_inv H.
      constructor; cbn [shutdown handlers m_pc ws with_main]; auto;
        destruct (shutdown c); auto; not_fatal.
    + destruct (nth_error (ws c) j) as [w|].
      * destruct (w_pc w) as [| | | | | | | | [msg|]]; try discriminate H;
          some_inv H; constructor; cbn [shutdown handlers m_pc ws with_main]; auto; not_fatal.
      * some_inv H. constructor; cbn [shutdown handlers m_pc ws with_main]; auto; not_fatal.
  - destruct (nth_error (ws c) i) as [w|] eqn:Hnth; [|discriminate H].
    assert (Hw : calm_w w).
    { rewrite Forall_forall in Hws. apply Hws, (nth_error_In _ _ Hnth). }
    destruct Hw as [Hg [Hs Hpcw]].
    unfold worker_step in H. rewrite ?Hg, ?Hs in H.
    destruct (w_pc w) as [| b | | | | | | |] eqn:Hpc; try discriminate H.
    + some_inv H. constructor; cbn [shutdown handlers m_pc ws with_worker]; auto.
      apply Forall_set_nth; [exact Hws|]. unfold calm_w. cbn. auto.
    + some_inv H. unfold worker_wait.
      destruct (S (arrived c) =? parties c)%nat; constructor;
        cbn [shutdown handlers m_pc ws]; auto.
      * intro E. specialize (Hh E). destruct (m_pc c); try discriminate Hh; exact Hh.
      * apply Forall_map. apply Forall_set_nth.
        -- eapply Forall_impl; [|exact Hws]. apply calm_w_release.
        -- rewrite release_w_after_wsite.
           unfold calm_w. cbn [set_pc getattr_ok setattr_ok w_pc].
           destruct b; cbn [after_wsite]; tauto.
      * intros why E. destruct (m_pc c) as [| mb | | | | | | | |]; cbn in E;
          try (apply (Hm why); exact E). destruct mb; discriminate E.
      * apply Forall_set_nth; [exact Hws|].
        unfold calm_w. cbn [set_pc getattr_ok setattr_ok w_pc]. destruct b; tauto.
    + some_inv H. constructor; cbn [shutdown handlers m_pc ws with_worker]; auto.
      apply Forall_set_nth; [exact Hws|]. unfold calm_w. cbn. auto.
    + some_inv H. constructor; cbn [shutdown handlers m_pc ws with_worker]; auto.
      apply Forall_set_nth; [exact Hws|]. unfold calm_w. cbn. auto.
    + some_inv H. constructor; cbn [shutdown handlers m_pc ws with_worker]; auto.
      apply Forall_set_nth; [exact Hws|]. unfold calm_w. cbn. auto.
    + destruct (shutdown c) eqn:Esd; some_inv H;
        constructor; cbn [shutdown handlers m_pc ws with_worker]; auto;
        try (intro E; discriminate E);
        (apply Forall_set_nth; [exact Hws|]; unfold calm_w; cbn; auto).
    + some_inv H. constructor; cbn [shutdown handlers m_pc ws with_worker]; auto.
      apply Forall_set_nth; [exact Hws|]. unfold calm_w.
      cbn [set_pc getattr_ok setattr_ok getattr2_ok w_pc].
      destruct (getattr2_ok w); auto.
  - destruct (handlers c) eqn:Eh; [|discriminate H]. some_inv H.
    constructor; cbn [shutdown handlers m_pc ws]; auto.
  - (* the cpusets cannot be made *)
    destruct (m_pc c) eqn:Em; try discriminate H. some_inv H.
    constructor; cbn [shutdown handlers m_pc ws with_main]; auto; not_fatal.
Qed.

Lemma Calm_init :
  forall kernel,
    Forall (fun k => fst (fst k) = true /\ snd (fst k) = true) kernel ->
    Calm (init kernel).
Proof.
  intros kernel Hk. constructor; cbn [init shutdown handlers m_pc ws];
    try discriminate.
  apply Forall_map. eapply Forall_impl; [|exact Hk].
  intros [[g s] g2] [Hg Hs]. cbn in Hg, Hs. subst. unfold calm_w. cbn. auto.
Qed.

(** X24.  When the [sched_getattr] and the [sched_setattr] of every
    worker succeed, [main] never reports a failed set-up of the child
    threads: the only [fatal] it can still call from its first barrier on
    is one of the cpuset code between its first two barriers.  [shutdown]
    is set only by the signal handler, which runs only once [main] has
    installed it and is in [loop] or beyond; and the only message a worker
    can leave is that of its second [sched_getattr]. *)
Theorem startup_without_failures :
  forall kernel c,
    Forall (fun k => fst (fst k) = true /\ snd (fst k) = true) kernel ->
    reachable (init kernel) c ->
    m_pc c <> M_fatal SetupStep1
    /\ m_pc c <> M_fatal SetupStep2
    /\ (forall why, m_pc c = M_fatal why -> why = CpusetSetup)
    /\ (shutdown c = true -> handlers c = true)
    /\ (handlers c = true -> after_signals (m_pc c) = true)
    /\ Forall (fun w => forall msg, w_pc w = W_exit (Some msg) ->
                 msg = "Failed second sched_getattr"%string /\ getattr2_ok w = false)
              (ws c).
Proof.
  intros kernel c Hk Hreach.
  assert (HC : Calm c).
  { induction Hreach as [|c a c' _ IH Hstep];
      [apply Calm_init, Hk | apply (step_preserves_Calm a c c' IH Hstep)]. }
  destruct HC as [H1 H2 H3 H4].
  split; [intro E; discriminate (H4 _ E)|].
  split; [intro E; discriminate (H4 _ E)|].
  split; [exact H4 | split; [exact H1 | split; [exact H2|]]].
  eapply Forall_impl; [|exact H3]. intros w [_ [_ Hw]] msg E. rewrite E in Hw. exact Hw.
Qed.

(** X25.  However the threads are scheduled, when the [sched_getattr] or
    the [sched_setattr] of some worker fails no worker completes a
    steady-state cycle, and a worker at the top of the loop finds
    [shutdown] set. *)
Theorem failed_setup_measures_nothing :
  forall sched kernel c,
    Exists (fun k => fst (fst k) = false \/ snd (fst k) = false) kernel ->
    run sched (init kernel) = Some c ->
    Forall (fun w => w_cycles w = 0%nat) (ws c)
    /\ Forall (fun w => w_pc w = W_loop -> shutdown c = true) (ws c).
Proof.
  intros sched kernel c Hex Hrun.
  apply (no_cycle_after_failure kernel c Hex).
  apply (run_reachable sched), Hrun.
Qed.

Lemma failed_setup_measures_nothing_witness :
  Forall (fun w => w_cycles w = 0%nat)
         [mk_worker W_prepare true true true 0; mk_worker W_prepare true false true 0].
Proof.
  apply (failed_setup_measures_nothing
           [Worker 0; Worker 1; Worker 0; Worker 1; Main]
           [(true, true, true); (true, false, true)]
           (mk_config false false M_check1
              [mk_worker W_prepare true true true 0; mk_worker W_prepare true false true 0]
              [])).
  - right. left. right. reflexivity.
  - reflexivity.
Defined.

Lemma startup_never_deadlocks_witness :
  process_over M_check1 = true
  \/ can_step (mk_config false false M_check1
                 [mk_worker W_prepare true true true 0;
                  mk_worker W_prepare true false true 0] []).
Proof.
  apply (startup_never_deadlocks
           [(true, true, true); (true, false, true)]
           (mk_config false false M_check1
              [mk_worker W_prepare true true true 0;
               mk_worker W_prepare true false true 0] [])).
  apply (run_reachable [Worker 0; Worker 1; Worker 0; Worker 1; Main]).
  reflexivity.
Defined.

Lemma measuring_after_all_applied_witness :
  Forall (fun x => measuring x /\ getattr_ok x = true /\ setattr_ok x = true
                   \/ exists r, w_pc x = W_exit r)
         [mk_worker W_first_period true true true 0]
  /\ in_phase 3 (mphase M_signals).
Proof.
  apply (measuring_after_all_applied [(true, true, true)]
           (mk_config false false M_signals [mk_worker W_first_period true true true 0] [])
           (mk_worker W_first_period true true true 0)).
  - apply (run_reachable [Worker 0; Worker 0; Main; Main; Main; Main; Worker 0; Worker 0;
                          Main; Main; Worker 0; Worker 0]).
    reflexivity.
  - left. reflexivity.
  - left. reflexivity.
Defined.

Lemma startup_without_failures_witness :
  M_fatal CpusetSetup <> M_fatal SetupStep1
  /\ M_fatal CpusetSetup <> M_fatal SetupStep2
  /\ (forall why, M_fatal CpusetSetup = M_fatal why -> why = CpusetSetup).
Proof.
  pose proof (startup_without_failures [(true, true, true)]
                (mk_config false false (M_fatal CpusetSetup)
                   [mk_worker W_prepare true true true 0] [])) as H.
  assert (Hk : Forall (fun k : bool * bool * bool => fst (fst k) = true /\ snd (fst k) = true)
                      [(true, true, true)])
    by (repeat constructor).
  assert (Hr : reachable (init [(true, true, true)])
                 (mk_config false false (M_fatal CpusetSetup)
                    [mk_worker W_prepare true true true 0] [])).
  { apply (run_reachable [Worker 0; Worker 0; Main; Main; Cpuset_fails]).
    reflexivity. }
  split; [exact (proj1 (H Hk Hr))|].
  split; [exact (proj1 (proj2 (H Hk Hr))) | exact (proj1 (proj2 (proj2 (H Hk Hr))))].
Defined.

(** *** The join loop *)

Lemma failed_from_app :
  forall l1 l2 i,
    failed_from i (l1 ++ l2) = failed_from i l1 ++ failed_from (i + List.length l1) l2.
Proof.
  induction l1 as [|w l1 IH]; intros l2 i.
  - cbn. rewrite Nat.add_0_r. reflexivity.
  - cbn [app failed_from List.length]. rewrite IH.
    replace (S i + List.length l1)%nat with (i + S (List.length l1))%nat by lia.
    destruct (w_pc w) as [| | | | | | | | [msg|]]; reflexivity.
Qed.

Lemma firstn_succ_nth :
  forall (l : list worker) i w,
    nth_error l i = Some w -> firstn (S i) l = firstn i l ++ [w].
Proof.
  induction l as [|a l IH]; intros i w H.
  - destruct i; discriminate H.
  - destruct i as [|i]; cbn [nth_error] in H.
    + inversion H. reflexivity.
    + cbn [firstn app]. f_equal. apply IH. exact H.
Qed.

Lemma firstn_set_nth_exited :
  forall l i j w w',
    nth_error l j = Some w -> exited w = false ->
    Forall (fun x => exited x = true) (firstn i l) ->
    firstn i (set_nth j w' l) = firstn i l.
Proof.
  induction l as [|a l IH]; intros i j w w' Hnth Hw Hall.
  - destruct j; discriminate Hnth.
  - destruct i as [|i]; [reflexivity|].
    cbn [firstn] in Hall. inversion_clear Hall as [|? ? Ha Hl].
    destruct j as [|j]; cbn [nth_error] in Hnth.
    + inversion Hnth. subst a. congruence.
    + cbn [set_nth firstn]. f_equal. apply (IH i j w w' Hnth Hw Hl).
Qed.

Lemma map_release_exited :
  forall l, Forall (fun x => exited x = true) l -> map release_w l = l.
Proof.
  induction l as [|a l IH]; intro H; [reflexivity|].
  inversion_clear H as [|? ? Ha Hl]. cbn [map]. rewrite (IH Hl). f_equal.
  unfold release_w, exited in *. destruct (w_pc a); try discriminate Ha. reflexivity.
Qed.

Lemma firstn_release_exited :
  forall l i,
    Forall (fun x => exited x = true) (firstn i l) ->
    firstn i (map release_w l) = firstn i l.
Proof.
  intros l i H. rewrite firstn_map. apply map_release_exited, H.
Qed.

Lemma worker_step_not_exited :
  forall c i w c', worker_step c i w = Some c' -> exited w = false.
Proof.
  intros c i w c' H. unfold worker_step in H. unfold exited.
  destruct (w_pc w); try reflexivity. discriminate H.
Qed.

Lemma joined_workers :
  forall c (sd h : bool) l,
    joined c ->
    List.length l = List.length (ws c) ->
    (forall i, Forall (fun w => exited w = true) (firstn i (ws c)) ->
               firstn i l = firstn i (ws c)) ->
    process_over (m_pc c) = false ->
    joined (mk_config sd h (m_pc c) l (warned c)).
Proof.
  intros c sd h l HJ Hlen Hl Hover. unfold joined in *. cbn [m_pc ws warned].
  destruct (m_pc c) as [| | | | | | | i | |]; try exact HJ; try discriminate Hover.
  destruct HJ as [Hi [Hex Hw]]. rewrite (Hl i Hex). rewrite Hlen. auto.
Qed.

Lemma step_preserves_joined :
  forall a c c', joined c -> step a c = Some c' -> joined c'.
Proof.
  intros a c c' HJ H. unfold step in H.
  destruct (process_over (m_pc c)) eqn:Hover; [discriminate H|].
  destruct a as [| i | |].
  - unfold main_step in H. unfold joined in HJ.
    destruct (m_pc c) as [b| | | | | | | j | |] eqn:Hm; try discriminate H.
    + some_inv H. unfold main_wait.
      destruct (S (arrived c) =? parties c)%nat; unfold joined; cbn [m_pc warned];
        destruct b; exact HJ.
    + some_inv H. unfold joined. cbn. destruct (shutdown c); [exact I | exact HJ].
    + some_inv H. exact HJ.
    + some_inv H. unfold joined. cbn. destruct (shutdown c); [exact I | exact HJ].
    + some_inv H. exact HJ.
    + some_inv H. unfold joined. cbn [with_main m_pc ws warned].
      destruct (shutdown c); [|exact HJ].
      split; [lia|]. split; [constructor | exact HJ].
    + destruct HJ as [Hj [Hex Hw]].
      destruct (nth_error (ws c) j) as [w|] eqn:Hnth.
      * pose proof (firstn_succ_nth _ _ _ Hnth) as Hf.
        assert (Hlt : (j < List.length (ws c))%nat)
          by (apply nth_error_Some; congruence).
        assert (Hlen : List.length (firstn j (ws c)) = j)
          by (apply firstn_length_le; lia).
        destruct (w_pc w) as [| | | | | | | | [msg|]] eqn:Hpc; try discriminate H;
          some_inv H; unfold joined; cbn [with_main m_pc ws warned];
          (split; [lia|]); rewrite Hf; (split;
            [ apply Forall_app; split; [exact Hex|];
              constructor; [unfold exited; rewrite Hpc; reflexivity | constructor]
            | rewrite failed_from_app, Hlen, Hw; cbn [failed_from Nat.add];
              rewrite Hpc, ?app_nil_r; reflexivity ]).
      * some_inv H. unfold joined. cbn [with_main m_pc ws warned].
        apply nth_error_None in Hnth.
        rewrite firstn_all2 in Hex, Hw by lia. auto.
  - destruct (nth_error (ws c) i) as [w|] eqn:Hnth; [|discriminate H].
    pose proof (worker_step_not_exited _ _ _ _ H) as Hw.
    assert (Hset : forall sd w',
               joined (mk_config sd (handlers c) (m_pc c)
                                 (set_nth i w' (ws c)) (warned c))).
    { intros sd w'.
      apply joined_workers; [exact HJ | apply length_set_nth | | exact Hover].
      intros k Hk. apply (firstn_set_nth_exited _ k i w w' Hnth Hw Hk). }
    unfold worker_step in H.
    destruct (w_pc w) as [| b | | | | | | |] eqn:Hpc; try discriminate H.
    1: destruct (getattr_ok w).
    5: destruct (setattr_ok w).
    8: destruct (shutdown c).
    all: some_inv H; unfold with_worker; try apply Hset.
    unfold worker_wait.
    destruct (S (arrived c) =? parties c)%nat; [|apply Hset].
    (* the barrier opens *)
    unfold joined in *. cbn [m_pc ws warned].
    destruct (m_pc c) as [mb| mb | | | | | | j | |] eqn:Hm; try discriminate Hover;
      cbn [release_m]; try exact HJ; try (destruct mb; exact HJ).
    destruct HJ as [Hj [Hex Hwn]].
    rewrite length_map, length_set_nth.
    rewrite firstn_release_exited
      by (rewrite (firstn_set_nth_exited _ j i w _ Hnth Hw Hex); exact Hex).
    rewrite (firstn_set_nth_exited _ j i w _ Hnth Hw Hex). auto.
  - destruct (handlers c); [|discriminate H]. some_inv H.
    apply joined_workers; [exact HJ | reflexivity | auto | exact Hover].
  - destruct (m_pc c); try discriminate H. some_inv H. exact I.
Qed.

(** X27.  When [main] gets behind its join loop, however the threads were
    scheduled and whatever the system calls answered, every thread has
    left [run_deadline], and the warnings printed name, in order and once
    each, the threads that returned a message. *)
Theorem main_returns_after_every_join :
  forall kernel c,
    reachable (init kernel) c ->
    m_pc c = M_return ->
    Forall (fun w => exited w = true) (ws c)
    /\ warned c = failed_from 0 (ws c).
Proof.
  intros kernel c Hreach Hm.
  assert (HJ : joined c).
  { clear Hm. induction Hreach as [|c a c' _ IH Hstep].
    - reflexivity.
    - apply (step_preserves_joined a c c'); [|exact Hstep].
      exact IH. }
  unfold joined in HJ. rewrite Hm in HJ. exact HJ.
Qed.

Lemma main_returns_after_every_join_witness :
  Forall (fun w => exited w = true)
         [mk_worker (W_exit (Some "Failed second sched_getattr"%string)) true true false 0]
  /\ [0%nat] = failed_from 0
         [mk_worker (W_exit (Some "Failed second sched_getattr"%string)) true true false 0].
Proof.
  apply (main_returns_after_every_join [(true, true, false)]
           (mk_config true true M_return
              [mk_worker (W_exit (Some "Failed second sched_getattr"%string))
                         true true false 0] [0%nat])).
  - apply (run_reachable [Worker 0; Worker 0; Main; Main; Main; Main; Worker 0; Worker 0;
                          Main; Main; Worker 0; Worker 0; Main; Signal;
                          Worker 0; Worker 0; Worker 0; Main; Main; Main]).
    reflexivity.
  - reflexivity.
Defined.

(* ================================================================= *)
(** ** The scheduler features file *)

Section FeaturesFacts.

Local Open Scope string_scope.

Lemma starts_with_spec :
  forall needle s, starts_with needle s = true <-> exists post, s = needle ++ post.
Proof.
  induction needle as [|a n IH]; intro s; cbn [starts_with append].
  - split; [intros _; exists s; reflexivity | reflexivity].
  - destruct s as [|b r].
    + split; [discriminate | intros [post H]; discriminate H].
    + rewrite andb_true_iff, Ascii.eqb_eq, IH. split.
      * intros [-> [post ->]]. exists post. reflexivity.
      * intros [post H]. inversion H. split; [reflexivity | exists post; reflexivity].
Qed.

Lemma skip_app :
  forall pre s, skip (String.length pre) (pre ++ s) = s.
Proof.
  induction pre as [|c pre IH]; intro s; [reflexivity|].
  cbn [String.length skip append advance]. apply IH.
Qed.

(** [strstr] finds the first occurrence. *)
Lemma strstr_some :
  forall s needle k,
    strstr s needle = Some k ->
    exists pre post,
      s = pre ++ needle ++ post /\ String.length pre = k
      /\ forall pre' post', s = pre' ++ needle ++ post' ->
                            (k <= String.length pre')%nat.
Proof.
  induction s as [|c r IH]; intros needle k H; cbn [strstr] in H.
  - destruct (starts_with needle "") eqn:E; [|discriminate H].
    inversion H; subst k. apply starts_with_spec in E. destruct E as [post E].
    exists "", post. cbn. repeat split; [exact E | intros; lia].
  - destruct (starts_with needle (String c r)) eqn:E.
    + inversion H; subst k. apply starts_with_spec in E. destruct E as [post E].
      exists "", post. cbn. repeat split; [exact E | intros; lia].
    + destruct (strstr r needle) as [k'|] eqn:Er; [|discriminate H].
      cbn in H. inversion H; subst k.
      destruct (IH needle k' Er) as [pre [post [Hs [Hl Hfirst]]]].
      exists (String c pre), post. cbn [append String.length].
      repeat split; [rewrite Hs; reflexivity | lia |].
      intros pre' post' Hs'. destruct pre' as [|c' pre'].
      * cbn [append] in Hs'.
        assert (starts_with needle (String c r) = true)
          by (apply starts_with_spec; exists post'; exact Hs').
        congruence.
      * cbn [append] in Hs'. inversion Hs'. subst c'.
        cbn [String.length]. apply le_n_S. apply (Hfirst pre' post'). assumption.
Qed.

Lemma strstr_none :
  forall s needle, strstr s needle = None -> ~ occurs needle s.
Proof.
  induction s as [|c r IH]; intros needle H [pre [post Hs]]; cbn [strstr] in H.
  - destruct (starts_with needle "") eqn:E; [discriminate H|].
    destruct pre; [|discriminate Hs]. cbn in Hs.
    assert (starts_with needle "" = true) by (apply starts_with_spec; exists post; exact Hs).
    congruence.
  - destruct (starts_with needle (String c r)) eqn:E; [discriminate H|].
    destruct (strstr r needle) eqn:Er; [discriminate H|].
    destruct pre as [|c' pre].
    + cbn in Hs.
      assert (starts_with needle (String c r) = true)
        by (apply starts_with_spec; exists post; exact Hs).
      congruence.
    + cbn [append] in Hs. inversion Hs. apply (IH needle Er). exists pre, post. assumption.
Qed.


Lemma truncate_skip :
  forall n s, s = truncate n s ++ skip n s.
Proof.
  induction n as [|n IH]; intro s; [reflexivity|].
  destruct s as [|c r]; cbn [truncate skip advance append].
  - clear IH. induction n; [reflexivity | exact IHn].
  - f_equal. apply IH.
Qed.

Lemma occurs_behind :
  forall needle n s, starts_with needle (skip n s) = true -> occurs needle s.
Proof.
  intros needle n s H. apply starts_with_spec in H. destruct H as [post H].
  exists (truncate n s), post. rewrite <- H. apply truncate_skip.
Qed.

Lemma occurs_shorter :
  forall a b s, occurs (a ++ b) s -> occurs a s.
Proof.
  intros a b s [pre [post H]]. exists pre, (b ++ post). rewrite H.
  rewrite (append_assoc a b post). reflexivity.
Qed.

(** One search writes at most the name it looks for, and only behind the
    name with "NO_" in front of it. *)
Lemma enable_feature_spec :
  forall e buf name no_name ret found ret' written,
    enable_feature e buf name no_name ret = (found, ret', written) ->
    (written = [] /\ ret' = ret
     /\ (found = false ->
         strstr buf name = None
         \/ exists k, strstr buf name = Some k /\ (k < 3)%nat))
    \/ (written = [name] /\ found = true /\ occurs no_name buf
        /\ ret' = if (fe_write e name =? strlen name)%Z then 1%Z else 0%Z).
Proof.
  intros e buf name no_name ret found ret' written H. unfold enable_feature in H.
  destruct (strstr buf name) as [k|] eqn:Ek.
  - destruct (3 <=? k)%nat eqn:E3.
    + destruct (starts_with no_name (skip (k - 3) buf)) eqn:Eno.
      * inversion H; subst. right. repeat split.
        -- apply (occurs_behind _ _ _ Eno).
        -- destruct (fe_write e name =? strlen name)%Z; reflexivity.
      * inversion H; subst. left. repeat split. discriminate.
    + inversion H; subst. left. repeat split. intros _. right. exists k.
      apply Nat.leb_gt in E3. auto.
  - inversion H; subst. left. repeat split. auto.
Qed.

Lemma strstr_shorter_earlier :
  forall s a b k,
    strstr s (a ++ b) = Some k ->
    exists k', strstr s a = Some k' /\ (k' <= k)%nat.
Proof.
  intros s a b k H. destruct (strstr_some _ _ _ H) as [pre [post [Hs [Hl _]]]].
  destruct (strstr s a) as [k'|] eqn:Ea.
  - exists k'. split; [reflexivity|].
    destruct (strstr_some _ _ _ Ea) as [_ [_ [_ [_ Hfirst]]]].
    rewrite <- Hl. apply (Hfirst pre (b ++ post)). rewrite Hs.
    rewrite (append_assoc a b post). reflexivity.
  - exfalso. apply (strstr_none _ _ Ea). apply (occurs_shorter a b). exists pre, post. exact Hs.
Qed.

(** X28.  The first call of [setup_hr_tick] returns 0 or 1 and writes to
    the features file at most once.  It writes "HRTICK_DL" only when the
    text it has read holds "NO_HRTICK_DL", and "HRTICK" only when that text
    holds "NO_HRTICK" and no "HRTICK_DL" at all; having written, it returns
    1 exactly when [write] returned the length of the name. *)
Theorem setup_hr_tick_enables_what_is_off :
  forall MAX_PATH e,
    let ret := fst (setup_hr_tick_body MAX_PATH e) in
    let written := snd (setup_hr_tick_body MAX_PATH e) in
    (ret = 0 \/ ret = 1)%Z
    /\ (written = []
        \/ (exists data,
               fe_read e = Some data /\ written = ["HRTICK_DL"]
               /\ occurs "NO_HRTICK_DL" (features_text data)
               /\ (ret = 1%Z <-> fe_write e "HRTICK_DL" = 9%Z))
        \/ (exists data,
               fe_read e = Some data /\ written = ["HRTICK"]
               /\ occurs "NO_HRTICK" (features_text data)
               /\ ~ occurs "HRTICK_DL" (features_text data)
               /\ (ret = 1%Z <-> fe_write e "HRTICK" = 6%Z))).
Proof.
  intros MAX_PATH e. cbv zeta. unfold setup_hr_tick_body.
  destruct (fill_sched_features MAX_PATH e) as [r path].
  destruct (negb (r =? 0)%Z); [cbn; auto|].
  destruct path as [path|]; [|cbn; auto].
  destruct (negb (fe_open_ok e path)); [cbn; auto|].
  destruct (fe_read e) as [data|] eqn:Eread; [|cbn; auto].
  set (buf := features_text data).
  destruct (enable_feature e buf "HRTICK_DL" "NO_HRTICK_DL" 1)
    as [[found ret1] w1] eqn:E1.
  destruct (enable_feature_spec _ _ _ _ _ _ _ _ E1)
    as [[-> [-> Hnot]] | [-> [-> [Hocc ->]]]].
  - destruct found; cbn [negb]; [cbn; auto|].
    destruct (enable_feature e buf "HRTICK" "NO_HRTICK" 1) as [[found2 ret2] w2] eqn:E2.
    cbn [fst snd app].
    destruct (enable_feature_spec _ _ _ _ _ _ _ _ E2)
      as [[-> [-> _]] | [-> [_ [Hocc ->]]]]; [auto|].
    assert (Hret : ((if (fe_write e "HRTICK" =? strlen "HRTICK")%Z then 1 else 0) = 0
                    \/ (if (fe_write e "HRTICK" =? strlen "HRTICK")%Z then 1 else 0) = 1)%Z)
      by (destruct (fe_write e "HRTICK" =? strlen "HRTICK")%Z; auto).
    split; [exact Hret|]. right. right. exists data.
    repeat split; try assumption.
    + destruct (Hnot eq_refl) as [Hnone | [k [Hk Hlt]]].
      * apply (strstr_none _ _ Hnone).
      * exfalso.
        destruct (strstr_shorter_earlier buf "HRTICK" "_DL" k Hk) as [k' [Hk' Hle]].
        unfold enable_feature in E2. rewrite Hk' in E2.
        replace (3 <=? k')%nat with false in E2
          by (symmetry; apply Nat.leb_gt; lia).
        inversion E2.
    + change (strlen "HRTICK") with 6%Z.
      destruct (fe_write e "HRTICK" =? 6)%Z eqn:Ew; [intros _; lia | discriminate].
    + change (strlen "HRTICK") with 6%Z. intro Hw. rewrite Hw. reflexivity.
  - cbn [negb fst snd].
    assert (Hret : ((if (fe_write e "HRTICK_DL" =? strlen "HRTICK_DL")%Z then 1 else 0) = 0
                    \/ (if (fe_write e "HRTICK_DL" =? strlen "HRTICK_DL")%Z then 1 else 0) = 1)%Z)
      by (destruct (fe_write e "HRTICK_DL" =? strlen "HRTICK_DL")%Z; auto).
    split; [exact Hret|]. right. left. exists data.
    repeat split; try assumption.
    + change (strlen "HRTICK_DL") with 9%Z.
      destruct (fe_write e "HRTICK_DL" =? 9)%Z eqn:Ew; [intros _; lia | discriminate].
    + change (strlen "HRTICK_DL") with 9%Z. intro Hw. rewrite Hw. reflexivity.
Qed.

Lemma truncate_app_long :
  forall n a b, (n <= String.length a)%nat -> truncate n (a ++ b) = truncate n a.
Proof.
  induction n as [|n IH]; intros a b H; [reflexivity|].
  destruct a as [|c a]; cbn [String.length] in H; [lia|].
  cbn [append truncate]. f_equal. apply IH. lia.
Qed.

Lemma features_text_long :
  forall s, (499 <= String.length s)%nat -> features_text s = c_string (truncate 499 s).
Proof.
  intros s H. unfold features_text.
  destruct (Z.of_nat (String.length s) >=? 500)%Z eqn:E.
  - reflexivity.
  - assert (Hlen : String.length s = 499%nat) by lia. rewrite Hlen. reflexivity.
Qed.

(** Only the first 499 bytes of the file count. *)
Lemma features_text_app :
  forall data tail,
    (499 <= String.length data)%nat ->
    features_text (data ++ tail) = features_text data.
Proof.
  intros data tail H.
  rewrite !features_text_long by (rewrite ?length_append; lia).
  rewrite truncate_app_long by exact H. reflexivity.
Qed.

(** X29.  When the features file can be opened and read and "HRTICK" is
    not among the first 499 bytes of it, [setup_hr_tick] writes nothing and
    returns 1, whatever follows those bytes: a kernel without the feature,
    or one that lists it further down, passes the test of [main]. *)
Theorem setup_hr_tick_passes_without_feature :
  forall MAX_PATH e path data tail,
    fill_sched_features MAX_PATH e = (0%Z, Some path) ->
    fe_open_ok e path = true ->
    fe_read e = Some (data ++ tail) ->
    tail = "" \/ (499 <= String.length data)%nat ->
    ~ occurs "HRTICK" (features_text data) ->
    setup_hr_tick_body MAX_PATH e = (1%Z, []).
Proof.
  intros MAX_PATH e path data tail Hfill Hopen Hread Htail Hno.
  unfold setup_hr_tick_body. rewrite Hfill. cbn [Z.eqb negb]. rewrite Hopen, Hread.
  cbn [negb].
  assert (Htext : features_text (data ++ tail) = features_text data).
  { destruct Htail as [-> | Hlong]; [|apply features_text_app, Hlong].
    rewrite append_nil_r. reflexivity. }
  rewrite Htext.
  assert (H6 : strstr (features_text data) "HRTICK" = None).
  { destruct (strstr (features_text data) "HRTICK") as [k|] eqn:E; [|reflexivity].
    exfalso. apply Hno. destruct (strstr_some _ _ _ E) as [pre [post [Hs _]]].
    exists pre, post. exact Hs. }
  assert (H9 : strstr (features_text data) "HRTICK_DL" = None).
  { destruct (strstr (features_text data) "HRTICK_DL") as [k|] eqn:E; [|reflexivity].
    destruct (strstr_shorter_earlier _ "HRTICK" "_DL" k E) as [k' [Hk' _]]. congruence. }
  unfold enable_feature. rewrite H9, H6. reflexivity.
Qed.

Lemma setup_hr_tick_passes_without_feature_witness :
  setup_hr_tick_body 4096
    (mk_features_env "/sys/kernel/debug"
       (fun p => String.eqb p "/sys/kernel/debug/sched/features")
       (fun _ => true)
       (Some "GENTLE_FAIR_SLEEPERS START_DEBIT NO_NEXT_BUDDY LAST_BUDDY")
       (fun _ => (-1)%Z))
  = (1%Z, []).
Proof.
  apply (setup_hr_tick_passes_without_feature 4096
           (mk_features_env "/sys/kernel/debug"
              (fun p => String.eqb p "/sys/kernel/debug/sched/features")
              (fun _ => true)
              (Some "GENTLE_FAIR_SLEEPERS START_DEBIT NO_NEXT_BUDDY LAST_BUDDY")
              (fun _ => (-1)%Z))
           "/sys/kernel/debug/sched/features"
           "GENTLE_FAIR_SLEEPERS START_DEBIT NO_NEXT_BUDDY LAST_BUDDY" "").
  - reflexivity.
  - reflexivity.
  - reflexivity.
  - left. reflexivity.
  - apply strstr_none. reflexivity.
Defined.

End FeaturesFacts.

(* ================================================================= *)
(** ** Removing a cpuset *)

Lemma rmdirs_round :
  forall trace pids,
    rmdirs (trace ++ map (fun pid => DWrite (fmt_d pid)) pids ++ [DSleep; DRmdir])
    = S (rmdirs trace)
    /\ sleeps (trace ++ map (fun pid => DWrite (fmt_d pid)) pids ++ [DSleep; DRmdir])
       = S (sleeps trace).
Proof.
  intros trace pids. unfold rmdirs, sleeps.
  rewrite !filter_app, !length_app.
  assert (H : forall f, (forall t, f (DWrite t) = false) ->
                        filter f (map (fun pid => DWrite (fmt_d pid)) pids) = []).
  { intros f Hf. induction pids as [|p pids IH]; [reflexivity|].
    cbn [map filter]. rewrite Hf. exact IH. }
  rewrite !H by reflexivity. cbn. lia.
Qed.

Lemma destroy_cpuset_loop_ends :
  forall e fuel n trace,
    (n <= 5)%nat -> (6 <= fuel + n)%nat ->
    exists out trace',
      destroy_cpuset_loop fuel e n (Z.of_nat n) trace = Some (out, trace')
      /\ (rmdirs trace' - rmdirs trace <= 6 - n)%nat
      /\ (rmdirs trace <= rmdirs trace')%nat
      /\ (sleeps trace' - sleeps trace = rmdirs trace' - rmdirs trace)%nat
      /\ (sleeps trace <= sleeps trace')%nat
      /\ (out = DGaveUp ->
          (rmdirs trace' - rmdirs trace = 6 - n)%nat
          /\ forall k, (n <= k < 6)%nat -> de_rmdir_ok e k = false)
      /\ (out = DRemoved ->
          exists k, (n <= k < 6)%nat /\ de_rmdir_ok e k = true
                    /\ (rmdirs trace' - rmdirs trace = S k - n)%nat
                    /\ forall j, (n <= j < k)%nat -> de_rmdir_ok e j = false).
Proof.
  intros e fuel. induction fuel as [|fuel IH]; intros n trace Hn Hfuel; [lia|].
  cbn [destroy_cpuset_loop].
  destruct (de_fopen_ok e n); cbn [negb].
  2: { exists DFopenFailed, trace. repeat split; try lia; discriminate. }
  destruct (de_open_ok e n); cbn [negb].
  2: { exists DOpenFailed, trace. repeat split; try lia; discriminate. }
  destruct (rmdirs_round trace (de_tasks e n)) as [Hr Hs].
  set (trace1 := trace ++ map (fun pid => DWrite (fmt_d pid)) (de_tasks e n)
                       ++ [DSleep; DRmdir]) in *.
  destruct (de_rmdir_ok e n) eqn:Erm.
  - exists DRemoved, trace1. repeat split; try lia; try discriminate.
    intros _. exists n. repeat split; try lia; try exact Erm; intros; lia.
  - destruct (Z.of_nat n <? 5) eqn:E5.
    + apply Z.ltb_lt in E5.
      replace (to_int (Z.of_nat n + 1)) with (Z.of_nat (S n))
        by (unfold to_int, UINT_MOD; rewrite Z.mod_small by lia;
            replace (Z.of_nat n + 1 <? 2 ^ 31) with true
              by (symmetry; apply Z.ltb_lt; lia); lia).
      destruct (IH (S n) trace1 ltac:(lia) ltac:(lia))
        as [out [trace' [Hrun [Hle [Hmono [Hsl [Hsmono [Hgave Hrem]]]]]]]].
      exists out, trace'. split; [exact Hrun|].
      repeat split; try lia.
      * destruct (Hgave H) as [Hc _]. lia.
      * intros k Hk. destruct (Nat.eq_dec k n) as [->|Hne]; [exact Erm|].
        destruct (Hgave H) as [_ Hall]. apply Hall. lia.
      * intro Hout. destruct (Hrem Hout) as [k [Hk [Hok [Hc Hbefore]]]].
        exists k. split; [lia|]. split; [exact Hok|]. split; [lia|].
        intros j Hj. destruct (Nat.eq_dec j n) as [->|Hne]; [exact Erm|].
        apply Hbefore. lia.
    + apply Z.ltb_ge in E5. assert (n = 5%nat) by lia. subst n.
      exists DGaveUp, trace1. repeat split; try lia; try discriminate.
      intros k Hk. assert (k = 5%nat) by lia. subst k. exact Erm.
Qed.

(** X30.  [destroy_cpuset] comes to an end whatever the system answers: it
    calls [rmdir] at most six times, sleeping one second before each call.
    It gives up only after six failed calls, and when it removes the
    directory it has stopped at the first call that succeeded. *)
Theorem destroy_cpuset_gives_up_after_six :
  forall e fuel,
    (6 <= fuel)%nat ->
    exists out trace,
      destroy_cpuset fuel e = Some (out, trace)
      /\ (rmdirs trace <= 6)%nat
      /\ sleeps trace = rmdirs trace
      /\ (out = DGaveUp ->
          rmdirs trace = 6%nat /\ forall k, (k < 6)%nat -> de_rmdir_ok e k = false)
      /\ (out = DRemoved ->
          exists k, (k < 6)%nat /\ de_rmdir_ok e k = true /\ rmdirs trace = S k
                    /\ forall j, (j < k)%nat -> de_rmdir_ok e j = false).
Proof.
  intros e fuel Hfuel. unfold destroy_cpuset.
  destruct (de_stat_ok e); cbn [negb].
  2: { exists DNoSuchSet, []. repeat split; try (cbn; lia); discriminate. }
  destruct (destroy_cpuset_loop_ends e fuel 0 [] ltac:(lia) ltac:(lia))
    as [out [trace [Hrun [Hle [_ [Hsl [_ [Hgave Hrem]]]]]]]].
  change (Z.of_nat 0) with 0 in Hrun.
  change (rmdirs []) with 0%nat in *. change (sleeps []) with 0%nat in *.
  exists out, trace. split; [exact Hrun|]. repeat split; try lia.
  - destruct (Hgave H). lia.
  - intros k Hk. destruct (Hgave H) as [_ Hall]. apply Hall. lia.
  - intro Hout. destruct (Hrem Hout) as [k [Hk [Hok [Hc Hbefore]]]].
    exists k. split; [lia|]. split; [exact Hok|]. split; [lia|].
    intros j Hj. apply Hbefore. lia.
Qed.

Lemma destroy_cpuset_gives_up_after_six_witness :
  exists out trace,
    destroy_cpuset 6 (mk_destroy_env true (fun _ => true) (fun _ => true)
                        (fun n => if (n =? 0)%nat then [4711] else [])
                        (fun n => (n =? 1)%nat))
    = Some (out, trace)
    /\ (rmdirs trace <= 6)%nat
    /\ sleeps trace = rmdirs trace
    /\ (out = DGaveUp ->
        rmdirs trace = 6%nat
        /\ forall k, (k < 6)%nat -> (k =? 1)%nat = false)
    /\ (out = DRemoved ->
        exists k, (k < 6)%nat /\ (k =? 1)%nat = true /\ rmdirs trace = S k
                  /\ forall j, (j < k)%nat -> (j =? 1)%nat = false).
Proof.
  apply (destroy_cpuset_gives_up_after_six
           (mk_destroy_env true (fun _ => true) (fun _ => true)
              (fun n => if (n =? 0)%nat then [4711] else [])
              (fun n => (n =? 1)%nat)) 6).
  lia.
Defined.
